(** * SHAC Simulator: scene model, movement controller and visualization

    A shallow embedding of the positional logic of the simulator
    (js/audio-engine.js, js/visualization.js and the source-manager panel)
    together with the properties its specification states about it.

    Conventions of the embedding.
    - A JavaScript number is a real number: arithmetic is exact, and there is
      no NaN, no infinity and no signed zero.  [Math.sqrt], [Math.sin],
      [Math.cos] and [Math.PI] are the functions of the real-number library;
      [Math.atan2] is defined below from [atan].
    - Source ids and audio-node handles are natural numbers.
    - Each class is a record of its fields with one function per method; a
      method that mutates [this] returns the updated record.  A method that
      also calls into the audio engine takes and returns the engine.
    - The [Map] of sources is an association list in insertion order, the
      order [Map.prototype.values] enumerates.
    - A reference to a source object is the object's id: ids are never
      reassigned, and no two source objects share one. *)

From Stdlib Require Import Reals Lra Lia List Ascii String Bool Arith ZArith
  Sorted.
From Equations Require Import Equations.
Import ListNotations.
Local Open Scope R_scope.

(** ** Numbers and vectors *)

(** [Math.max] and [Math.min] on two arguments. *)
Definition Math_max (a b : R) : R := Rmax a b.
Definition Math_min (a b : R) : R := Rmin a b.

(** [Math.atan2(b, a)]: the angle of the point with abscissa [a] and
    ordinate [b], in (-PI, PI]. *)
Definition Math_atan2 (b a : R) : R :=
  if Rlt_dec 0 a then atan (b / a)
  else if Rlt_dec a 0 then
    (if Rle_dec 0 b then atan (b / a) + PI else atan (b / a) - PI)
  else if Rlt_dec 0 b then PI / 2
  else if Rlt_dec b 0 then - (PI / 2)
  else 0.

(** A position object [{x, y, z}]. *)
Record Vec3 : Type := mkVec3 { x : R; y : R; z : R }.

(** A two-field object [{x, y}] (the drag offset, in pixels). *)
Record Vec2 : Type := mkVec2 { x2 : R; y2 : R }.

(** ** The audio engine (class SpatialAudioEngine) *)

Module SpatialAudioEngine.

(** A decoded [AudioBuffer], opaque to the engine. *)
Definition AudioBuffer : Type := nat.

(** A source object.  [node] is the handle of the buffer-source node of the
    active playback route, [gainNode] the value of the gain node's [gain]
    parameter and [panner] the position held by the panner node; all three
    are [None] when the field is [null]. *)
Record Source : Type := mkSource {
  id : nat;
  name : string;
  buffer : AudioBuffer;
  position : Vec3;
  volume : R;
  locked : bool;
  node : option nat;
  panner : option Vec3;
  gainNode : option R;
  isPlaying : bool
}.

(** Calls made on buffer-source nodes, in the order they are made. *)
Inductive NodeCall : Type :=
| NodeStart (n : nat)
| NodeStop (n : nat).

(** The host [AudioContext]: the orientation of its listener and the number
    of buffer-source nodes it has created so far. *)
Record AudioContext : Type := mkAudioContext {
  listenerForward : Vec3;
  listenerUp : Vec3;
  created : nat
}.

(** The engine.  [playing] is the engine's own [isPlaying] flag; [calls] is
    the trace of calls on buffer-source nodes. *)
Record Engine : Type := mkEngine {
  audioContext : option AudioContext;
  listener : Vec3;
  sources : list (nat * Source);
  playing : bool;
  initialized : bool;
  nextSourceId : nat;
  calls : list NodeCall
}.

(** [constructor()]. *)
Definition constructor : Engine :=
  {| audioContext := None;
     listener := mkVec3 0 0 0;
     sources := [];
     playing := false;
     initialized := false;
     nextSourceId := 1%nat;
     calls := [] |}.

(** [init()]; [ok] tells whether creating the [AudioContext] succeeded. *)
Definition init (ok : bool) (e : Engine) : Engine :=
  if initialized e then e
  else if ok then
    {| audioContext := Some (mkAudioContext (mkVec3 0 0 (-1)) (mkVec3 0 1 0) 0);
       listener := listener e; sources := sources e; playing := playing e;
       initialized := true; nextSourceId := nextSourceId e; calls := calls e |}
  else
    {| audioContext := audioContext e;
       listener := listener e; sources := sources e; playing := playing e;
       initialized := false; nextSourceId := nextSourceId e; calls := calls e |}.

(** *** The Map of sources *)

(** [Map.prototype.get]. *)
Fixpoint map_get (k : nat) (m : list (nat * Source)) : option Source :=
  match m with
  | [] => None
  | (k', s) :: rest => if Nat.eqb k k' then Some s else map_get k rest
  end.

(** [Map.prototype.set]: an existing key keeps its place, a new one is
    appended. *)
Fixpoint map_set (k : nat) (s : Source) (m : list (nat * Source))
  : list (nat * Source) :=
  match m with
  | [] => [(k, s)]
  | (k', s') :: rest =>
      if Nat.eqb k k' then (k, s) :: rest else (k', s') :: map_set k s rest
  end.

(** [Map.prototype.delete]. *)
Fixpoint map_delete (k : nat) (m : list (nat * Source))
  : list (nat * Source) :=
  match m with
  | [] => []
  | (k', s') :: rest =>
      if Nat.eqb k k' then rest else (k', s') :: map_delete k rest
  end.

(** Mutation of the source object stored under [k]. *)
Fixpoint map_update (k : nat) (f : Source -> Source) (m : list (nat * Source))
  : list (nat * Source) :=
  match m with
  | [] => []
  | (k', s') :: rest =>
      if Nat.eqb k k' then (k', f s') :: rest
      else (k', s') :: map_update k f rest
  end.

Definition with_sources (m : list (nat * Source)) (e : Engine) : Engine :=
  {| audioContext := audioContext e; listener := listener e; sources := m;
     playing := playing e; initialized := initialized e;
     nextSourceId := nextSourceId e; calls := calls e |}.

Definition with_calls (c : list NodeCall) (e : Engine) : Engine :=
  {| audioContext := audioContext e; listener := listener e;
     sources := sources e; playing := playing e;
     initialized := initialized e; nextSourceId := nextSourceId e;
     calls := c |}.

Definition with_playing (b : bool) (e : Engine) : Engine :=
  {| audioContext := audioContext e; listener := listener e;
     sources := sources e; playing := b;
     initialized := initialized e; nextSourceId := nextSourceId e;
     calls := calls e |}.

(** *** Field updates of a source object *)

Definition set_position (p : Vec3) (s : Source) : Source :=
  {| id := id s; name := name s; buffer := buffer s; position := p;
     volume := volume s; locked := locked s; node := node s;
     panner := panner s; gainNode := gainNode s; isPlaying := isPlaying s |}.

Definition set_volume (v : R) (s : Source) : Source :=
  {| id := id s; name := name s; buffer := buffer s; position := position s;
     volume := v; locked := locked s; node := node s;
     panner := panner s; gainNode := gainNode s; isPlaying := isPlaying s |}.

Definition set_locked (b : bool) (s : Source) : Source :=
  {| id := id s; name := name s; buffer := buffer s; position := position s;
     volume := volume s; locked := b; node := node s;
     panner := panner s; gainNode := gainNode s; isPlaying := isPlaying s |}.

Definition set_panner (p : option Vec3) (s : Source) : Source :=
  {| id := id s; name := name s; buffer := buffer s; position := position s;
     volume := volume s; locked := locked s; node := node s;
     panner := p; gainNode := gainNode s; isPlaying := isPlaying s |}.

Definition set_gain (g : option R) (s : Source) : Source :=
  {| id := id s; name := name s; buffer := buffer s; position := position s;
     volume := volume s; locked := locked s; node := node s;
     panner := panner s; gainNode := g; isPlaying := isPlaying s |}.

(** The four assignments that end a playback route:
    [node = null; gainNode = null; panner = null; isPlaying = false]. *)
Definition clear_route (s : Source) : Source :=
  {| id := id s; name := name s; buffer := buffer s; position := position s;
     volume := volume s; locked := locked s; node := None;
     panner := None; gainNode := None; isPlaying := false |}.

(** *** Methods *)

(** [createSource(audioBuffer, name, position = {x:0, y:0, z:0})]: returns
    the new id and the engine.  [None] for [pos] is an omitted argument. *)
Definition createSource (audioBuffer : AudioBuffer) (nm : string)
    (pos : option Vec3) (e : Engine) : nat * Engine :=
  let sourceId := nextSourceId e in
  let p := match pos with Some p => p | None => mkVec3 0 0 0 end in
  let source :=
    {| id := sourceId; name := nm; buffer := audioBuffer;
       position := mkVec3 (x p) (y p) (z p);
       volume := 1; locked := false;
       node := None; panner := None; gainNode := None;
       isPlaying := false |} in
  (sourceId,
   {| audioContext := audioContext e; listener := listener e;
      sources := map_set sourceId source (sources e);
      playing := playing e; initialized := initialized e;
      nextSourceId := S (nextSourceId e); calls := calls e |}).

(** [updateSourcePosition(panner, sourcePosition)]: the position written to
    the panner (both API branches write the same three values). *)
Definition updateSourcePosition (e : Engine) (sourcePosition : Vec3) : Vec3 :=
  let relativeX := x sourcePosition - x (listener e) in
  let relativeY := y sourcePosition - y (listener e) in
  let relativeZ := z sourcePosition - z (listener e) in
  mkVec3 relativeX relativeY relativeZ.

(** [stopSource(sourceId)]. *)
Definition stopSource (sourceId : nat) (e : Engine) : Engine :=
  match map_get sourceId (sources e) with
  | None => e
  | Some source =>
      match node source with
      | None => e
      | Some n =>
          with_calls (calls e ++ [NodeStop n])
            (with_sources (map_update sourceId clear_route (sources e)) e)
      end
  end.

(** [removeSource(sourceId)]. *)
Definition removeSource (sourceId : nat) (e : Engine) : Engine :=
  match map_get sourceId (sources e) with
  | None => e
  | Some _ =>
      let e1 := stopSource sourceId e in
      with_sources (map_delete sourceId (sources e1)) e1
  end.

(** [startSource(sourceId)]. *)
Definition startSource (sourceId : nat) (e : Engine) : Engine :=
  match map_get sourceId (sources e), audioContext e with
  | Some source, Some ctx =>
      let stopped :=
        match node source with
        | Some n => calls e ++ [NodeStop n]
        | None => calls e
        end in
      let bufferSource := created ctx in
      let started (s : Source) : Source :=
        {| id := id s; name := name s; buffer := buffer s;
           position := position s; volume := volume s; locked := locked s;
           node := Some bufferSource;
           panner := Some (updateSourcePosition e (position s));
           gainNode := Some (volume s);
           isPlaying := true |} in
      {| audioContext :=
           Some (mkAudioContext (listenerForward ctx) (listenerUp ctx)
                   (S (created ctx)));
         listener := listener e;
         sources := map_update sourceId started (sources e);
         playing := playing e; initialized := initialized e;
         nextSourceId := nextSourceId e;
         calls := stopped ++ [NodeStart bufferSource] |}
  | _, _ => e
  end.

(** The [onended] callback installed by [startSource] on the route of
    [sourceId]; it acts on the source object it closed over. *)
Definition onended (sourceId : nat) (e : Engine) : Engine :=
  with_sources (map_update sourceId clear_route (sources e)) e.

(** [this.sources.forEach((source, sourceId) => f(sourceId))]. *)
Definition forEach_id (f : nat -> Engine -> Engine) (e : Engine) : Engine :=
  fold_left (fun acc kv => f (fst kv) acc) (sources e) e.

(** [playAll()]. *)
Definition playAll (e : Engine) : Engine :=
  match audioContext e with
  | None => e
  | Some _ => with_playing true (forEach_id startSource e)
  end.

(** [pauseAll()]. *)
Definition pauseAll (e : Engine) : Engine :=
  with_playing false (forEach_id stopSource e).

(** [setSourceVolume(sourceId, volume)]. *)
Definition setSourceVolume (sourceId : nat) (v : R) (e : Engine) : Engine :=
  match map_get sourceId (sources e) with
  | None => e
  | Some _ =>
      let upd (s : Source) : Source :=
        let s1 := set_volume (Math_max 0 (Math_min 1 v)) s in
        match gainNode s1 with
        | Some _ => set_gain (Some (volume s1)) s1
        | None => s1
        end in
      with_sources (map_update sourceId upd (sources e)) e
  end.

(** [setSourcePosition(sourceId, position)]. *)
Definition setSourcePosition (sourceId : nat) (p : Vec3) (e : Engine)
  : Engine :=
  match map_get sourceId (sources e) with
  | None => e
  | Some _ =>
      let upd (s : Source) : Source :=
        let s1 := set_position (mkVec3 (x p) (y p) (z p)) s in
        match panner s1 with
        | Some _ => set_panner (Some (updateSourcePosition e (position s1))) s1
        | None => s1
        end in
      with_sources (map_update sourceId upd (sources e)) e
  end.

(** [updateListenerPosition(position)]. *)
Definition updateListenerPosition (p : Vec3) (e : Engine) : Engine :=
  let e1 :=
    {| audioContext := audioContext e;
       listener := mkVec3 (x p) (y p) (z p);
       sources := sources e; playing := playing e;
       initialized := initialized e; nextSourceId := nextSourceId e;
       calls := calls e |} in
  let upd (kv : nat * Source) : nat * Source :=
    match panner (snd kv) with
    | Some _ =>
        (fst kv,
         set_panner (Some (updateSourcePosition e1 (position (snd kv))))
           (snd kv))
    | None => kv
    end in
  with_sources (map upd (sources e1)) e1.

(** [updateListenerOrientation(yaw = 0, pitch = 0)]. *)
Definition updateListenerOrientation (yaw pitch : R) (e : Engine) : Engine :=
  match audioContext e with
  | None => e
  | Some ctx =>
      let yawRad := yaw * (PI / 180) in
      let pitchRad := pitch * (PI / 180) in
      let forwardX := sin yawRad * cos pitchRad in
      let forwardY := sin pitchRad in
      let forwardZ := - cos yawRad * cos pitchRad in
      {| audioContext :=
           Some (mkAudioContext (mkVec3 forwardX forwardY forwardZ)
                   (mkVec3 0 1 0) (created ctx));
         listener := listener e; sources := sources e;
         playing := playing e; initialized := initialized e;
         nextSourceId := nextSourceId e; calls := calls e |}
  end.

(** [getDistance(pos1, pos2)]. *)
Definition getDistance (pos1 pos2 : Vec3) : R :=
  let dx := x pos2 - x pos1 in
  let dy := y pos2 - y pos1 in
  let dz := z pos2 - z pos1 in
  sqrt (dx * dx + dy * dy + dz * dz).

(** [getSources()]. *)
Definition getSources (e : Engine) : list Source := map snd (sources e).

(** [getSource(sourceId)]. *)
Definition getSource (sourceId : nat) (e : Engine) : option Source :=
  map_get sourceId (sources e).

(** [toggleSourceLock(sourceId)]: the returned flag and the engine. *)
Definition toggleSourceLock (sourceId : nat) (e : Engine) : bool * Engine :=
  match map_get sourceId (sources e) with
  | None => (false, e)
  | Some source =>
      (negb (locked source),
       with_sources
         (map_update sourceId (fun s => set_locked (negb (locked s)) s)
            (sources e)) e)
  end.

(** [setSourceLocked(sourceId, locked)]. *)
Definition setSourceLocked (sourceId : nat) (b : bool) (e : Engine) : Engine :=
  match map_get sourceId (sources e) with
  | None => e
  | Some _ => with_sources (map_update sourceId (set_locked b) (sources e)) e
  end.

(** *** Sequences of calls *)

(** A call on the engine, or the firing of an [onended] callback. *)
Inductive Op : Type :=
| OpInit (ok : bool)
| OpCreateSource (audioBuffer : AudioBuffer) (nm : string) (pos : option Vec3)
| OpRemoveSource (sourceId : nat)
| OpStartSource (sourceId : nat)
| OpStopSource (sourceId : nat)
| OpOnended (sourceId : nat)
| OpPlayAll
| OpPauseAll
| OpSetSourceVolume (sourceId : nat) (v : R)
| OpSetSourcePosition (sourceId : nat) (p : Vec3)
| OpUpdateListenerPosition (p : Vec3)
| OpUpdateListenerOrientation (yaw pitch : R)
| OpToggleSourceLock (sourceId : nat)
| OpSetSourceLocked (sourceId : nat) (b : bool).

(** One call: the id it returns, if it is a [createSource], and the engine. *)
Definition step (o : Op) (e : Engine) : option nat * Engine :=
  match o with
  | OpInit ok => (None, init ok e)
  | OpCreateSource b nm pos =>
      let r := createSource b nm pos e in (Some (fst r), snd r)
  | OpRemoveSource i => (None, removeSource i e)
  | OpStartSource i => (None, startSource i e)
  | OpStopSource i => (None, stopSource i e)
  | OpOnended i => (None, onended i e)
  | OpPlayAll => (None, playAll e)
  | OpPauseAll => (None, pauseAll e)
  | OpSetSourceVolume i v => (None, setSourceVolume i v e)
  | OpSetSourcePosition i p => (None, setSourcePosition i p e)
  | OpUpdateListenerPosition p => (None, updateListenerPosition p e)
  | OpUpdateListenerOrientation a b => (None, updateListenerOrientation a b e)
  | OpToggleSourceLock i => (None, snd (toggleSourceLock i e))
  | OpSetSourceLocked i b => (None, setSourceLocked i b e)
  end.

(** A sequence of calls: the ids returned by its [createSource] calls, in
    order, and the final engine. *)
Fixpoint run (ops : list Op) (e : Engine) : list nat * Engine :=
  match ops with
  | [] => ([], e)
  | o :: rest =>
      let r := step o e in
      let r' := run rest (snd r) in
      (match fst r with Some i => i :: fst r' | None => fst r' end, snd r')
  end.

(** *** The other methods *)

(** [getDistanceToSource(sourceId)]; [None] stands for [Infinity]. *)
Definition getDistanceToSource (sourceId : nat) (e : Engine) : option R :=
  match map_get sourceId (sources e) with
  | None => None
  | Some source => Some (getDistance (listener e) (position source))
  end.


End SpatialAudioEngine.

(** ** The movement controller (class MovementController) *)

Module MovementController.

Import SpatialAudioEngine.

(** The [mouseLook] object. *)
Record MouseLook : Type := mkMouseLook {
  isLocked : bool;
  sensitivity : R
}.

(** The controller.  [keys] maps a lower-cased key name to its pressed
    state. *)
Record Controller : Type := mkController {
  player : Vec3;
  playerFacing : R;
  playerPitch : R;
  moveSpeed : R;
  fastMoveSpeed : R;
  movementRadius : R;
  keys : list (string * bool);
  gamepadIndex : option nat;
  gamepadButtonPressed : bool;
  mouseLook : MouseLook
}.

(** [constructor(audioEngine)], without the listeners it installs. *)
Definition constructor : Controller :=
  {| player := mkVec3 0 0 0;
     playerFacing := 0;
     playerPitch := 0;
     moveSpeed := 0.5;
     fastMoveSpeed := 1.5;
     movementRadius := 50.0;
     keys := [];
     gamepadIndex := None;
     gamepadButtonPressed := false;
     mouseLook := mkMouseLook false 0.2 |}.

Definition with_player (p : Vec3) (m : Controller) : Controller :=
  {| player := p; playerFacing := playerFacing m;
     playerPitch := playerPitch m; moveSpeed := moveSpeed m;
     fastMoveSpeed := fastMoveSpeed m; movementRadius := movementRadius m;
     keys := keys m; gamepadIndex := gamepadIndex m;
     gamepadButtonPressed := gamepadButtonPressed m;
     mouseLook := mouseLook m |}.

Definition with_orientation (facing pitch : R) (m : Controller) : Controller :=
  {| player := player m; playerFacing := facing;
     playerPitch := pitch; moveSpeed := moveSpeed m;
     fastMoveSpeed := fastMoveSpeed m; movementRadius := movementRadius m;
     keys := keys m; gamepadIndex := gamepadIndex m;
     gamepadButtonPressed := gamepadButtonPressed m;
     mouseLook := mouseLook m |}.

Definition with_keys (k : list (string * bool)) (m : Controller) : Controller :=
  {| player := player m; playerFacing := playerFacing m;
     playerPitch := playerPitch m; moveSpeed := moveSpeed m;
     fastMoveSpeed := fastMoveSpeed m; movementRadius := movementRadius m;
     keys := k; gamepadIndex := gamepadIndex m;
     gamepadButtonPressed := gamepadButtonPressed m;
     mouseLook := mouseLook m |}.

Definition with_gamepadIndex (g : option nat) (m : Controller) : Controller :=
  {| player := player m; playerFacing := playerFacing m;
     playerPitch := playerPitch m; moveSpeed := moveSpeed m;
     fastMoveSpeed := fastMoveSpeed m; movementRadius := movementRadius m;
     keys := keys m; gamepadIndex := g;
     gamepadButtonPressed := gamepadButtonPressed m;
     mouseLook := mouseLook m |}.

Definition with_isLocked (b : bool) (m : Controller) : Controller :=
  {| player := player m; playerFacing := playerFacing m;
     playerPitch := playerPitch m; moveSpeed := moveSpeed m;
     fastMoveSpeed := fastMoveSpeed m; movementRadius := movementRadius m;
     keys := keys m; gamepadIndex := gamepadIndex m;
     gamepadButtonPressed := gamepadButtonPressed m;
     mouseLook := mkMouseLook b (sensitivity (mouseLook m)) |}.

(** The first half of [movePlayer(dx, dy, dz)]: the view-relative delta is
    turned into a world delta and added to the player position. *)
Definition integrate (dx dy dz : R) (m : Controller) : Vec3 :=
  let azimuthRad := playerFacing m * (PI / 180) in
  let worldDx := dz * sin azimuthRad in
  let worldDz := dz * cos azimuthRad in
  let worldDx := worldDx + dx * cos azimuthRad in
  let worldDz := worldDz - dx * sin azimuthRad in
  let worldDy := dy in
  mkVec3 (x (player m) + worldDx) (y (player m) + worldDy)
         (z (player m) + worldDz).

(** The second half: the movement bubble. *)
Definition clampToBubble (radius : R) (p : Vec3) : Vec3 :=
  let distanceFromOrigin := sqrt (x p * x p + y p * y p + z p * z p) in
  if Rlt_dec radius distanceFromOrigin then
    let scale := radius / distanceFromOrigin in
    mkVec3 (x p * scale) (y p * scale) (z p * scale)
  else p.

(** [movePlayer(dx, dy, dz)]. *)
Definition movePlayer (dx dy dz : R) (me : Controller * Engine)
  : Controller * Engine :=
  let m := fst me in
  let p := clampToBubble (movementRadius m) (integrate dx dy dz m) in
  (with_player p m, updateListenerPosition p (snd me)).

(** A [keydown] event: [e.key.toLowerCase()] and [e.shiftKey]. *)
Record KeyEvent : Type := mkKeyEvent {
  key : string;
  shiftKey : bool
}.

Fixpoint keys_set (k : string) (b : bool) (l : list (string * bool))
  : list (string * bool) :=
  match l with
  | [] => [(k, b)]
  | (k', b') :: rest =>
      if String.eqb k k' then (k, b) :: rest else (k', b') :: keys_set k b rest
  end.

(** [handleKeyDown(e)]. *)
Definition handleKeyDown (e : KeyEvent) (me : Controller * Engine)
  : Controller * Engine :=
  let m := with_keys (keys_set (key e) true (keys (fst me))) (fst me) in
  let speed := if shiftKey e then fastMoveSpeed m else moveSpeed m in
  let k := key e in
  if (String.eqb k "w" || String.eqb k "arrowup")%bool then
    movePlayer 0 0 speed (m, snd me)
  else if (String.eqb k "s" || String.eqb k "arrowdown")%bool then
    movePlayer 0 0 (- speed) (m, snd me)
  else if (String.eqb k "a" || String.eqb k "arrowleft")%bool then
    movePlayer (- speed) 0 0 (m, snd me)
  else if (String.eqb k "d" || String.eqb k "arrowright")%bool then
    movePlayer speed 0 0 (m, snd me)
  else if String.eqb k "q" then movePlayer 0 speed 0 (m, snd me)
  else if String.eqb k "e" then movePlayer 0 (- speed) 0 (m, snd me)
  else (m, snd me).

(** [handleKeyUp(e)]. *)
Definition handleKeyUp (e : KeyEvent) (m : Controller) : Controller :=
  with_keys (keys_set (key e) false (keys m)) m.

(** [handlePointerLockChange()]; [onCanvas] tells whether
    [document.pointerLockElement] is the canvas. *)
Definition handlePointerLockChange (onCanvas : bool) (m : Controller)
  : Controller :=
  with_isLocked onCanvas m.

(** [handleMouseMove(e)] with [e.movementX] and [e.movementY]. *)
Definition handleMouseMove (movementX movementY : R)
    (me : Controller * Engine) : Controller * Engine :=
  let m := fst me in
  if negb (isLocked (mouseLook m)) then me
  else
    let deltaX := movementX in
    let deltaY := movementY in
    let facing := playerFacing m + deltaX * sensitivity (mouseLook m) in
    let facing := if Rlt_dec facing 0 then facing + 360 else facing in
    let facing := if Rle_dec 360 facing then facing - 360 else facing in
    let pitch := playerPitch m - deltaY * sensitivity (mouseLook m) in
    let pitch := Math_max (-90) (Math_min 90 pitch) in
    (with_orientation facing pitch m,
     updateListenerOrientation facing pitch (snd me)).

(** A sample of a gamepad: its axes, and the [pressed] flag of each of its
    buttons. *)
Record Gamepad : Type := mkGamepad {
  axes : list R;
  buttons : list bool
}.

(** [Math.abs(a) > deadzone ? a : 0]. *)
Definition deadzoned (deadzone a : R) : R :=
  if Rlt_dec deadzone (Rabs a) then a else 0.

(** Truthiness of a number. *)
Definition truthy (a : R) : bool :=
  if Req_dec_T a 0 then false else true.

(** [updateGamepad()]; [pads] is [navigator.getGamepads()], with [None] for
    an empty slot.  A missing axis reads as [0]: it fails the deadzone test
    and so contributes [0]. *)
Definition updateGamepad (pads : list (option Gamepad))
    (me : Controller * Engine) : Controller * Engine :=
  match gamepadIndex (fst me) with
  | None => me
  | Some idx =>
      match nth idx pads None with
      | None => me
      | Some gamepad =>
          let deadzone := 0.15 in
          let lx := deadzoned deadzone (nth 0 (axes gamepad) 0) in
          let ly := deadzoned deadzone (nth 1 (axes gamepad) 0) in
          let me1 :=
            if (truthy lx || truthy ly)%bool then
              let strafe := lx * 0.2 in
              let forward := - ly * 0.2 in
              movePlayer strafe 0 forward me
            else me in
          let rx := deadzoned deadzone (nth 2 (axes gamepad) 0) in
          let ry := deadzoned deadzone (nth 3 (axes gamepad) 0) in
          let me2 :=
            if (truthy rx || truthy ry)%bool then
              let facing := playerFacing (fst me1) + rx * 3.0 in
              let pitch := playerPitch (fst me1) - ry * 3.0 in
              let pitch := Math_max (-89) (Math_min 89 pitch) in
              (with_orientation facing pitch (fst me1),
               updateListenerOrientation facing pitch (snd me1))
            else me1 in
          if Nat.ltb 5 (List.length (buttons gamepad)) then
            let me3 :=
              if nth 5 (buttons gamepad) false
              then movePlayer 0 0.02 0 me2 else me2 in
            if nth 4 (buttons gamepad) false
            then movePlayer 0 (-0.02) 0 me3 else me3
          else me2
      end
  end.

(** [resetPosition()]. *)
Definition resetPosition (me : Controller * Engine) : Controller * Engine :=
  let m := with_orientation 0 0 (with_player (mkVec3 0 0 0) (fst me)) in
  (m,
   updateListenerOrientation (playerFacing m) (playerPitch m)
     (updateListenerPosition (player m) (snd me))).

(** [getPosition()], [getFacing()], [getPitch()]. *)
Definition getPosition (m : Controller) : Vec3 :=
  mkVec3 (x (player m)) (y (player m)) (z (player m)).
Definition getFacing (m : Controller) : R := playerFacing m.
Definition getPitch (m : Controller) : R := playerPitch m.

(** An input event reaching the controller. *)
Inductive Input : Type :=
| KeyDown (e : KeyEvent)
| KeyUp (e : KeyEvent)
| PointerLockChange (onCanvas : bool)
| MouseMove (movementX movementY : R)
| GamepadConnected (index : nat)
| GamepadDisconnected
| GamepadFrame (pads : list (option Gamepad))
| ResetPosition.

Definition handle (i : Input) (me : Controller * Engine)
  : Controller * Engine :=
  match i with
  | KeyDown e => handleKeyDown e me
  | KeyUp e => (handleKeyUp e (fst me), snd me)
  | PointerLockChange b => (handlePointerLockChange b (fst me), snd me)
  | MouseMove a b => handleMouseMove a b me
  | GamepadConnected i => (with_gamepadIndex (Some i) (fst me), snd me)
  | GamepadDisconnected => (with_gamepadIndex None (fst me), snd me)
  | GamepadFrame pads => updateGamepad pads me
  | ResetPosition => resetPosition me
  end.

(** A sequence of input events, oldest first. *)
Definition handle_all (l : list Input) (me : Controller * Engine)
  : Controller * Engine :=
  fold_left (fun acc i => handle i acc) l me.


End MovementController.

(** ** The visualization (class Visualization) *)

Module Visualization.

Import SpatialAudioEngine.

(** What the visualization uses of its canvas element: the origin of its
    bounding rectangle, its client size and [style.cursor]. *)
Record Canvas : Type := mkCanvas {
  rectLeft : R;
  rectTop : R;
  clientWidth : R;
  clientHeight : R;
  cursor : string
}.

(** The visualization.  [sources] and [draggedSource] hold references to
    source objects.  [positionsLocked] is read by [drawSource] and assigned
    nowhere: it is [None] ([undefined]) unless some outside code sets it. *)
Record Vis : Type := mkVis {
  canvas : Canvas;
  width : R;
  height : R;
  centerX : R;
  centerY : R;
  scale : R;
  viewMode : string;
  compositionMode : bool;
  positionsLocked : option bool;
  isDragging : bool;
  draggedSource : option nat;
  dragOffset : Vec2;
  playerPos : Vec3;
  sources : list nat
}.

(** [resize()]. *)
Definition resize (v : Vis) : Vis :=
  let w := clientWidth (canvas v) in
  let h := clientHeight (canvas v) in
  {| canvas := canvas v; width := w; height := h;
     centerX := w / 2; centerY := h / 2; scale := scale v;
     viewMode := viewMode v; compositionMode := compositionMode v;
     positionsLocked := positionsLocked v;
     isDragging := isDragging v; draggedSource := draggedSource v;
     dragOffset := dragOffset v; playerPos := playerPos v;
     sources := sources v |}.

(** [constructor(canvas, audioEngine)], without the listeners it installs. *)
Definition constructor (c : Canvas) : Vis :=
  resize
    {| canvas := c; width := 0; height := 0; centerX := 0; centerY := 0;
       scale := 20;
       viewMode := "topdown"%string;
       compositionMode := true;
       positionsLocked := None;
       isDragging := false; draggedSource := None;
       dragOffset := mkVec2 0 0;
       playerPos := mkVec3 0 0 0;
       sources := [] |}.

Definition with_cursor (c : string) (v : Vis) : Vis :=
  {| canvas :=
       mkCanvas (rectLeft (canvas v)) (rectTop (canvas v))
         (clientWidth (canvas v)) (clientHeight (canvas v)) c;
     width := width v; height := height v;
     centerX := centerX v; centerY := centerY v; scale := scale v;
     viewMode := viewMode v; compositionMode := compositionMode v;
     positionsLocked := positionsLocked v;
     isDragging := isDragging v; draggedSource := draggedSource v;
     dragOffset := dragOffset v; playerPos := playerPos v;
     sources := sources v |}.

Definition with_drag (dragging : bool) (src : option nat) (off : Vec2)
    (v : Vis) : Vis :=
  {| canvas := canvas v; width := width v; height := height v;
     centerX := centerX v; centerY := centerY v; scale := scale v;
     viewMode := viewMode v; compositionMode := compositionMode v;
     positionsLocked := positionsLocked v;
     isDragging := dragging; draggedSource := src;
     dragOffset := off; playerPos := playerPos v;
     sources := sources v |}.

Definition with_viewMode (m : string) (v : Vis) : Vis :=
  {| canvas := canvas v; width := width v; height := height v;
     centerX := centerX v; centerY := centerY v; scale := scale v;
     viewMode := m; compositionMode := compositionMode v;
     positionsLocked := positionsLocked v;
     isDragging := isDragging v; draggedSource := draggedSource v;
     dragOffset := dragOffset v; playerPos := playerPos v;
     sources := sources v |}.

Definition with_compositionMode (b : bool) (v : Vis) : Vis :=
  {| canvas := canvas v; width := width v; height := height v;
     centerX := centerX v; centerY := centerY v; scale := scale v;
     viewMode := viewMode v; compositionMode := b;
     positionsLocked := positionsLocked v;
     isDragging := isDragging v; draggedSource := draggedSource v;
     dragOffset := dragOffset v; playerPos := playerPos v;
     sources := sources v |}.

Definition with_render_state (p : Vec3) (l : list nat) (v : Vis) : Vis :=
  {| canvas := canvas v; width := width v; height := height v;
     centerX := centerX v; centerY := centerY v; scale := scale v;
     viewMode := viewMode v; compositionMode := compositionMode v;
     positionsLocked := positionsLocked v;
     isDragging := isDragging v; draggedSource := draggedSource v;
     dragOffset := dragOffset v; playerPos := p;
     sources := l |}.

(** A mouse event on the canvas. *)
Record MouseEvent : Type := mkMouseEvent {
  clientX : R;
  clientY : R
}.

(** The screen position of a source at [pos] "based on current mode", as
    [onMouseDown] and the hover branch of [onMouseMove] compute it. *)
Definition screenPosition (v : Vis) (pos : Vec3) : Vec2 :=
  if compositionMode v then
    mkVec2 (centerX v + x pos * scale v) (centerY v - z pos * scale v)
  else
    mkVec2 (centerX v + (x pos - x (playerPos v)) * scale v)
           (centerY v - (z pos - z (playerPos v)) * scale v).

Section Handlers.

(** The current state of the source object behind a reference. *)
Variable deref : nat -> option Source.

(** The loop of [onMouseDown] over [this.sources]: the first source that is
    not locked and lies within 30 pixels of the mouse, with the offset of
    the mouse from it. *)
Fixpoint pick (v : Vis) (mouseX mouseY : R) (l : list nat)
  : option (nat * Vec2) :=
  match l with
  | [] => None
  | r :: rest =>
      match deref r with
      | None => pick v mouseX mouseY rest
      | Some source =>
          if locked source then pick v mouseX mouseY rest
          else
            let s := screenPosition v (position source) in
            let dx := mouseX - x2 s in
            let dy := mouseY - y2 s in
            let distance := sqrt (dx * dx + dy * dy) in
            if Rlt_dec distance 30 then Some (r, mkVec2 dx dy)
            else pick v mouseX mouseY rest
      end
  end.

(** [onMouseDown(e)]; [pointerLocked] tells whether
    [document.pointerLockElement] is the canvas. *)
Definition onMouseDown (pointerLocked : bool) (e : MouseEvent) (v : Vis)
  : Vis :=
  if pointerLocked then v
  else
    let mouseX := clientX e - rectLeft (canvas v) in
    let mouseY := clientY e - rectTop (canvas v) in
    match pick v mouseX mouseY (sources v) with
    | Some (r, off) =>
        with_cursor "grabbing"%string (with_drag true (Some r) off v)
    | None => v
    end.

(** The world position a drag to [(mouseX, mouseY)] asks for: [worldX] and
    [worldZ] of [onMouseMove], around the height [h]. *)
Definition dragTarget (v : Vis) (mouseX mouseY h : R) : Vec3 :=
  if compositionMode v then
    mkVec3 (((mouseX - x2 (dragOffset v)) - centerX v) / scale v)
           h
           (- ((mouseY - y2 (dragOffset v)) - centerY v) / scale v)
  else
    mkVec3 (((mouseX - x2 (dragOffset v)) - centerX v) / scale v
            + x (playerPos v))
           h
           (- ((mouseY - y2 (dragOffset v)) - centerY v) / scale v
            + z (playerPos v)).

(** [onMouseMove(e)]. *)
Definition onMouseMove (pointerLocked : bool) (e : MouseEvent)
    (ve : Vis * Engine) : Vis * Engine :=
  let v := fst ve in
  if pointerLocked then ve
  else
    let mouseX := clientX e - rectLeft (canvas v) in
    let mouseY := clientY e - rectTop (canvas v) in
    match isDragging v, draggedSource v with
    | true, Some r =>
        match deref r with
        | Some dragged =>
            (v,
             setSourcePosition (id dragged)
               (dragTarget v mouseX mouseY (y (position dragged))) (snd ve))
        | None => ve
        end
    | _, _ =>
        let hovering :=
          match pick v mouseX mouseY (sources v) with
          | Some _ => true
          | None => false
          end in
        (with_cursor (if hovering then "grab" else "default")%string v, snd ve)
    end.

End Handlers.

(** [onMouseUp(e)]. *)
Definition onMouseUp (v : Vis) : Vis :=
  with_cursor "default"%string (with_drag false None (dragOffset v) v).

(** [toggleViewMode()]: the new mode and the visualization. *)
Definition toggleViewMode (v : Vis) : string * Vis :=
  let m := (if String.eqb (viewMode v) "topdown"
            then "firstperson" else "topdown")%string in
  (m, with_viewMode m v).

(** [setViewMode(mode)]. *)
Definition setViewMode (mode : string) (v : Vis) : Vis := with_viewMode mode v.

(** [toggleCompositionMode()]: the new flag and the visualization. *)
Definition toggleCompositionMode (v : Vis) : bool * Vis :=
  (negb (compositionMode v), with_compositionMode (negb (compositionMode v)) v).

(** [isCompositionMode()]. *)
Definition isCompositionMode (v : Vis) : bool := compositionMode v.

(** *** Drawing a source *)

(** Number of full turns in [a] degrees, rounded up: the variant of the two
    normalization loops. *)
Definition turns (a : R) : nat := Z.to_nat (up (a / 360)).

(** One more turn taken off a positive angle lowers the variant. *)
Ltac turns_decrease over :=
  unfold turns;
  let Hup1 := fresh "Hup1" in
  let Hup2 := fresh "Hup2" in
  let E := fresh "E" in
  destruct (archimed (over / 360)) as [Hup1 Hup2];
  assert (E : up ((over - 360) / 360) = (up (over / 360) - 1)%Z)
    by (symmetry; apply tech_up; rewrite minus_IZR; lra);
  rewrite E;
  assert (0 < up (over / 360))%Z by (apply lt_IZR; lra);
  lia.

(** [while (azimuth > 180) azimuth -= 360;] *)
Equations? while_above (a : R) : R by wf (turns (a - 180)) lt :=
  while_above a with Rlt_dec 180 a := {
    | left _ => while_above (a - 360)
    | right _ => a }.
Proof.
  replace (a - 360 - 180) with (a - 180 - 360) by lra.
  turns_decrease (a - 180).
Qed.

(** [while (azimuth < -180) azimuth += 360;] *)
Equations? while_below (a : R) : R by wf (turns (- a - 180)) lt :=
  while_below a with Rlt_dec a (-180) := {
    | left _ => while_below (a + 360)
    | right _ => a }.
Proof.
  replace (- (a + 360) - 180) with (- a - 180 - 360) by lra.
  turns_decrease (- a - 180).
Qed.

(** The view-relative azimuth of [drawSource], in degrees. *)
Definition viewAzimuth (relativeX relativeZ playerFacing : R) : R :=
  let azimuth := Math_atan2 relativeX relativeZ * (180 / PI) in
  let azimuth := azimuth - playerFacing in
  let azimuth := while_above azimuth in
  while_below azimuth.

(** Truthiness of a field that is [undefined] or a boolean. *)
Definition truthy (b : option bool) : bool :=
  match b with Some true => true | _ => false end.

(** The guard of the culling block:
    [this.viewMode === 'firstperson' && !this.positionsLocked]. *)
Definition fovCulling (v : Vis) : bool :=
  (String.eqb (viewMode v) "firstperson" && negb (truthy (positionsLocked v)))%bool.

(** What [drawSource] does with a source: one of its three early returns, or
    the circle it draws (centre, radius before pulsing, distance label and
    drag highlight; colours and the pulse depend on the clock and are left
    out). *)
Inductive Drawing : Type :=
| AtListener
| BehindViewer
| OffScreen
| Drawn (screenX screenY radius distance : R) (isBeingDragged : bool).

(** [drawSource(source, playerPos, playerFacing)]. *)
Definition drawSource (v : Vis) (source : Source) (playerPos : Vec3)
    (playerFacing : R) : Drawing :=
  let '(screenX, screenY, relativeX, relativeZ) :=
    if compositionMode v then
      (centerX v + x (position source) * scale v,
       centerY v - z (position source) * scale v,
       x (position source) - x playerPos,
       z (position source) - z playerPos)
    else
      let relativeX := x (position source) - x playerPos in
      let relativeZ := z (position source) - z playerPos in
      (centerX v + relativeX * scale v,
       centerY v - relativeZ * scale v,
       relativeX, relativeZ) in
  let distance := sqrt (relativeX * relativeX + relativeZ * relativeZ) in
  if Rlt_dec distance 0.001 then AtListener
  else if (fovCulling v
           && (if Rlt_dec 90 (Rabs (viewAzimuth relativeX relativeZ playerFacing))
               then true else false))%bool
  then BehindViewer
  else if (if Rlt_dec screenX (-50) then true else false)
          || (if Rlt_dec (width v + 50) screenX then true else false)
          || (if Rlt_dec screenY (-50) then true else false)
          || (if Rlt_dec (height v + 50) screenY then true else false)
  then OffScreen
  else
    let baseRadius := 25 in
    let minRadius := 8 in
    let maxDistance := 20 in
    let distanceFactor := Math_max 0 (1 - distance / maxDistance) in
    let radius := minRadius + (baseRadius - minRadius) * distanceFactor in
    let isBeingDragged :=
      (isDragging v
       && match draggedSource v with
          | Some r => Nat.eqb r (id source)
          | None => false
          end)%bool in
    Drawn screenX screenY radius distance isBeingDragged.

(** [drawPlayer(playerPos, facing)]: where the listener marker is drawn. *)
Definition drawPlayer (v : Vis) (playerPos : Vec3) : Vec2 :=
  if compositionMode v then
    mkVec2 (centerX v + x playerPos * scale v)
           (centerY v - z playerPos * scale v)
  else mkVec2 (centerX v) (centerY v).

(** What one call of [render] draws: every source in order, and the
    listener marker. *)
Record Frame : Type := mkFrame {
  drawings : list Drawing;
  marker : Vec2
}.

(** [render(player, sources, playerFacing)]. *)
Definition render (player : Vec3) (srcs : list Source) (playerFacing : R)
    (v : Vis) : Vis * Frame :=
  let v1 := with_render_state player (map id srcs) v in
  (v1,
   {| drawings := map (fun s => drawSource v1 s player playerFacing) srcs;
      marker := drawPlayer v1 player |}).

(** [drawAngleLines(sources, player)]: the two ends of each dashed line. *)
Definition drawAngleLines (v : Vis) (srcs : list Source) (player : Vec3)
  : list (Vec2 * Vec2) :=
  map (fun source =>
         let screenX := centerX v + (x (position source) - x player) * scale v in
         let screenY := centerY v - (z (position source) - z player) * scale v in
         (mkVec2 (centerX v) (centerY v), mkVec2 screenX screenY))
      srcs.

(** Whether a text is one or more characters, none of them a slash or a
    dot: what [[^/.]+$] matches. *)
Fixpoint isExtension (t : string) : bool :=
  match t with
  | EmptyString => false
  | String ch EmptyString =>
      negb (Ascii.eqb ch "/"%char || Ascii.eqb ch "."%char)
  | String ch rest =>
      (negb (Ascii.eqb ch "/"%char || Ascii.eqb ch "."%char)
       && isExtension rest)%bool
  end.

(** [name.replace(/\.[^/.]+$/, '')]: the text without its extension. *)
Fixpoint removeExtension (t : string) : string :=
  match t with
  | EmptyString => EmptyString
  | String ch rest =>
      if (Ascii.eqb ch "."%char && isExtension rest)%bool then EmptyString
      else String ch (removeExtension rest)
  end.

(** [truncateName(name, maxLength = 20)], on texts whose characters are one
    code unit each; a call without the second argument passes [20].  The
    test [nameWithoutExt.length <= maxLength - 3] is written with the 3 on
    the other side, as [maxLength - 3] may be negative; [substring] takes a
    negative end for 0, as the subtraction of natural numbers does. *)
Definition truncateName (nm : string) (maxLength : nat) : string :=
  if Nat.leb (String.length nm) maxLength then nm
  else
    let nameWithoutExt := removeExtension nm in
    if Nat.leb (String.length nameWithoutExt + 3) maxLength
    then nameWithoutExt
    else (substring 0 (maxLength - 3) nameWithoutExt ++ "...")%string.

End Visualization.

(** ** The source panel (class SourceManager) *)

Module SourceManager.

Import SpatialAudioEngine.

(** A coordinate field of the panel: its [data-source-id] and [data-axis]
    attributes and its current text. *)
Record CoordInput : Type := mkCoordInput {
  dataSourceId : nat;
  axis : string;
  value : string;
  disabled : bool
}.

(** The panel: the coordinate fields inside [sourceListEl], in document
    order, and the messages shown with [alert], oldest first. *)
Record Panel : Type := mkPanel {
  sourceListEl : list CoordInput;
  alerts : list string
}.

(** [constructor(audioEngine)]. *)
Definition constructor : Panel := {| sourceListEl := []; alerts := [] |}.

(** The object literal [newPosition]: its properties, in insertion order. *)
Definition Obj : Type := list (string * R).

(** Property lookup [o[k]]. *)
Fixpoint obj_get (k : string) (o : Obj) : option R :=
  match o with
  | [] => None
  | (k', a) :: rest => if String.eqb k k' then Some a else obj_get k rest
  end.

(** Property assignment [o[k] = a]. *)
Fixpoint obj_set (k : string) (a : R) (o : Obj) : Obj :=
  match o with
  | [] => [(k, a)]
  | (k', a') :: rest =>
      if String.eqb k k' then (k, a) :: rest else (k', a') :: obj_set k a rest
  end.

(** The position object an [Obj] denotes, when it has the three
    coordinates. *)
Definition toVec3 (o : Obj) : option Vec3 :=
  match obj_get "x" o, obj_get "y" o, obj_get "z" o with
  | Some a, Some b, Some c => Some (mkVec3 a b c)
  | _, _, _ => None
  end.

Section Host.

(** [parseFloat]: [None] stands for [NaN]. *)
Variable parseFloat : string -> option R.

(** [Number.prototype.toFixed(1)]. *)
Variable toFixed1 : R -> string.

(** The three coordinate fields in the markup of [renderSource(source)]. *)
Definition renderSource (source : Source) : list CoordInput :=
  [ mkCoordInput (id source) "x" (toFixed1 (x (position source)))
      (locked source);
    mkCoordInput (id source) "y" (toFixed1 (y (position source)))
      (locked source);
    mkCoordInput (id source) "z" (toFixed1 (z (position source)))
      (locked source) ].

(** [updateSourceList()]. *)
Definition updateSourceList (e : Engine) (p : Panel) : Panel :=
  {| sourceListEl := flat_map renderSource (getSources e);
     alerts := alerts p |}.

(** The user types [text] into the field of [sourceId] for axis [ax]. *)
Definition typeInto (sourceId : nat) (ax text : string) (p : Panel) : Panel :=
  {| sourceListEl :=
       map (fun i =>
              if (Nat.eqb (dataSourceId i) sourceId
                  && String.eqb (axis i) ax)%bool
              then mkCoordInput (dataSourceId i) (axis i) text (disabled i)
              else i)
           (sourceListEl p);
     alerts := alerts p |}.

(** [querySelectorAll('.coord-input[data-source-id="sourceId"]')]. *)
Definition coordInputs (sourceId : nat) (p : Panel) : list CoordInput :=
  filter (fun i => Nat.eqb (dataSourceId i) sourceId) (sourceListEl p).

(** The callback of [inputs.forEach] in [updateSourcePosition], on the pair
    of [newPosition] and [hasInvalidInput]. *)
Definition readInput (acc : Obj * bool) (input : CoordInput) : Obj * bool :=
  match parseFloat (value input) with
  | None => (fst acc, true)
  | Some a => (obj_set (axis input) a (fst acc), snd acc)
  end.

Definition alert (msg : string) (p : Panel) : Panel :=
  {| sourceListEl := sourceListEl p; alerts := alerts p ++ [msg] |}.

(** [updateSourcePosition(sourceId)].  The result is [None] when the object
    handed to [setSourcePosition] lacks a coordinate: the engine would then
    store an [undefined] coordinate, which [Vec3] has no value for. *)
Definition updateSourcePosition (sourceId : nat) (pe : Panel * Engine)
  : option (Panel * Engine) :=
  match getSource sourceId (snd pe) with
  | None => Some pe
  | Some _ =>
      let inputs := coordInputs sourceId (fst pe) in
      let '(newPosition, hasInvalidInput) :=
        fold_left readInput inputs ([], false) in
      if hasInvalidInput then
        Some (alert "Please enter valid numbers for all coordinates" (fst pe),
              snd pe)
      else
        match toVec3 newPosition with
        | Some p => Some (fst pe, setSourcePosition sourceId p (snd pe))
        | None => None
        end
  end.

(** [removeSource(sourceId)]. *)
Definition removeSource (sourceId : nat) (pe : Panel * Engine)
  : Panel * Engine :=
  let e := SpatialAudioEngine.removeSource sourceId (snd pe) in
  (updateSourceList e (fst pe), e).

(** The click handler of a lock button. *)
Definition lockClick (sourceId : nat) (pe : Panel * Engine)
  : Panel * Engine :=
  let e := snd (toggleSourceLock sourceId (snd pe)) in
  (updateSourceList e (fst pe), e).

End Host.

End SourceManager.

(** ** The file loader (class FileLoader) *)

Module FileLoader.

(** [getDefaultPosition(index)]. *)
Definition getDefaultPosition (index : nat) : Vec3 :=
  let radius := 10 in
  let angle := (INR index / 8) * 2 * PI in
  mkVec3 (cos angle * radius) 0 (sin angle * radius).







End FileLoader.

(** ** The application (class SHACSimulator) *)

Module App.

Import SpatialAudioEngine.

(** The components once [startApp] has run.  [detached] holds the source
    objects that were removed from the engine: the visualization may still
    refer to them until its next [render]. *)
Record App : Type := mkApp {
  audioEngine : Engine;
  movement : MovementController.Controller;
  visualization : Visualization.Vis;
  detached : list Source
}.

(** [init()] followed by [startApp()]. *)
Definition start (ok : bool) (c : Visualization.Canvas) : App :=
  {| audioEngine := init ok constructor;
     movement := MovementController.constructor;
     visualization := Visualization.constructor c;
     detached := [] |}.

(** The source object behind a reference held by the visualization. *)
Definition deref (a : App) (r : nat) : option Source :=
  match getSource r (audioEngine a) with
  | Some s => Some s
  | None => find (fun s => Nat.eqb (id s) r) (detached a)
  end.

(** What can happen to the running application.  [Loaded] is one file going
    through [FileLoader.handleFiles]; [Remove], [LockClick] and [Entered] are
    the three buttons of a panel entry, [Entered] being a coordinate entry
    that was accepted. *)
Inductive Event : Type :=
| Input (i : MovementController.Input)
| Loaded (audioBuffer : AudioBuffer) (nm : string) (index : nat)
| PlayAll
| PauseAll
| Ended (sourceId : nat)
| Remove (sourceId : nat)
| LockClick (sourceId : nat)
| Entered (sourceId : nat) (p : Vec3)
| ViewToggle
| ModeToggle
| MouseDown (pointerLocked : bool) (e : Visualization.MouseEvent)
| MouseMove (pointerLocked : bool) (e : Visualization.MouseEvent)
| MouseUp
| Resize (clientWidth clientHeight : R)
| RenderFrame.

Definition with_engine (e : Engine) (a : App) : App :=
  {| audioEngine := e; movement := movement a;
     visualization := visualization a; detached := detached a |}.

Definition with_visualization (v : Visualization.Vis) (a : App) : App :=
  {| audioEngine := audioEngine a; movement := movement a;
     visualization := v; detached := detached a |}.

(** The handler of each event. *)
Definition handle (ev : Event) (a : App) : App :=
  match ev with
  | Input i =>
      let me := MovementController.handle i (movement a, audioEngine a) in
      {| audioEngine := snd me; movement := fst me;
         visualization := visualization a; detached := detached a |}
  | Loaded b nm index =>
      with_engine
        (snd (createSource b nm (Some (FileLoader.getDefaultPosition index))
                (audioEngine a))) a
  | PlayAll => with_engine (playAll (audioEngine a)) a
  | PauseAll => with_engine (pauseAll (audioEngine a)) a
  | Ended i => with_engine (onended i (audioEngine a)) a
  | Remove i =>
      let e1 := stopSource i (audioEngine a) in
      {| audioEngine := removeSource i (audioEngine a);
         movement := movement a; visualization := visualization a;
         detached :=
           match getSource i e1 with
           | Some s => s :: detached a
           | None => detached a
           end |}
  | LockClick i => with_engine (snd (toggleSourceLock i (audioEngine a))) a
  | Entered i p => with_engine (setSourcePosition i p (audioEngine a)) a
  | ViewToggle =>
      with_visualization
        (snd (Visualization.toggleViewMode (visualization a))) a
  | ModeToggle =>
      with_visualization
        (snd (Visualization.toggleCompositionMode (visualization a))) a
  | MouseDown locked e =>
      with_visualization
        (Visualization.onMouseDown (deref a) locked e (visualization a)) a
  | MouseMove locked e =>
      let ve :=
        Visualization.onMouseMove (deref a) locked e
          (visualization a, audioEngine a) in
      {| audioEngine := snd ve; movement := movement a;
         visualization := fst ve; detached := detached a |}
  | MouseUp =>
      with_visualization (Visualization.onMouseUp (visualization a)) a
  | Resize w h =>
      let v := visualization a in
      let c := Visualization.canvas v in
      with_visualization
        (Visualization.resize
           {| Visualization.canvas :=
                Visualization.mkCanvas (Visualization.rectLeft c)
                  (Visualization.rectTop c) w h (Visualization.cursor c);
              Visualization.width := Visualization.width v;
              Visualization.height := Visualization.height v;
              Visualization.centerX := Visualization.centerX v;
              Visualization.centerY := Visualization.centerY v;
              Visualization.scale := Visualization.scale v;
              Visualization.viewMode := Visualization.viewMode v;
              Visualization.compositionMode :=
                Visualization.compositionMode v;
              Visualization.positionsLocked :=
                Visualization.positionsLocked v;
              Visualization.isDragging := Visualization.isDragging v;
              Visualization.draggedSource := Visualization.draggedSource v;
              Visualization.dragOffset := Visualization.dragOffset v;
              Visualization.playerPos := Visualization.playerPos v;
              Visualization.sources := Visualization.sources v |}) a
  | RenderFrame =>
      let playerPos := MovementController.getPosition (movement a) in
      let playerFacing := MovementController.getFacing (movement a) in
      let srcs := getSources (audioEngine a) in
      {| audioEngine := audioEngine a; movement := movement a;
         visualization :=
           fst (Visualization.render playerPos srcs playerFacing
                  (visualization a));
         detached := detached a |}
  end.

(** A sequence of events, oldest first. *)
Definition handle_all (l : list Event) (a : App) : App :=
  fold_left (fun acc ev => handle ev acc) l a.

(** The position held by the panner of source [sourceId], if the source has
    an active playback route: the relative offset the spatializer works
    from. *)
Definition spatializerOffset (a : App) (sourceId : nat) : option Vec3 :=
  match getSource sourceId (audioEngine a) with
  | Some s => panner s
  | None => None
  end.

End App.

(** * Predicates and scenes used in the statements *)

Section Scenes.

Import SpatialAudioEngine.

(** ** Predicates *)

(** The keys of the Map are distinct, each source is stored under its own
    id, and every id in use is below [nextSourceId]. *)
Definition entry_ok (next : nat) (kv : nat * Source) : Prop :=
  id (snd kv) = fst kv /\ (fst kv < next)%nat.

Definition wf (e : Engine) : Prop :=
  NoDup (map fst (sources e)) /\ Forall (entry_ok (nextSourceId e)) (sources e).

(** Distance of a position from the world origin. *)
Definition magnitude (p : Vec3) : R :=
  sqrt (x p * x p + y p * y p + z p * z p).


(** The source position relative to the listener at [l]. *)
Definition relativeTo (l : Vec3) (p : Vec3) : Vec3 :=
  mkVec3 (x p - x l) (y p - y l) (z p - z l).

(** The panner of a source, when it has one, holds the position of the
    source relative to [l]. *)
Definition panner_ok (l : Vec3) (kv : nat * Source) : Prop :=
  forall offset, panner (snd kv) = Some offset ->
                 offset = relativeTo l (position (snd kv)).

Definition panners_ok (e : Engine) : Prop :=
  Forall (panner_ok (listener e)) (sources e).

(** The engine listens from where the player is, and every panner holds
    its source's position relative to that point. *)
Definition in_tune (me : MovementController.Controller * Engine) : Prop :=
  listener (snd me) = MovementController.player (fst me)
  /\ panners_ok (snd me).

(** The same, of the running application. *)
Definition app_in_tune (a : App.App) : Prop :=
  in_tune (App.movement a, App.audioEngine a).

(** The message of the rejection. *)
Definition invalidMessage : string :=
  "Please enter valid numbers for all coordinates".

(** A source has a whole playback route (node, gain node, panner, playing
    flag) or none of it. *)
Definition route_ok (s : Source) : Prop :=
  (node s = None /\ panner s = None /\ gainNode s = None
   /\ isPlaying s = false)
  \/ (node s <> None /\ panner s <> None /\ gainNode s <> None
      /\ isPlaying s = true).

(** The volume is within [0, 1] and the gain node, when there is one, holds
    it. *)
Definition volume_ok (s : Source) : Prop :=
  0 <= volume s <= 1 /\ forall g, gainNode s = Some g -> g = volume s.

(** Both, of every source of the engine. *)
Definition entries_ok (e : Engine) : Prop :=
  Forall (fun kv => route_ok (snd kv) /\ volume_ok (snd kv)) (sources e).

(** The handles of the nodes started, and of the nodes stopped, by a trace
    of node calls, in call order. *)
Fixpoint started (c : list NodeCall) : list nat :=
  match c with
  | [] => []
  | NodeStart n :: rest => n :: started rest
  | NodeStop _ :: rest => started rest
  end.

Fixpoint stopped (c : list NodeCall) : list nat :=
  match c with
  | [] => []
  | NodeStart _ :: rest => stopped rest
  | NodeStop n :: rest => n :: stopped rest
  end.

(** Every [stop] in the trace comes after the [start] of the same node. *)
Definition stops_follow_starts (c : list NodeCall) : Prop :=
  forall before n after,
    c = before ++ NodeStop n :: after -> In (NodeStart n) before.

(** The nodes held by the sources of a Map, in Map order. *)
Definition live_of (m : list (nat * Source)) : list nat :=
  flat_map (fun kv => match node (snd kv) with Some n => [n] | None => [] end)
    m.

(** The number of buffer-source nodes created so far. *)
Definition created_so_far (e : Engine) : nat :=
  match audioContext e with
  | Some ctx => created ctx
  | None => 0%nat
  end.

(** The discipline of node calls, for [cr] nodes created, the trace [c] and
    the Map [m]: the nodes were started once each, in the order of their
    handles; no node was stopped twice, or before it was started; the nodes
    held by the sources are distinct, started, and not stopped. *)
Definition trace_parts (cr : nat) (c : list NodeCall)
    (m : list (nat * Source)) : Prop :=
  started c = seq 0 cr
  /\ NoDup (stopped c)
  /\ Forall (fun n => (n < cr)%nat) (stopped c)
  /\ stops_follow_starts c
  /\ NoDup (live_of m)
  /\ Forall (fun n => (n < cr)%nat /\ ~ In n (stopped c)) (live_of m).

(** The same of an engine, which has no audio context before [init]
    succeeds. *)
Definition trace_inv (e : Engine) : Prop :=
  (initialized e = false -> audioContext e = None)
  /\ trace_parts (created_so_far e) (calls e) (sources e).

(** What [stopSource] does to one source, and what [startSource] does to it
    when it gets node [n] while the listener is at [l]. *)
Definition stop_entry (s : Source) : Source :=
  match node s with
  | Some _ => clear_route s
  | None => s
  end.

Definition start_entry (l : Vec3) (n : nat) (s : Source) : Source :=
  {| id := id s; name := name s; buffer := buffer s;
     position := position s; volume := volume s; locked := locked s;
     node := Some n;
     panner := Some (relativeTo l (position s));
     gainNode := Some (volume s);
     isPlaying := true |}.

(** What [playAll] does to the Map when the next node handle is [n] and the
    listener is at [l]: every source gets a fresh route, handles counting
    up in Map order; and the node calls it makes on the way. *)
Fixpoint start_entries (l : Vec3) (n : nat) (m : list (nat * Source))
  : list (nat * Source) :=
  match m with
  | [] => []
  | (k, s) :: rest => (k, start_entry l n s) :: start_entries l (S n) rest
  end.

Fixpoint start_calls (n : nat) (m : list (nat * Source)) : list NodeCall :=
  match m with
  | [] => []
  | (k, s) :: rest =>
      match node s with Some old => [NodeStop old] | None => [] end
      ++ NodeStart n :: start_calls (S n) rest
  end.

(** The source behind reference [r] can be picked with the mouse at
    [(mouseX, mouseY)]: it is not locked and its screen position is less
    than 30 pixels away. *)
Definition pickable (deref : nat -> option Source) (v : Visualization.Vis)
    (mouseX mouseY : R) (r : nat) : Prop :=
  exists s,
    deref r = Some s
    /\ locked s = false
    /\ sqrt ((mouseX - x2 (Visualization.screenPosition v (position s)))
             * (mouseX - x2 (Visualization.screenPosition v (position s)))
             + (mouseY - y2 (Visualization.screenPosition v (position s)))
               * (mouseY - y2 (Visualization.screenPosition v (position s))))
       < 30.



(** The user types into fields of the panel, one text after another; an
    edit is the source id and the axis of the field, and the text. *)
Definition typeAll (edits : list (nat * string * string))
    (p : SourceManager.Panel) : SourceManager.Panel :=
  fold_left
    (fun q ed => SourceManager.typeInto (fst (fst ed)) (snd (fst ed)) (snd ed) q)
    edits p.

(** The fields of a source in the panel are the three for x, y and z, with
    the given texts, all disabled or all enabled. *)
Definition threeFields (i : nat) (tx ty tz : string) (d : bool)
  : list SourceManager.CoordInput :=
  [ SourceManager.mkCoordInput i "x" tx d;
    SourceManager.mkCoordInput i "y" ty d;
    SourceManager.mkCoordInput i "z" tz d ].

(** The engine [e'] is what a sequence of calls of the engine's methods
    makes of the engine [e]. *)
Definition reaches (e e' : Engine) : Prop :=
  exists ops, e' = snd (run ops e).

(** ** Scenes *)

(** A scene with one source, at (5, 0, 0), that has been locked. *)
Definition lockedScene : Engine :=
  setSourceLocked 1 true
    (snd (createSource 0%nat "track.mp3" (Some (mkVec3 5 0 0)) constructor)).

(** A scene with one source that is playing on node 0. *)
Definition playingScene : Engine :=
  startSource 1
    (snd (createSource 0%nat "track.mp3" (Some (mkVec3 5 0 0))
            (init true constructor))).

(** The calls that produce [playingScene], and the source it holds. *)
Definition playingOps : list Op :=
  [ OpInit true;
    OpCreateSource 0%nat "track.mp3" (Some (mkVec3 5 0 0));
    OpStartSource 1 ].

Definition playingSource : Source :=
  mkSource 1 "track.mp3" 0%nat (mkVec3 5 0 0) 1 false (Some 0%nat)
    (Some (mkVec3 (5 - 0) (0 - 0) (0 - 0))) (Some 1) true.

(** A controller with a gamepad connected in slot 0, and one in mouse-look
    mode. *)
Definition gamepadReady : MovementController.Controller :=
  MovementController.with_gamepadIndex (Some 0%nat)
    MovementController.constructor.
Definition mouseLooking : MovementController.Controller :=
  MovementController.with_isLocked true MovementController.constructor.

(** A standard gamepad (four axes, seventeen buttons) with the right stick
    pushed fully to the left and everything else at rest. *)
Definition stickLeft : list (option MovementController.Gamepad) :=
  [Some (MovementController.mkGamepad [0; 0; -1; 0] (repeat false 17))].

(** An 800 by 600 canvas at the top left of the page. *)
Definition canvas800 : Visualization.Canvas :=
  Visualization.mkCanvas 0 0 800 600 "default".

(** The visualization after one click on the view toggle: first-person
    view, composition mode. *)
Definition firstPersonComposition : Visualization.Vis :=
  snd (Visualization.toggleViewMode (Visualization.constructor canvas800)).

(** After a further click on the mode toggle: first-person view, authoring
    mode. *)
Definition firstPersonAuthoring : Visualization.Vis :=
  snd (Visualization.toggleCompositionMode firstPersonComposition).

(** A silent, unlocked source with id 1 at a given position. *)
Definition sourceAt (p : Vec3) : Source :=
  mkSource 1 "track.mp3" 0%nat p 1 false None None None false.

(** The visualization in the middle of a drag that started exactly on a
    source at (5, 0, 0): composition mode, scale 20, centre (400, 300). *)
Definition draggingOnSource : Visualization.Vis :=
  Visualization.with_drag true (Some 1%nat) (mkVec2 0 0)
    (Visualization.constructor canvas800).

(** One file loaded and played, then one step forward with the W key. *)
Definition oneTrackPlaying : list App.Event :=
  [ App.Loaded 0%nat "track.mp3" 0;
    App.PlayAll;
    App.Input (MovementController.KeyDown (MovementController.mkKeyEvent "w" false)) ].

(** A reader of unsigned decimal integers, standing for [parseFloat] on the
    texts of the example below. *)
Fixpoint digits (acc : nat) (t : string) : option nat :=
  match t with
  | EmptyString => Some acc
  | String ch rest =>
      let n := Ascii.nat_of_ascii ch in
      if (Nat.leb 48 n && Nat.leb n 57)%bool
      then digits (10 * acc + (n - 48)) rest
      else None
  end.

Definition parseUnsigned (t : string) : option R :=
  match t with
  | EmptyString => None
  | _ => option_map INR (digits 0 t)
  end.

(** One unlocked source at (5, 0, 0), and a panel in which the user typed
    7, a word, and 9. *)
Definition oneSource : Engine :=
  snd (createSource 0%nat "track.mp3" (Some (mkVec3 5 0 0))
         SpatialAudioEngine.constructor).

Definition typedPanel : SourceManager.Panel :=
  {| SourceManager.sourceListEl :=
       [ SourceManager.mkCoordInput 1 "x" "7" false;
         SourceManager.mkCoordInput 1 "y" "up" false;
         SourceManager.mkCoordInput 1 "z" "9" false ];
     SourceManager.alerts := [] |}.

(** One file loaded and removed again. *)
Definition loadedAndRemoved : App.App :=
  App.handle_all [App.Loaded 0%nat "track.mp3" 0; App.Remove 1]
    (App.start true canvas800).

End Scenes.

(** * Properties *)

(** ** Facts about the Map of sources *)

Section MapFacts.

Import SpatialAudioEngine.

Lemma map_get_In (k : nat) (m : list (nat * Source)) (s : Source) :
  map_get k m = Some s -> In (k, s) m.
Proof.
  induction m as [|[k' s'] rest IH]; simpl; [discriminate|].
  destruct (Nat.eqb_spec k k') as [->|Hne]; intros H.
  - injection H as ->. now left.
  - right. now apply IH.
Qed.

Lemma map_get_None (k : nat) (m : list (nat * Source)) :
  map_get k m = None <-> ~ In k (map fst m).
Proof.
  induction m as [|[k' s'] rest IH]; simpl.
  - intuition.
  - destruct (Nat.eqb_spec k k') as [->|Hne].
    + split; [discriminate|]. intros H. exfalso. apply H. now left.
    + rewrite IH. intuition congruence.
Qed.

Lemma map_get_update_same (k : nat) (f : Source -> Source)
    (m : list (nat * Source)) :
  map_get k (map_update k f m) = option_map f (map_get k m).
Proof.
  induction m as [|[k' s'] rest IH]; simpl; [reflexivity|].
  destruct (Nat.eqb_spec k k') as [->|Hne]; simpl.
  - now rewrite Nat.eqb_refl.
  - destruct (Nat.eqb_spec k k'); [contradiction|]. exact IH.
Qed.

Lemma map_get_update_other (k j : nat) (f : Source -> Source)
    (m : list (nat * Source)) :
  j <> k -> map_get j (map_update k f m) = map_get j m.
Proof.
  intros Hjk.
  induction m as [|[k' s'] rest IH]; simpl; [reflexivity|].
  destruct (Nat.eqb_spec k k') as [->|Hne]; simpl.
  - destruct (Nat.eqb_spec j k'); [contradiction|reflexivity].
  - destruct (Nat.eqb_spec j k'); [reflexivity|exact IH].
Qed.

Lemma map_update_keys (k : nat) (f : Source -> Source)
    (m : list (nat * Source)) :
  map fst (map_update k f m) = map fst m.
Proof.
  induction m as [|[k' s'] rest IH]; simpl; [reflexivity|].
  destruct (Nat.eqb k k'); simpl; [reflexivity|now rewrite IH].
Qed.

Lemma map_update_absent (k : nat) (f : Source -> Source)
    (m : list (nat * Source)) :
  map_get k m = None -> map_update k f m = m.
Proof.
  induction m as [|[k' s'] rest IH]; simpl; [reflexivity|].
  destruct (Nat.eqb k k'); [discriminate|].
  intros H. now rewrite IH.
Qed.

Lemma map_update_Forall (P : nat * Source -> Prop) (k : nat)
    (f : Source -> Source) (m : list (nat * Source)) :
  (forall s, P (k, s) -> P (k, f s)) ->
  Forall P m -> Forall P (map_update k f m).
Proof.
  intros Hf. induction 1 as [|[k' s'] rest Hhd Htl IH]; simpl.
  - constructor.
  - destruct (Nat.eqb_spec k k') as [->|Hne]; constructor; auto.
Qed.

Lemma map_delete_keys_incl (k j : nat) (m : list (nat * Source)) :
  In j (map fst (map_delete k m)) -> In j (map fst m).
Proof.
  induction m as [|[k' s'] rest IH]; simpl; [tauto|].
  destruct (Nat.eqb k k'); simpl; intuition.
Qed.

Lemma map_delete_Forall (P : nat * Source -> Prop) (k : nat)
    (m : list (nat * Source)) :
  Forall P m -> Forall P (map_delete k m).
Proof.
  induction 1 as [|[k' s'] rest Hhd Htl IH]; simpl.
  - constructor.
  - destruct (Nat.eqb k k'); [assumption|now constructor].
Qed.

Lemma map_delete_NoDup (k : nat) (m : list (nat * Source)) :
  NoDup (map fst m) -> NoDup (map fst (map_delete k m)).
Proof.
  induction m as [|[k' s'] rest IH]; simpl; intros H; [constructor|].
  inversion H as [|? ? Hnotin Hrest]; subst.
  destruct (Nat.eqb k k'); simpl; [assumption|].
  constructor; [|now apply IH].
  intros Hin. apply Hnotin. eapply map_delete_keys_incl, Hin.
Qed.

Lemma map_delete_gone (k : nat) (m : list (nat * Source)) :
  NoDup (map fst m) -> ~ In k (map fst (map_delete k m)).
Proof.
  induction m as [|[k' s'] rest IH]; simpl; intros H; [tauto|].
  inversion H as [|? ? Hnotin Hrest]; subst.
  destruct (Nat.eqb_spec k k') as [->|Hne]; simpl; [assumption|].
  intros [Heq|Hin]; [congruence|]. now apply IH.
Qed.

Lemma map_get_delete_other (k j : nat) (m : list (nat * Source)) :
  j <> k -> map_get j (map_delete k m) = map_get j m.
Proof.
  intros Hjk.
  induction m as [|[k' s'] rest IH]; simpl; [reflexivity|].
  destruct (Nat.eqb_spec k k') as [->|Hne]; simpl.
  - destruct (Nat.eqb_spec j k'); [contradiction|reflexivity].
  - destruct (Nat.eqb_spec j k'); [reflexivity|exact IH].
Qed.

Lemma map_set_keys_fresh (k : nat) (s : Source) (m : list (nat * Source)) :
  ~ In k (map fst m) -> map_set k s m = m ++ [(k, s)].
Proof.
  induction m as [|[k' s'] rest IH]; simpl; intros H; [reflexivity|].
  destruct (Nat.eqb_spec k k') as [->|Hne]; [exfalso; apply H; now left|].
  rewrite IH; [reflexivity|tauto].
Qed.

Lemma map_get_set_same (k : nat) (s : Source) (m : list (nat * Source)) :
  map_get k (map_set k s m) = Some s.
Proof.
  induction m as [|[k' s'] rest IH]; simpl.
  - now rewrite Nat.eqb_refl.
  - destruct (Nat.eqb_spec k k') as [->|Hne]; simpl.
    + now rewrite Nat.eqb_refl.
    + destruct (Nat.eqb_spec k k'); [contradiction|exact IH].
Qed.

Lemma map_get_set_other (k j : nat) (s : Source) (m : list (nat * Source)) :
  j <> k -> map_get j (map_set k s m) = map_get j m.
Proof.
  intros Hjk.
  induction m as [|[k' s'] rest IH]; simpl.
  - destruct (Nat.eqb_spec j k); [contradiction|reflexivity].
  - destruct (Nat.eqb_spec k k') as [->|Hne]; simpl.
    + destruct (Nat.eqb_spec j k'); [contradiction|reflexivity].
    + destruct (Nat.eqb_spec j k'); [reflexivity|exact IH].
Qed.

Lemma map_set_Forall (P : nat * Source -> Prop) (k : nat) (s : Source)
    (m : list (nat * Source)) :
  P (k, s) -> Forall P m -> Forall P (map_set k s m).
Proof.
  intros Hs. induction 1 as [|[k' s'] rest Hhd Htl IH]; simpl.
  - now constructor.
  - destruct (Nat.eqb k k'); constructor; auto.
Qed.

End MapFacts.

(** ** Well-formed engines *)

Section EngineFacts.

Import SpatialAudioEngine.

Lemma wf_constructor : wf constructor.
Proof. split; simpl; constructor. Qed.

(** A property of engines kept by [f i] for every [i] is kept by the
    [forEach] loop that calls [f] on every key. *)
Lemma forEach_id_preserves (P : Engine -> Prop) (f : nat -> Engine -> Engine) :
  (forall i e, P e -> P (f i e)) -> forall e, P e -> P (forEach_id f e).
Proof.
  intros Hf e. unfold forEach_id.
  generalize (sources e) as l. intros l. revert e.
  induction l as [|kv rest IH]; simpl; intros e He; [assumption|].
  apply IH, Hf, He.
Qed.

Lemma wf_update (k : nat) (f : Source -> Source) (e : Engine) :
  (forall s, id (f s) = id s) ->
  wf e -> wf (with_sources (map_update k f (sources e)) e).
Proof.
  intros Hid [Hnd Hall]. split; simpl.
  - now rewrite map_update_keys.
  - apply map_update_Forall; [|assumption].
    intros s [H1 H2]. split; simpl in *; [now rewrite Hid|assumption].
Qed.

Lemma wf_stopSource (i : nat) (e : Engine) : wf e -> wf (stopSource i e).
Proof.
  intros H. unfold stopSource.
  destruct (map_get i (sources e)) as [s|]; [|assumption].
  destruct (node s); [|assumption].
  apply (wf_update i clear_route e) in H; [|reflexivity].
  exact H.
Qed.

Lemma wf_removeSource (i : nat) (e : Engine) : wf e -> wf (removeSource i e).
Proof.
  intros H. unfold removeSource.
  destruct (map_get i (sources e)); [|assumption].
  destruct (wf_stopSource i e H) as [Hnd Hall].
  split; simpl.
  - now apply map_delete_NoDup.
  - now apply map_delete_Forall.
Qed.

Lemma wf_startSource (i : nat) (e : Engine) : wf e -> wf (startSource i e).
Proof.
  intros [Hnd Hall]. unfold startSource.
  destruct (map_get i (sources e)) as [s|]; [|now split].
  destruct (audioContext e) as [ctx|]; [|now split].
  split; simpl.
  - now rewrite map_update_keys.
  - apply map_update_Forall; [|assumption].
    intros s' [H1 H2]. now split.
Qed.

Lemma wf_createSource (b : AudioBuffer) (nm : string) (pos : option Vec3)
    (e : Engine) :
  wf e -> wf (snd (createSource b nm pos e)).
Proof.
  intros [Hnd Hall].
  assert (Hfresh : ~ In (nextSourceId e) (map fst (sources e))).
  { intros Hin. apply in_map_iff in Hin as [[k s] [Hk Hin]]. simpl in Hk.
    rewrite Forall_forall in Hall. apply Hall in Hin as [_ Hlt].
    simpl in Hlt. lia. }
  unfold createSource, wf; simpl.
  rewrite map_set_keys_fresh by assumption.
  split.
  - rewrite map_app. simpl.
    apply NoDup_app_remove_l with (l := []). simpl.
    apply NoDup_incl_NoDup with (l := nextSourceId e :: map fst (sources e)).
    + now constructor.
    + simpl. rewrite length_app. simpl. lia.
    + intros a [<-|Hin]; apply in_or_app; [right; now left|now left].
  - apply Forall_app. split.
    + eapply Forall_impl; [|exact Hall].
      intros kv [H1 H2]. split; [assumption|simpl; lia].
    + constructor; [|constructor]. split; simpl; [reflexivity|lia].
Qed.

Lemma wf_updateListenerPosition (p : Vec3) (e : Engine) :
  wf e -> wf (updateListenerPosition p e).
Proof.
  intros [Hnd Hall]. unfold updateListenerPosition, wf; simpl.
  split.
  - rewrite map_map.
    erewrite map_ext; [exact Hnd|].
    intros [k s]; simpl. now destruct (panner s).
  - rewrite Forall_map. eapply Forall_impl; [|exact Hall].
    intros [k s] [H1 H2]; simpl in *. destruct (panner s); now split.
Qed.

Lemma wf_step (o : Op) (e : Engine) : wf e -> wf (snd (step o e)).
Proof.
  intros H. destruct o; simpl.
  - unfold init. destruct (initialized e); [assumption|].
    destruct ok; exact H.
  - now apply wf_createSource.
  - now apply wf_removeSource.
  - now apply wf_startSource.
  - now apply wf_stopSource.
  - now apply (wf_update sourceId clear_route e).
  - unfold playAll. destruct (audioContext e); [|assumption].
    apply (forEach_id_preserves wf startSource wf_startSource) in H.
    exact H.
  - apply (forEach_id_preserves wf stopSource wf_stopSource) in H.
    exact H.
  - unfold setSourceVolume.
    destruct (map_get sourceId (sources e)); [|assumption].
    apply wf_update; [|assumption].
    intros s'. simpl. now destruct (gainNode s').
  - unfold setSourcePosition.
    destruct (map_get sourceId (sources e)); [|assumption].
    apply wf_update; [|assumption].
    intros s'. simpl. now destruct (panner s').
  - now apply wf_updateListenerPosition.
  - unfold updateListenerOrientation. destruct (audioContext e); exact H.
  - unfold toggleSourceLock.
    destruct (map_get sourceId (sources e)); [|assumption].
    now apply wf_update.
  - unfold setSourceLocked.
    destruct (map_get sourceId (sources e)); [|assumption].
    now apply wf_update.
Qed.

Lemma wf_run (ops : list Op) (e : Engine) : wf e -> wf (snd (run ops e)).
Proof.
  revert e. induction ops as [|o rest IH]; simpl; intros e H; [assumption|].
  apply IH, wf_step, H.
Qed.

(** In a well-formed engine a source is found under its own id. *)
Lemma wf_getSource_id (e : Engine) (i : nat) (s : Source) :
  wf e -> getSource i e = Some s -> id s = i.
Proof.
  intros [_ Hall] Hget. apply map_get_In in Hget.
  rewrite Forall_forall in Hall. now apply Hall in Hget as [H _].
Qed.

End EngineFacts.

(** ** Source ids *)

Section SourceIds.

Import SpatialAudioEngine.

Lemma nextSourceId_stopSource (i : nat) (e : Engine) :
  nextSourceId (stopSource i e) = nextSourceId e.
Proof.
  unfold stopSource. destruct (map_get i (sources e)) as [s|]; [|reflexivity].
  now destruct (node s).
Qed.

Lemma nextSourceId_startSource (i : nat) (e : Engine) :
  nextSourceId (startSource i e) = nextSourceId e.
Proof.
  unfold startSource. destruct (map_get i (sources e)); [|reflexivity].
  now destruct (audioContext e).
Qed.

Lemma nextSourceId_forEach (f : nat -> Engine -> Engine) (e : Engine) :
  (forall i e', nextSourceId (f i e') = nextSourceId e') ->
  nextSourceId (forEach_id f e) = nextSourceId e.
Proof.
  intros Hf.
  apply (forEach_id_preserves (fun e' => nextSourceId e' = nextSourceId e));
    [|reflexivity].
  intros i e' H. now rewrite Hf.
Qed.

(** Only [createSource] moves the counter, and it returns the old value. *)
Lemma nextSourceId_step (o : Op) (e : Engine) :
  match fst (step o e) with
  | Some i => i = nextSourceId e /\ nextSourceId (snd (step o e)) = S i
  | None => nextSourceId (snd (step o e)) = nextSourceId e
  end.
Proof.
  destruct o; simpl; try reflexivity.
  - unfold init. destruct (initialized e); [reflexivity|now destruct ok].
  - now split.
  - unfold removeSource. destruct (map_get sourceId (sources e)); [|reflexivity].
    simpl. apply nextSourceId_stopSource.
  - apply nextSourceId_startSource.
  - apply nextSourceId_stopSource.
  - unfold playAll. destruct (audioContext e); [|reflexivity]. simpl.
    apply nextSourceId_forEach, nextSourceId_startSource.
  - apply nextSourceId_forEach, nextSourceId_stopSource.
  - unfold setSourceVolume. now destruct (map_get sourceId (sources e)).
  - unfold setSourcePosition. now destruct (map_get sourceId (sources e)).
  - unfold updateListenerOrientation. now destruct (audioContext e).
  - unfold toggleSourceLock. now destruct (map_get sourceId (sources e)).
  - unfold setSourceLocked. now destruct (map_get sourceId (sources e)).
Qed.

Lemma run_ids_sorted (ops : list Op) (e : Engine) :
  Forall (fun i => nextSourceId e <= i)%nat (fst (run ops e))
  /\ StronglySorted lt (fst (run ops e)).
Proof.
  revert e. induction ops as [|o rest IH]; intros e; simpl.
  - split; constructor.
  - destruct (IH (snd (step o e))) as [Hge Hsorted].
    pose proof (nextSourceId_step o e) as Hstep.
    destruct (fst (step o e)) as [i|].
    + destruct Hstep as [-> Hnext]. rewrite Hnext in Hge. split.
      * constructor; [lia|].
        eapply Forall_impl; [|exact Hge]. simpl. intros a Ha. lia.
      * constructor; [assumption|].
        eapply Forall_impl; [|exact Hge]. simpl. intros a Ha. lia.
    + rewrite Hstep in Hge. now split.
Qed.

Lemma sorted_lt_NoDup (l : list nat) : StronglySorted lt l -> NoDup l.
Proof.
  induction 1 as [|a l Hsorted IH Hall]; constructor; [|assumption].
  intros Hin. rewrite Forall_forall in Hall. apply Hall in Hin. lia.
Qed.

(** C10.  Over any sequence of engine calls, from any engine, the ids
    returned by the [createSource] calls are strictly increasing in call
    order, hence pairwise distinct, and none is below the counter the
    sequence started from: an id is never handed out twice, whatever was
    removed in between. *)
Theorem createSource_ids_strictly_increase (ops : list Op) (e : Engine) :
  StronglySorted lt (fst (run ops e))
  /\ NoDup (fst (run ops e))
  /\ Forall (fun i => nextSourceId e <= i)%nat (fst (run ops e)).
Proof.
  destruct (run_ids_sorted ops e) as [Hge Hsorted].
  split; [assumption|]. split; [|assumption].
  now apply sorted_lt_NoDup.
Qed.

(** An id handed out by [createSource] is larger than the id of every
    source already in the scene, so the new source replaces none. *)
Lemma createSource_fresh (b : AudioBuffer) (nm : string) (pos : option Vec3)
    (e : Engine) :
  wf e ->
  getSource (fst (createSource b nm pos e)) e = None
  /\ Forall (fun s => id s < fst (createSource b nm pos e))%nat (getSources e).
Proof.
  intros [Hnd Hall]. simpl. split.
  - unfold getSource. apply map_get_None. intros Hin.
    apply in_map_iff in Hin as [[k s] [Hk Hin]]. simpl in Hk.
    rewrite Forall_forall in Hall. apply Hall in Hin as [_ Hlt].
    simpl in Hlt. lia.
  - unfold getSources. rewrite Forall_map.
    eapply Forall_impl; [|exact Hall].
    intros [k s] [H1 H2]. simpl in *. lia.
Qed.

End SourceIds.

(** ** Locking and positions *)

Section Locking.

Import SpatialAudioEngine.

Lemma setSourcePosition_known (e : Engine) (i : nat) (s : Source) (p : Vec3) :
  getSource i e = Some s ->
  exists s', getSource i (setSourcePosition i p e) = Some s'
             /\ position s' = p /\ locked s' = locked s /\ id s' = id s.
Proof.
  unfold getSource, setSourcePosition. intros Hget. rewrite Hget. simpl.
  rewrite map_get_update_same, Hget. simpl.
  eexists. split; [reflexivity|].
  destruct (panner s); simpl; destruct p; auto.
Qed.

Lemma setSourceLocked_known (e : Engine) (i : nat) (s : Source) (b : bool) :
  getSource i e = Some s ->
  getSource i (setSourceLocked i b e) = Some (set_locked b s).
Proof.
  unfold getSource, setSourceLocked. intros Hget. rewrite Hget. simpl.
  now rewrite map_get_update_same, Hget.
Qed.

(** What [pick] returns: an unlocked source within 30 pixels, with the
    offset of the mouse from its screen position. *)
Lemma pick_offset (deref : nat -> option Source) (v : Visualization.Vis)
    (mouseX mouseY : R) (l : list nat) (r : nat) (off : Vec2) :
  Visualization.pick deref v mouseX mouseY l = Some (r, off) ->
  exists s, deref r = Some s /\ locked s = false
            /\ off = mkVec2 (mouseX - x2 (Visualization.screenPosition v (position s)))
                            (mouseY - y2 (Visualization.screenPosition v (position s))).
Proof.
  induction l as [|r' rest IH]; simpl; [discriminate|].
  destruct (deref r') as [s|] eqn:Hderef; [|exact IH].
  destruct (locked s) eqn:Hlocked; [exact IH|].
  match goal with |- context [Rlt_dec ?a ?b] => destruct (Rlt_dec a b) end;
    [|exact IH].
  intros H. injection H as <- <-. now exists s.
Qed.

Lemma pick_unlocked (deref : nat -> option Source) (v : Visualization.Vis)
    (mouseX mouseY : R) (l : list nat) (r : nat) (off : Vec2) :
  Visualization.pick deref v mouseX mouseY l = Some (r, off) ->
  exists s, deref r = Some s /\ locked s = false.
Proof.
  intros H. destruct (pick_offset _ _ _ _ _ _ _ H) as [s [H1 [H2 _]]].
  now exists s.
Qed.

(** C1 does not hold of [setSourcePosition]: the source of [lockedScene] is
    locked and sits at (5, 0, 0), and the call moves it to (-5, 0, 0). *)
Lemma setSourcePosition_moves_locked_source :
  exists s s',
    getSource 1 lockedScene = Some s
    /\ locked s = true
    /\ getSource 1 (setSourcePosition 1 (mkVec3 (-5) 0 0) lockedScene) = Some s'
    /\ position s = mkVec3 5 0 0
    /\ position s' = mkVec3 (-5) 0 0
    /\ position s' <> position s.
Proof.
  do 2 eexists. repeat split; try reflexivity.
  simpl. intros H. injection H as H. lra.
Qed.

(** C1, as the code has it.  [setSourcePosition] is a silent no-op exactly for an
    unknown id.  For a known id it stores the new position whether or not
    the source is locked, and leaves the lock flag alone; so it does after
    [setSourceLocked(id, false)].  The lock is honoured where a drag starts:
    the hit test of [onMouseDown] never picks a locked source. *)
Theorem setSourcePosition_ignores_lock (e : Engine) (i : nat) (p : Vec3) :
  (getSource i e = None -> setSourcePosition i p e = e)
  /\ (forall s, getSource i e = Some s ->
        exists s', getSource i (setSourcePosition i p e) = Some s'
                   /\ position s' = p /\ locked s' = locked s)
  /\ (forall s, getSource i e = Some s ->
        exists s',
          getSource i (setSourcePosition i p (setSourceLocked i false e))
          = Some s'
          /\ position s' = p /\ locked s' = false)
  /\ (forall deref v mouseX mouseY l r off,
        Visualization.pick deref v mouseX mouseY l = Some (r, off) ->
        exists s, deref r = Some s /\ locked s = false).
Proof.
  split; [|split; [|split]].
  - unfold getSource, setSourcePosition. now intros ->.
  - intros s Hget.
    destruct (setSourcePosition_known e i s p Hget) as [s' [H1 [H2 [H3 _]]]].
    now exists s'.
  - intros s Hget.
    pose proof (setSourceLocked_known e i s false Hget) as Hunlocked.
    destruct (setSourcePosition_known _ i _ p Hunlocked)
      as [s' [H1 [H2 [H3 _]]]].
    now exists s'.
  - intros deref v mouseX mouseY l r off. apply pick_unlocked.
Qed.

(** The statement above at [lockedScene]. *)
Lemma setSourcePosition_ignores_lock_witness :
  exists s',
    getSource 1 (setSourcePosition 1 (mkVec3 (-5) 0 0) lockedScene) = Some s'
    /\ position s' = mkVec3 (-5) 0 0 /\ locked s' = true.
Proof.
  destruct (setSourcePosition_ignores_lock lockedScene 1 (mkVec3 (-5) 0 0))
    as [_ [H _]].
  destruct (H (set_locked true
                 (mkSource 1 "track.mp3" 0%nat (mkVec3 5 0 0) 1 false
                    None None None false)) eq_refl) as [s' Hs'].
  exists s'. exact Hs'.
Defined.

End Locking.

(** ** Removing a source *)

Section Removal.

Import SpatialAudioEngine.

Lemma stopSource_no_route (e : Engine) (i : nat) :
  (getSource i e = None
   \/ exists s, getSource i e = Some s /\ node s = None) ->
  stopSource i e = e.
Proof.
  unfold getSource, stopSource. intros [->|[s [-> ->]]]; reflexivity.
Qed.

Lemma stopSource_idempotent (e : Engine) (i : nat) :
  stopSource i (stopSource i e) = stopSource i e.
Proof.
  apply stopSource_no_route. unfold getSource, stopSource.
  destruct (map_get i (sources e)) as [s|] eqn:Hget; [|now left].
  destruct (node s) eqn:Hnode.
  - right. simpl. rewrite map_get_update_same, Hget. simpl.
    now exists (clear_route s).
  - right. rewrite Hget. now exists s.
Qed.

Lemma stopSource_calls (e : Engine) (i : nat) (s : Source) :
  getSource i e = Some s ->
  calls (stopSource i e)
  = calls e ++ match node s with Some n => [NodeStop n] | None => [] end.
Proof.
  unfold getSource, stopSource. intros ->.
  destruct (node s); simpl; [reflexivity|now rewrite app_nil_r].
Qed.

(** C8.  [stopSource] changes nothing when the source has no active route
    (or is unknown), and stopping twice is stopping once.  [removeSource] of
    an unknown id changes nothing; of a known id it is the deletion applied
    to the engine that [stopSource] returns, and the only node call it makes
    is the [stop] of the source's node, if it has one.  Afterwards the id is
    absent from the Map and from [getSources()]. *)
Theorem removeSource_stops_then_deletes (e : Engine) (i : nat) :
  wf e ->
  (forall j,
      (getSource j e = None
       \/ exists s, getSource j e = Some s /\ node s = None) ->
      stopSource j e = e)
  /\ (forall j, stopSource j (stopSource j e) = stopSource j e)
  /\ (getSource i e = None -> removeSource i e = e)
  /\ (forall s, getSource i e = Some s ->
        removeSource i e
        = with_sources (map_delete i (sources (stopSource i e)))
            (stopSource i e)
        /\ calls (removeSource i e)
           = calls e
             ++ match node s with Some n => [NodeStop n] | None => [] end)
  /\ getSource i (removeSource i e) = None
  /\ Forall (fun s => id s <> i) (getSources (removeSource i e)).
Proof.
  intros Hwf.
  split; [intros j; apply stopSource_no_route|].
  split; [intros j; apply stopSource_idempotent|].
  split; [unfold getSource, removeSource; now intros ->|].
  split.
  - intros s Hget. unfold removeSource. unfold getSource in Hget.
    rewrite Hget. split; [reflexivity|]. simpl.
    now apply stopSource_calls.
  - assert (Hgone : getSource i (removeSource i e) = None).
    { unfold getSource, removeSource.
      destruct (map_get i (sources e)) eqn:Hget; [|exact Hget].
      simpl. apply map_get_None, map_delete_gone.
      now destruct (wf_stopSource i e Hwf). }
    split; [exact Hgone|].
    pose proof (wf_removeSource i e Hwf) as [_ Hall].
    unfold getSources. rewrite Forall_map.
    rewrite Forall_forall in *. intros [k s] Hin.
    destruct (Hall _ Hin) as [Hid _]. simpl in *. rewrite Hid.
    intros ->. unfold getSource in Hgone.
    apply map_get_None in Hgone. apply Hgone.
    apply in_map_iff. now exists (i, s).
Qed.

Lemma wf_playingScene : wf playingScene.
Proof.
  apply wf_startSource, wf_createSource.
  unfold init. simpl. apply wf_constructor.
Qed.

(** The statement of C8 at [playingScene]: removing the source stops node 0
    and leaves an empty scene. *)
Lemma removeSource_stops_then_deletes_witness :
  calls (removeSource 1 playingScene) = [NodeStart 0; NodeStop 0]
  /\ getSources (removeSource 1 playingScene) = [].
Proof.
  destruct (removeSource_stops_then_deletes playingScene 1 wf_playingScene)
    as [_ [_ [_ [H _]]]].
  split; [|reflexivity].
  destruct (H (mkSource 1 "track.mp3" 0%nat (mkVec3 5 0 0) 1 false (Some 0%nat)
                 (Some (mkVec3 (5 - 0) (0 - 0) (0 - 0))) (Some 1) true)
              eq_refl) as [_ Hcalls].
  exact Hcalls.
Defined.

(** Why the order matters: once the source is deleted, [stopSource] finds
    nothing to stop, and the node would be left playing. *)
Lemma stopSource_after_delete (e : Engine) (i : nat) :
  wf e ->
  stopSource i (with_sources (map_delete i (sources e)) e)
  = with_sources (map_delete i (sources e)) e.
Proof.
  intros [Hnd _]. apply stopSource_no_route. left.
  unfold getSource. simpl. now apply map_get_None, map_delete_gone.
Qed.

End Removal.

(** ** The movement bubble *)

Section Bubble.

Import SpatialAudioEngine MovementController.







Lemma movementRadius_movePlayer (dx dy dz : R) (me : Controller * Engine) :
  movementRadius (fst (movePlayer dx dy dz me)) = movementRadius (fst me).
Proof. reflexivity. Qed.






End Bubble.

(** ** Orientation *)

Section Orientation.

Import SpatialAudioEngine MovementController.

Lemma deadzoned_inside (deadzone a : R) :
  Rabs a <= deadzone -> deadzoned deadzone a = 0.
Proof.
  intros H. unfold deadzoned.
  destruct (Rlt_dec deadzone (Rabs a)); [lra|reflexivity].
Qed.

Lemma deadzoned_outside (deadzone a : R) :
  deadzone < Rabs a -> deadzoned deadzone a = a.
Proof.
  intros H. unfold deadzoned.
  destruct (Rlt_dec deadzone (Rabs a)); [reflexivity|lra].
Qed.

Lemma truthy_zero : truthy 0 = false.
Proof. unfold truthy. destruct (Req_dec_T 0 0); [reflexivity|lra]. Qed.

Lemma truthy_nonzero (a : R) : a <> 0 -> truthy a = true.
Proof. intros H. unfold truthy. now destruct (Req_dec_T a 0). Qed.

Lemma clamp_between (lo hi a : R) :
  lo <= hi -> lo <= Math_max lo (Math_min hi a) <= hi.
Proof.
  intros H. unfold Math_max, Math_min, Rmax, Rmin.
  destruct (Rle_dec hi a); destruct (Rle_dec lo _); lra.
Qed.

(** Mouse look: the pitch ends in [-90, 90] whatever the mouse did. *)
Lemma handleMouseMove_pitch (movementX movementY : R)
    (me : Controller * Engine) :
  isLocked (mouseLook (fst me)) = true ->
  -90 <= playerPitch (fst (handleMouseMove movementX movementY me)) <= 90.
Proof.
  intros Hlocked. unfold handleMouseMove. rewrite Hlocked. simpl.
  apply clamp_between. lra.
Qed.

(** Mouse look: one correction by 360 is applied in each direction, so the
    yaw ends in [0, 360) when the step keeps it within one turn of that
    range. *)
Lemma handleMouseMove_yaw (movementX movementY : R)
    (me : Controller * Engine) :
  isLocked (mouseLook (fst me)) = true ->
  let raw := playerFacing (fst me)
             + movementX * sensitivity (mouseLook (fst me)) in
  -360 <= raw < 720 ->
  0 <= playerFacing (fst (handleMouseMove movementX movementY me)) < 360.
Proof.
  intros Hlocked raw Hraw. unfold handleMouseMove. rewrite Hlocked. simpl.
  fold raw.
  destruct (Rlt_dec raw 0); destruct (Rle_dec 360 _); lra.
Qed.

Lemma Rabs_zero_small : Rabs 0 <= 0.15.
Proof. rewrite Rabs_R0. lra. Qed.

Lemma Rabs_minus_one_large : 0.15 < Rabs (-1).
Proof. rewrite Rabs_left; lra. Qed.

(** C7, at the failing input.  From the initial pose, one gamepad frame
    with the right stick fully left sets the yaw to -3, outside [0, 360):
    [updateGamepad] adds the stick to the yaw and never wraps it.  The same
    turn by the mouse (15 pixels to the left) goes through the wrap of
    [handleMouseMove] and gives 357. *)
Theorem updateGamepad_does_not_wrap_yaw :
  let after :=
    updateGamepad stickLeft (gamepadReady, SpatialAudioEngine.constructor) in
  playerFacing (fst after) = -3
  /\ ~ (0 <= playerFacing (fst after) < 360)
  /\ playerFacing
       (fst (handleMouseMove (-15) 0
               (mouseLooking, SpatialAudioEngine.constructor))) = 357.
Proof.
  assert (Hyaw :
    playerFacing
      (fst (updateGamepad stickLeft
              (gamepadReady, SpatialAudioEngine.constructor))) = -3).
  { unfold updateGamepad, stickLeft, gamepadReady. simpl.
    rewrite (deadzoned_inside _ 0 Rabs_zero_small).
    rewrite (deadzoned_outside _ (-1) Rabs_minus_one_large).
    rewrite truthy_zero, truthy_nonzero by lra. simpl. lra. }
  simpl. rewrite Hyaw. split; [reflexivity|]. split; [lra|].
  unfold handleMouseMove, mouseLooking. simpl.
  destruct (Rlt_dec (0 + -15 * 0.2) 0) as [Hneg|Hnonneg]; [|lra].
  destruct (Rle_dec 360 (0 + -15 * 0.2 + 360)); lra.
Qed.

(** The gamepad does clamp the pitch (to [-89, 89]), so a pitch in
    [-90, 90] stays there. *)
Lemma updateGamepad_pitch (pads : list (option Gamepad))
    (me : Controller * Engine) :
  -90 <= playerPitch (fst me) <= 90 ->
  -90 <= playerPitch (fst (updateGamepad pads me)) <= 90.
Proof.
  intros H. unfold updateGamepad.
  destruct (gamepadIndex (fst me)); [|assumption].
  destruct (nth n pads None); [|assumption].
  repeat match goal with
         | |- context [if ?b then _ else _] => destruct b
         end; simpl; try assumption;
    match goal with
    | |- context [Math_max (-89) (Math_min 89 ?a)] =>
        pose proof (clamp_between (-89) 89 a); lra
    end.
Qed.

End Orientation.

(** ** Azimuth and field of view *)

Section Azimuth.

Import SpatialAudioEngine Visualization.

Lemma while_above_stop (a : R) : a <= 180 -> while_above a = a.
Proof.
  intros H. rewrite while_above_equation_1.
  destruct (Rlt_dec 180 a); [lra|reflexivity].
Qed.

Lemma while_above_step (a : R) :
  180 < a -> while_above a = while_above (a - 360).
Proof.
  intros H. rewrite while_above_equation_1.
  destruct (Rlt_dec 180 a); [reflexivity|lra].
Qed.

Lemma while_below_stop (a : R) : -180 <= a -> while_below a = a.
Proof.
  intros H. rewrite while_below_equation_1.
  destruct (Rlt_dec a (-180)); [lra|reflexivity].
Qed.

Lemma while_below_step (a : R) :
  a < -180 -> while_below a = while_below (a + 360).
Proof.
  intros H. rewrite while_below_equation_1.
  destruct (Rlt_dec a (-180)); [reflexivity|lra].
Qed.

(** The first loop subtracts whole turns until the angle is at most 180; if
    it ran at all, the angle ends above -180. *)
Lemma while_above_spec (a : R) :
  while_above a <= 180
  /\ (180 < a -> -180 < while_above a)
  /\ exists k : nat, while_above a = a - 360 * INR k.
Proof.
  funelim (while_above a).
  - destruct H as [Hle [Hgt [k Hk]]].
    split; [assumption|]. split.
    + intros _. destruct (Rlt_dec 180 (a - 360)) as [Hmore|Hdone].
      * now apply Hgt.
      * rewrite while_above_stop by lra. lra.
    + exists (S k). rewrite Hk, S_INR. lra.
  - split; [lra|]. split; [lra|]. exists 0%nat. simpl. lra.
Qed.

(** The second loop adds whole turns until the angle is at least -180; if it
    ran at all, the angle ends below 180. *)
Lemma while_below_spec (a : R) :
  -180 <= while_below a
  /\ (a < -180 -> while_below a < 180)
  /\ exists k : nat, while_below a = a + 360 * INR k.
Proof.
  funelim (while_below a).
  - destruct H as [Hge [Hlt [k Hk]]].
    split; [assumption|]. split.
    + intros _. destruct (Rlt_dec (a + 360) (-180)) as [Hmore|Hdone].
      * now apply Hlt.
      * rewrite while_below_stop by lra. lra.
    + exists (S k). rewrite Hk, S_INR. lra.
  - split; [lra|]. split; [lra|]. exists 0%nat. simpl. lra.
Qed.

Lemma viewAzimuth_spec (relativeX relativeZ playerFacing : R) :
  let raw := Math_atan2 relativeX relativeZ * (180 / PI) - playerFacing in
  -180 <= viewAzimuth relativeX relativeZ playerFacing <= 180
  /\ exists k : Z,
       viewAzimuth relativeX relativeZ playerFacing = raw + 360 * IZR k.
Proof.
  intros raw. unfold viewAzimuth. fold raw.
  destruct (while_above_spec raw) as [Hle [_ [k1 Hk1]]].
  destruct (while_below_spec (while_above raw)) as [Hge [Hlt [k2 Hk2]]].
  split.
  - split; [assumption|].
    destruct (Rlt_dec (while_above raw) (-180)) as [Hlow|Hok].
    + left. now apply Hlt.
    + rewrite while_below_stop by lra. assumption.
  - exists (Z.of_nat k2 - Z.of_nat k1)%Z.
    rewrite Hk2, Hk1, minus_IZR, <- !INR_IZR_INZ. lra.
Qed.

(** An angle already within [-180, 180] goes through both loops untouched. *)
Lemma viewAzimuth_in_range (relativeX relativeZ playerFacing : R) :
  let raw := Math_atan2 relativeX relativeZ * (180 / PI) - playerFacing in
  -180 <= raw <= 180 ->
  viewAzimuth relativeX relativeZ playerFacing = raw.
Proof.
  intros raw H. unfold viewAzimuth. fold raw.
  rewrite (while_above_stop raw) by lra. apply while_below_stop. lra.
Qed.

Lemma Math_atan2_ahead (a : R) : 0 < a -> Math_atan2 0 a = 0.
Proof.
  intros H. unfold Math_atan2. destruct (Rlt_dec 0 a); [|lra].
  unfold Rdiv. now rewrite Rmult_0_l, atan_0.
Qed.

Lemma Math_atan2_behind (a : R) : a < 0 -> Math_atan2 0 a = PI.
Proof.
  intros H. unfold Math_atan2.
  destruct (Rlt_dec 0 a); [lra|]. destruct (Rlt_dec a 0); [|lra].
  destruct (Rle_dec 0 0); [|lra].
  unfold Rdiv. rewrite Rmult_0_l, atan_0. lra.
Qed.

Lemma Math_atan2_right (b : R) : 0 < b -> Math_atan2 b 0 = PI / 2.
Proof.
  intros H. unfold Math_atan2.
  destruct (Rlt_dec 0 0); [lra|]. destruct (Rlt_dec 0 0); [lra|].
  destruct (Rlt_dec 0 b); [reflexivity|lra].
Qed.

Lemma Math_atan2_left (b : R) : b < 0 -> Math_atan2 b 0 = - (PI / 2).
Proof.
  intros H. unfold Math_atan2.
  destruct (Rlt_dec 0 0); [lra|]. destruct (Rlt_dec 0 0); [lra|].
  destruct (Rlt_dec 0 b); [lra|]. destruct (Rlt_dec b 0); [reflexivity|lra].
Qed.


(** [drawSource] returns at the culling test exactly when the guard holds,
    the source is not at the listener, and its azimuth is beyond 90 on
    either side. *)
Lemma drawSource_BehindViewer (v : Vis) (source : Source) (playerPos : Vec3)
    (playerFacing : R) :
  let relativeX := x (position source) - x playerPos in
  let relativeZ := z (position source) - z playerPos in
  drawSource v source playerPos playerFacing = BehindViewer
  <-> fovCulling v = true
      /\ 0.001 <= sqrt (relativeX * relativeX + relativeZ * relativeZ)
      /\ 90 < Rabs (viewAzimuth relativeX relativeZ playerFacing).
Proof.
  intros relativeX relativeZ. unfold drawSource.
  destruct (compositionMode v); cbv zeta; cbv beta iota;
    fold relativeX; fold relativeZ;
    match goal with
    | |- context [if ?c then OffScreen else ?d] =>
        assert (Hrest : (if c then OffScreen else d) <> BehindViewer)
          by (destruct c; discriminate);
        set (rest := if c then OffScreen else d) in *
    end;
    (destruct (Rlt_dec (sqrt (relativeX * relativeX + relativeZ * relativeZ))
                 0.001) as [Hnear|Hfar];
     [split; [discriminate|intros [_ [H _]]; lra]|]);
    (destruct (fovCulling v); simpl;
     [|split; [intros H; contradiction|intros [H _]; discriminate]]);
    (destruct (Rlt_dec 90 (Rabs (viewAzimuth relativeX relativeZ playerFacing)))
       as [Hout|Hin];
     [split; [intros _; repeat split; lra|reflexivity]
     |split; [intros H; contradiction|intros [_ [_ H]]; lra]]).
Qed.

End Azimuth.

(** ** Field-of-view culling *)

Section Culling.

Import SpatialAudioEngine Visualization.

Lemma viewAzimuth_straight_behind :
  viewAzimuth (0 - 0) (-1 - 0) 0 = 180.
Proof.
  replace (0 - 0) with 0 by lra. replace (-1 - 0) with (-1) by lra.
  assert (Hraw : Math_atan2 0 (-1) * (180 / PI) - 0 = 180).
  { rewrite Math_atan2_behind by lra. field. apply PI_neq0. }
  rewrite viewAzimuth_in_range; rewrite Hraw; lra.
Qed.

(** C4 does not hold of [drawSource]: in first-person view and authoring mode,
    with the listener at the origin facing 0, a source one unit straight
    behind is culled by azimuth. *)
Lemma culled_in_authoring_mode :
  viewMode firstPersonAuthoring = "firstperson"%string
  /\ compositionMode firstPersonAuthoring = false
  /\ drawSource firstPersonAuthoring (sourceAt (mkVec3 0 0 (-1)))
       (mkVec3 0 0 0) 0 = BehindViewer.
Proof.
  split; [reflexivity|]. split; [reflexivity|].
  apply drawSource_BehindViewer. simpl.
  split; [reflexivity|]. split.
  - replace ((0 - 0) * (0 - 0) + (-1 - 0) * (-1 - 0)) with 1 by ring.
    rewrite sqrt_1. lra.
  - rewrite viewAzimuth_straight_behind. rewrite Rabs_right; lra.
Qed.

(** C4, as the code has it.  While [positionsLocked] is unset, as it is in every state
    the application reaches, the culling guard holds exactly in first-person
    view, whatever the reference-frame mode: [drawSource] culls a source
    exactly when the view is first-person, the source is not at the
    listener, and its azimuth is beyond 90 on either side.  In any other
    view nothing is culled by azimuth. *)
Theorem fov_culling_iff_first_person (v : Vis) (source : Source)
    (playerPos : Vec3) (playerFacing : R) :
  positionsLocked v = None ->
  let relativeX := x (position source) - x playerPos in
  let relativeZ := z (position source) - z playerPos in
  (fovCulling v = true <-> viewMode v = "firstperson"%string)
  /\ (drawSource v source playerPos playerFacing = BehindViewer
      <-> viewMode v = "firstperson"%string
          /\ 0.001 <= sqrt (relativeX * relativeX + relativeZ * relativeZ)
          /\ 90 < Rabs (viewAzimuth relativeX relativeZ playerFacing)).
Proof.
  intros Hunset relativeX relativeZ.
  assert (Hguard : fovCulling v = true <-> viewMode v = "firstperson"%string).
  { unfold fovCulling. rewrite Hunset. simpl.
    rewrite andb_true_r. apply String.eqb_eq. }
  split; [exact Hguard|].
  rewrite <- Hguard. apply drawSource_BehindViewer.
Qed.

(** The statement above at [firstPersonAuthoring]. *)
Lemma fov_culling_iff_first_person_witness :
  fovCulling firstPersonAuthoring = true
  <-> viewMode firstPersonAuthoring = "firstperson"%string.
Proof.
  exact (proj1 (fov_culling_iff_first_person firstPersonAuthoring
                  (sourceAt (mkVec3 0 0 (-1))) (mkVec3 0 0 0) 0 eq_refl)).
Defined.

(** C5 does not hold at the lower end of the range: with the listener turned to 180, a
    source one unit along +z has azimuth exactly -180, which the half-open
    range (-180, 180] excludes. *)
Lemma viewAzimuth_reaches_minus_180 :
  viewAzimuth 0 1 180 = -180
  /\ ~ (-180 < viewAzimuth 0 1 180 <= 180).
Proof.
  assert (Hraw : Math_atan2 0 1 * (180 / PI) - 180 = -180).
  { rewrite Math_atan2_ahead by lra. lra. }
  assert (H : viewAzimuth 0 1 180 = -180).
  { rewrite viewAzimuth_in_range; rewrite Hraw; lra. }
  split; [exact H|]. rewrite H. lra.
Qed.

(** C5, as the code has it.  The view-relative azimuth is the angle
    [atan2(relativeX, relativeZ)] in degrees minus the listener yaw, moved
    by whole turns into the closed range [-180, 180].  When the culling
    guard holds and the source is not at the listener, the source passes
    the culling test exactly when its azimuth is at most 90 on either
    side. *)
Theorem viewAzimuth_range_and_fov (v : Vis) (source : Source)
    (playerPos : Vec3) (playerFacing : R) :
  let relativeX := x (position source) - x playerPos in
  let relativeZ := z (position source) - z playerPos in
  let azimuth := viewAzimuth relativeX relativeZ playerFacing in
  fovCulling v = true ->
  0.001 <= sqrt (relativeX * relativeX + relativeZ * relativeZ) ->
  -180 <= azimuth <= 180
  /\ (exists k : Z,
        azimuth = Math_atan2 relativeX relativeZ * (180 / PI) - playerFacing
                  + 360 * IZR k)
  /\ (drawSource v source playerPos playerFacing <> BehindViewer
      <-> Rabs azimuth <= 90).
Proof.
  intros relativeX relativeZ azimuth Hguard Hfar.
  destruct (viewAzimuth_spec relativeX relativeZ playerFacing)
    as [Hrange Hturns].
  split; [exact Hrange|]. split; [exact Hturns|].
  pose proof (drawSource_BehindViewer v source playerPos playerFacing)
    as Hculled.
  cbv zeta in Hculled. fold relativeX relativeZ azimuth in Hculled.
  split.
  - intros Hdrawn. destruct (Rle_lt_dec (Rabs azimuth) 90) as [Hin|Hout];
      [assumption|].
    exfalso. apply Hdrawn. apply Hculled. now repeat split.
  - intros Hin Heq. apply Hculled in Heq as [_ [_ Hout]]. lra.
Qed.

Lemma viewAzimuth_straight_right :
  viewAzimuth (10 - 0) (0 - 0) 0 = 90.
Proof.
  replace (0 - 0) with 0 by lra. replace (10 - 0) with 10 by lra.
  assert (Hraw : Math_atan2 10 0 * (180 / PI) - 0 = 90).
  { rewrite Math_atan2_right by lra. field. apply PI_neq0. }
  rewrite viewAzimuth_in_range; rewrite Hraw; lra.
Qed.

(** The statement above for the listener at the origin facing 0 and a
    source at (10, 0, 0), in first-person view: the azimuth is 90, on the
    boundary, and the source passes the culling test. *)
Lemma viewAzimuth_range_and_fov_witness :
  viewAzimuth (10 - 0) (0 - 0) 0 = 90
  /\ drawSource firstPersonComposition (sourceAt (mkVec3 10 0 0))
       (mkVec3 0 0 0) 0 <> BehindViewer.
Proof.
  split; [exact viewAzimuth_straight_right|].
  assert (Hfar : 0.001 <= sqrt ((10 - 0) * (10 - 0) + (0 - 0) * (0 - 0))).
  { replace ((10 - 0) * (10 - 0) + (0 - 0) * (0 - 0)) with (10 * 10) by ring.
    rewrite sqrt_square; lra. }
  destruct (viewAzimuth_range_and_fov firstPersonComposition
              (sourceAt (mkVec3 10 0 0)) (mkVec3 0 0 0) 0 eq_refl Hfar)
    as [_ [_ Hiff]].
  apply Hiff. simpl. rewrite viewAzimuth_straight_right.
  rewrite Rabs_right; lra.
Defined.

(** Just past the boundary a source is culled: an azimuth of 90.0001 on
    either side fails the test. *)
Lemma culled_just_past_90 (v : Vis) (source : Source) (playerPos : Vec3)
    (playerFacing : R) :
  let relativeX := x (position source) - x playerPos in
  let relativeZ := z (position source) - z playerPos in
  fovCulling v = true ->
  0.001 <= sqrt (relativeX * relativeX + relativeZ * relativeZ) ->
  Rabs (viewAzimuth relativeX relativeZ playerFacing) = 90.0001 ->
  drawSource v source playerPos playerFacing = BehindViewer.
Proof.
  intros relativeX relativeZ Hguard Hfar Haz.
  apply drawSource_BehindViewer. cbv zeta.
  fold relativeX relativeZ. rewrite Haz. repeat split; try assumption. lra.
Qed.

End Culling.

(** ** Dragging *)

Section Dragging.

Import SpatialAudioEngine Visualization.

(** The inverse used while dragging undoes the projection used when the
    drag started. *)
Lemma dragTarget_screenPosition (v : Vis) (p : Vec3) (mouseX mouseY : R) :
  scale v <> 0 ->
  dragOffset v = mkVec2 (mouseX - x2 (screenPosition v p))
                        (mouseY - y2 (screenPosition v p)) ->
  dragTarget v mouseX mouseY (y p) = p.
Proof.
  intros Hscale Hoff. unfold dragTarget. rewrite Hoff.
  unfold screenPosition. destruct p as [px py pz].
  destruct (compositionMode v); simpl; f_equal; field; assumption.
Qed.

(** C2.  With a scale that is not zero, in either reference-frame mode and
    for any listener position: when the drag offset is the offset of the
    mouse from the screen position of a source at [p], as [onMouseDown]
    records it, the world position [onMouseMove] computes for that same
    mouse position is [p]; x and z are recovered exactly and the height is
    carried through.  So a press on a source followed by a move that stays
    on the pixel writes the source's own position back. *)
Theorem drag_target_inverts_projection (deref : nat -> option Source)
    (v : Vis) (e : Engine) (ev : MouseEvent) (p : Vec3) :
  scale v <> 0 ->
  let mouseX := clientX ev - rectLeft (canvas v) in
  let mouseY := clientY ev - rectTop (canvas v) in
  (dragOffset v = mkVec2 (mouseX - x2 (screenPosition v p))
                         (mouseY - y2 (screenPosition v p)) ->
   dragTarget v mouseX mouseY (y p) = p)
  /\ (forall r off,
        pick deref v mouseX mouseY (sources v) = Some (r, off) ->
        exists s,
          deref r = Some s
          /\ onMouseMove deref false ev (onMouseDown deref false ev v, e)
             = (onMouseDown deref false ev v,
                setSourcePosition (id s) (position s) e)).
Proof.
  intros Hscale mouseX mouseY. split.
  - now apply dragTarget_screenPosition.
  - intros r off Hpick.
    destruct (pick_offset _ _ _ _ _ _ _ Hpick) as [s [Hderef [_ Hoff]]].
    exists s. split; [assumption|].
    unfold onMouseDown, onMouseMove. fold mouseX mouseY. rewrite Hpick.
    simpl. rewrite Hderef. f_equal. f_equal.
    apply dragTarget_screenPosition; [exact Hscale|exact Hoff].
Qed.

(** The statement of C2 at [draggingOnSource] with the mouse at
    (500, 300), where a source at (5, 0, 0) is drawn. *)
Lemma drag_target_inverts_projection_witness :
  dragTarget draggingOnSource 500 300 0 = mkVec3 5 0 0.
Proof.
  destruct (drag_target_inverts_projection (fun _ => None) draggingOnSource
              SpatialAudioEngine.constructor (mkMouseEvent 500 300)
              (mkVec3 5 0 0)) as [H _].
  - simpl. lra.
  - simpl in H. replace (500 - 0) with 500 in H by lra.
    replace (300 - 0) with 300 in H by lra.
    apply H. f_equal; lra.
Defined.

(** In composition mode, scale 20 and centre (400, 300), a source at
    (10, 0, 0) is drawn at (600, 300). *)
Lemma screenPosition_at_10 :
  screenPosition (constructor canvas800) (mkVec3 10 0 0) = mkVec2 600 300.
Proof. unfold screenPosition. simpl. f_equal; lra. Qed.

(** Moving the mouse of that drag to (300, 300) asks for x = -5 and leaves z
    alone. *)
Lemma drag_to_300_300 :
  dragTarget draggingOnSource 300 300 0 = mkVec3 (-5) 0 0.
Proof. unfold dragTarget. simpl. f_equal; lra. Qed.

End Dragging.

(** ** What the spatializer is fed *)

Section Spatializer.

Import SpatialAudioEngine.

Lemma panners_ok_update (k : nat) (f : Source -> Source) (e : Engine) :
  (forall s, panner_ok (listener e) (k, s) -> panner_ok (listener e) (k, f s)) ->
  panners_ok e -> panners_ok (with_sources (map_update k f (sources e)) e).
Proof. intros Hf H. unfold panners_ok. simpl. now apply map_update_Forall. Qed.

Lemma panner_ok_clear_route (l : Vec3) (k : nat) (s : Source) :
  panner_ok l (k, clear_route s).
Proof. intros offset H. discriminate. Qed.

Lemma panners_ok_stopSource (i : nat) (e : Engine) :
  panners_ok e -> panners_ok (stopSource i e).
Proof.
  intros H. unfold stopSource.
  destruct (map_get i (sources e)) as [s|]; [|assumption].
  destruct (node s); [|assumption].
  apply (panners_ok_update i clear_route e); [|assumption].
  intros s' _. apply panner_ok_clear_route.
Qed.

Lemma panners_ok_startSource (i : nat) (e : Engine) :
  panners_ok e -> panners_ok (startSource i e).
Proof.
  intros H. unfold startSource.
  destruct (map_get i (sources e)) as [s|]; [|assumption].
  destruct (audioContext e) as [ctx|]; [|assumption].
  unfold panners_ok. simpl. apply map_update_Forall; [|assumption].
  intros s' _ offset Hoff. simpl in Hoff. now injection Hoff as <-.
Qed.

Lemma panners_ok_removeSource (i : nat) (e : Engine) :
  panners_ok e -> panners_ok (removeSource i e).
Proof.
  intros H. unfold removeSource.
  destruct (map_get i (sources e)); [|assumption].
  apply panners_ok_stopSource with (i := i) in H.
  unfold panners_ok in *. simpl. now apply map_delete_Forall.
Qed.

Lemma panners_ok_createSource (b : AudioBuffer) (nm : string)
    (pos : option Vec3) (e : Engine) :
  panners_ok e -> panners_ok (snd (createSource b nm pos e)).
Proof.
  intros H. unfold panners_ok, createSource. simpl.
  apply map_set_Forall; [|assumption].
  intros offset Hoff. discriminate.
Qed.

Lemma panners_ok_setSourcePosition (i : nat) (p : Vec3) (e : Engine) :
  panners_ok e -> panners_ok (setSourcePosition i p e).
Proof.
  intros H. unfold setSourcePosition.
  destruct (map_get i (sources e)); [|assumption].
  apply panners_ok_update; [|assumption].
  intros s' _ offset. simpl.
  destruct (panner s') eqn:Hp; simpl; [|congruence].
  intros Hoff. now injection Hoff as <-.
Qed.

Lemma panners_ok_updateListenerPosition (p : Vec3) (e : Engine) :
  panners_ok (updateListenerPosition p e).
Proof.
  unfold panners_ok, updateListenerPosition. simpl.
  rewrite Forall_map. apply Forall_forall. intros [k s] _ offset. simpl.
  destruct (panner s) eqn:Hp; simpl; [|congruence].
  intros Hoff. now injection Hoff as <-.
Qed.

Lemma panners_ok_lock (i : nat) (f : Source -> bool) (e : Engine) :
  panners_ok e ->
  panners_ok (with_sources
                (map_update i (fun s => set_locked (f s) s) (sources e)) e).
Proof.
  intros H. apply panners_ok_update; [|assumption].
  intros s Hs offset. exact (Hs offset).
Qed.

Lemma panners_ok_playAll (e : Engine) : panners_ok e -> panners_ok (playAll e).
Proof.
  intros H. unfold playAll. destruct (audioContext e); [|assumption].
  apply (forEach_id_preserves panners_ok startSource panners_ok_startSource)
    in H.
  exact H.
Qed.

Lemma panners_ok_pauseAll (e : Engine) : panners_ok e -> panners_ok (pauseAll e).
Proof.
  intros H.
  apply (forEach_id_preserves panners_ok stopSource panners_ok_stopSource)
    in H.
  exact H.
Qed.

Lemma panners_ok_orientation (yaw pitch : R) (e : Engine) :
  panners_ok e -> panners_ok (updateListenerOrientation yaw pitch e).
Proof.
  intros H. unfold updateListenerOrientation.
  destruct (audioContext e); exact H.
Qed.

Lemma listener_stopSource (i : nat) (e : Engine) :
  listener (stopSource i e) = listener e.
Proof.
  unfold stopSource. destruct (map_get i (sources e)) as [s|]; [|reflexivity].
  now destruct (node s).
Qed.

Lemma listener_startSource (i : nat) (e : Engine) :
  listener (startSource i e) = listener e.
Proof.
  unfold startSource. destruct (map_get i (sources e)); [|reflexivity].
  now destruct (audioContext e).
Qed.

Lemma listener_forEach (f : nat -> Engine -> Engine) (e : Engine) :
  (forall i e', listener (f i e') = listener e') ->
  listener (forEach_id f e) = listener e.
Proof.
  intros Hf.
  apply (forEach_id_preserves (fun e' => listener e' = listener e));
    [|reflexivity].
  intros i e' H. now rewrite Hf.
Qed.

Lemma listener_removeSource (i : nat) (e : Engine) :
  listener (removeSource i e) = listener e.
Proof.
  unfold removeSource. destruct (map_get i (sources e)); [|reflexivity].
  simpl. apply listener_stopSource.
Qed.

Lemma listener_setSourcePosition (i : nat) (p : Vec3) (e : Engine) :
  listener (setSourcePosition i p e) = listener e.
Proof.
  unfold setSourcePosition. now destruct (map_get i (sources e)).
Qed.

Lemma listener_orientation (yaw pitch : R) (e : Engine) :
  listener (updateListenerOrientation yaw pitch e) = listener e.
Proof. unfold updateListenerOrientation. now destruct (audioContext e). Qed.

Lemma in_tune_movePlayer (dx dy dz : R)
    (me : MovementController.Controller * Engine) :
  in_tune (MovementController.movePlayer dx dy dz me).
Proof.
  unfold MovementController.movePlayer, in_tune. simpl. split.
  - unfold updateListenerPosition. simpl.
    now destruct (MovementController.clampToBubble _ _).
  - apply panners_ok_updateListenerPosition.
Qed.

Lemma in_tune_orientation (facing pitch : R)
    (me : MovementController.Controller * Engine) :
  in_tune me ->
  in_tune (MovementController.with_orientation facing pitch (fst me),
           updateListenerOrientation facing pitch (snd me)).
Proof.
  intros [H1 H2]. split; simpl.
  - now rewrite listener_orientation.
  - now apply panners_ok_orientation.
Qed.

Lemma in_tune_handle (i : MovementController.Input)
    (me : MovementController.Controller * Engine) :
  in_tune me -> in_tune (MovementController.handle i me).
Proof.
  intros H. destruct i; simpl; try exact H.
  - unfold MovementController.handleKeyDown.
    repeat match goal with
           | |- context [if ?b then _ else _] => destruct b
           end; try apply in_tune_movePlayer; exact H.
  - unfold MovementController.handleMouseMove.
    destruct (negb _); [exact H|]. now apply in_tune_orientation.
  - unfold MovementController.updateGamepad.
    destruct (MovementController.gamepadIndex (fst me)); [|exact H].
    destruct (nth n pads None); [|exact H].
    repeat match goal with
           | |- context [if ?b then _ else _] => destruct b
           end;
      repeat first [ apply in_tune_movePlayer
                   | apply in_tune_orientation
                   | exact H ].
  - unfold MovementController.resetPosition, in_tune. simpl. split.
    + rewrite listener_orientation. reflexivity.
    + apply panners_ok_orientation, panners_ok_updateListenerPosition.
Qed.

End Spatializer.

(** ** The running application *)

Section Application.

Import SpatialAudioEngine App.

Lemma app_in_tune_start (ok : bool) (c : Visualization.Canvas) :
  app_in_tune (start ok c).
Proof.
  unfold app_in_tune, in_tune, start, init. simpl.
  destruct ok; simpl; split; try reflexivity; constructor.
Qed.

Lemma onMouseMove_engine (deref : nat -> option Source) (locked : bool)
    (ev : Visualization.MouseEvent) (v : Visualization.Vis) (e : Engine) :
  snd (Visualization.onMouseMove deref locked ev (v, e)) = e
  \/ exists i p,
       snd (Visualization.onMouseMove deref locked ev (v, e))
       = setSourcePosition i p e.
Proof.
  unfold Visualization.onMouseMove. simpl.
  destruct locked; [now left|].
  destruct (Visualization.isDragging v); [|now left].
  destruct (Visualization.draggedSource v) as [r|]; [|now left].
  destruct (deref r) as [dragged|]; [|now left].
  right. now do 2 eexists.
Qed.

Lemma app_in_tune_handle (ev : Event) (a : App) :
  app_in_tune a -> app_in_tune (handle ev a).
Proof.
  unfold app_in_tune, in_tune. intros [H1 H2].
  destruct ev;
    cbn [handle with_engine with_visualization audioEngine movement
         visualization fst snd] in *;
    try (split; assumption).
  - apply in_tune_handle. now split.
  - split; [exact H1|]. now apply panners_ok_createSource.
  - split.
    + rewrite <- H1. unfold playAll.
      destruct (audioContext (audioEngine a)); [|reflexivity].
      cbn [with_playing listener].
      apply listener_forEach, listener_startSource.
    + now apply panners_ok_playAll.
  - split.
    + rewrite <- H1. unfold pauseAll. cbn [with_playing listener].
      apply listener_forEach, listener_stopSource.
    + now apply panners_ok_pauseAll.
  - split; [exact H1|]. unfold onended.
    apply (panners_ok_update sourceId clear_route); [|assumption].
    intros s _. apply panner_ok_clear_route.
  - split.
    + now rewrite listener_removeSource.
    + now apply panners_ok_removeSource.
  - unfold toggleSourceLock.
    destruct (map_get sourceId (sources (audioEngine a)));
      cbn [snd]; split; try assumption.
    now apply (panners_ok_lock sourceId (fun s => negb (locked s))).
  - split.
    + now rewrite listener_setSourcePosition.
    + now apply panners_ok_setSourcePosition.
  - destruct (onMouseMove_engine (deref a) pointerLocked e
                (visualization a) (audioEngine a)) as [->|[i [p ->]]];
      split; try assumption.
    + now rewrite listener_setSourcePosition.
    + now apply panners_ok_setSourcePosition.
Qed.

Lemma app_in_tune_handle_all (l : list Event) (a : App) :
  app_in_tune a -> app_in_tune (handle_all l a).
Proof.
  revert a. induction l as [|ev rest IH]; intros a H; simpl; [exact H|].
  apply IH, app_in_tune_handle, H.
Qed.

(** C6.  In any state the application reaches, a click on the mode toggle
    leaves the offset held by every panner as it is, and that offset is the
    position of the source minus the position of the player. *)
Theorem mode_toggle_keeps_spatializer_offsets (ok : bool)
    (c : Visualization.Canvas) (history : list Event) (i : nat) :
  let a := handle_all history (start ok c) in
  spatializerOffset (handle ModeToggle a) i = spatializerOffset a i
  /\ (forall s offset,
        getSource i (audioEngine a) = Some s ->
        panner s = Some offset ->
        offset = relativeTo (MovementController.player (movement a))
                   (position s)).
Proof.
  intros a. split; [reflexivity|].
  intros s offset Hget Hpanner.
  destruct (app_in_tune_handle_all history (start ok c)
              (app_in_tune_start ok c)) as [Hlistener Hpanners].
  fold a in Hlistener, Hpanners. simpl in Hlistener, Hpanners.
  rewrite <- Hlistener.
  apply map_get_In in Hget. unfold panners_ok in Hpanners.
  rewrite Forall_forall in Hpanners.
  exact (Hpanners _ Hget offset Hpanner).
Qed.

(** The statement of C6 after [oneTrackPlaying]: the panner of source 1
    holds the source position relative to the player, before and after a
    click on the mode toggle. *)
Lemma mode_toggle_keeps_spatializer_offsets_witness :
  let a := handle_all oneTrackPlaying (start true canvas800) in
  exists s offset,
    getSource 1 (audioEngine a) = Some s
    /\ panner s = Some offset
    /\ offset = relativeTo (MovementController.player (movement a))
                  (position s)
    /\ spatializerOffset (handle ModeToggle a) 1 = spatializerOffset a 1.
Proof.
  intros a.
  assert (Hget : exists s offset,
             getSource 1 (audioEngine a) = Some s /\ panner s = Some offset).
  { do 2 eexists. split; reflexivity. }
  destruct Hget as [s [offset [Hget Hpanner]]].
  destruct (mode_toggle_keeps_spatializer_offsets true canvas800
              oneTrackPlaying 1) as [Hsame Hoffset].
  exists s, offset. split; [exact Hget|]. split; [exact Hpanner|].
  split; [exact (Hoffset s offset Hget Hpanner)|exact Hsame].
Defined.

(** No event assigns [positionsLocked]: it stays unset. *)
Lemma positionsLocked_onMouseDown (deref : nat -> option Source)
    (locked : bool) (ev : Visualization.MouseEvent) (v : Visualization.Vis) :
  Visualization.positionsLocked (Visualization.onMouseDown deref locked ev v)
  = Visualization.positionsLocked v.
Proof.
  unfold Visualization.onMouseDown. destruct locked; [reflexivity|].
  destruct (Visualization.pick _ _ _ _ _) as [[r off]|]; reflexivity.
Qed.

Lemma positionsLocked_onMouseMove (deref : nat -> option Source)
    (locked : bool) (ev : Visualization.MouseEvent) (v : Visualization.Vis)
    (e : Engine) :
  Visualization.positionsLocked
    (fst (Visualization.onMouseMove deref locked ev (v, e)))
  = Visualization.positionsLocked v.
Proof.
  unfold Visualization.onMouseMove. simpl. destruct locked; [reflexivity|].
  destruct (Visualization.isDragging v); [|reflexivity].
  destruct (Visualization.draggedSource v) as [r|]; [|reflexivity].
  destruct (deref r); reflexivity.
Qed.

Lemma positionsLocked_handle (ev : Event) (a : App) :
  Visualization.positionsLocked (visualization (handle ev a))
  = Visualization.positionsLocked (visualization a).
Proof.
  destruct ev; simpl; try reflexivity.
  - apply positionsLocked_onMouseDown.
  - apply positionsLocked_onMouseMove.
Qed.

Lemma positionsLocked_never_set (ok : bool) (c : Visualization.Canvas)
    (history : list Event) :
  Visualization.positionsLocked
    (visualization (handle_all history (start ok c))) = None.
Proof.
  assert (H : forall l a,
             Visualization.positionsLocked (visualization (handle_all l a))
             = Visualization.positionsLocked (visualization a)).
  { induction l as [|ev rest IH]; intros a; simpl; [reflexivity|].
    unfold handle_all in IH. rewrite IH. apply positionsLocked_handle. }
  rewrite H. reflexivity.
Qed.

End Application.

(** ** Coordinate entry *)

Section CoordinateEntry.

Import SpatialAudioEngine SourceManager.

Variable parseFloat : string -> option R.
Variable toFixed1 : R -> string.

Lemma filter_renderSource (i : nat) (s : Source) :
  filter (fun inp => Nat.eqb (dataSourceId inp) i) (renderSource toFixed1 s)
  = if Nat.eqb (id s) i then renderSource toFixed1 s else [].
Proof. unfold renderSource. simpl. now destruct (Nat.eqb (id s) i). Qed.

Lemma filter_rendered_absent (i : nat) (m : list (nat * Source)) :
  Forall (fun kv => id (snd kv) = fst kv) m ->
  ~ In i (map fst m) ->
  filter (fun inp => Nat.eqb (dataSourceId inp) i)
    (flat_map (renderSource toFixed1) (map snd m)) = [].
Proof.
  induction 1 as [|[k s] rest Hid Hrest IH]; cbn [map flat_map snd fst];
    intros Hnotin; [reflexivity|].
  rewrite filter_app, filter_renderSource. cbn [snd fst] in Hid. rewrite Hid.
  destruct (Nat.eqb_spec k i) as [->|Hne]; [exfalso; apply Hnotin; now left|].
  cbn [app]. apply IH. intros Hin. apply Hnotin. now right.
Qed.

Lemma filter_rendered_present (i : nat) (s : Source)
    (m : list (nat * Source)) :
  Forall (fun kv => id (snd kv) = fst kv) m ->
  NoDup (map fst m) ->
  map_get i m = Some s ->
  filter (fun inp => Nat.eqb (dataSourceId inp) i)
    (flat_map (renderSource toFixed1) (map snd m)) = renderSource toFixed1 s.
Proof.
  induction 1 as [|[k s'] rest Hid Hrest IH];
    cbn [map flat_map snd fst map_get]; intros Hnd Hget; [discriminate|].
  inversion Hnd as [|? ? Hnotin Hnd']; subst.
  rewrite filter_app, filter_renderSource. cbn [snd fst] in Hid. rewrite Hid.
  destruct (Nat.eqb_spec i k) as [->|Hne].
  - injection Hget as ->. rewrite Nat.eqb_refl.
    rewrite filter_rendered_absent by assumption. apply app_nil_r.
  - destruct (Nat.eqb_spec k i) as [->|_]; [contradiction|].
    cbn [app]. now apply IH.
Qed.

(** After [updateSourceList], the fields found for a source of the scene
    are the three that [renderSource] emits for it, for x, y and z. *)
Lemma coordInputs_rendered (e : Engine) (p : Panel) (i : nat) (s : Source) :
  wf e -> getSource i e = Some s ->
  coordInputs i (updateSourceList toFixed1 e p) = renderSource toFixed1 s.
Proof.
  intros [Hnd Hall] Hget. unfold coordInputs, updateSourceList, getSources.
  simpl. apply filter_rendered_present; try assumption.
  eapply Forall_impl; [|exact Hall]. now intros kv [H _].
Qed.

(** Typing into a field changes its text and nothing else: the fields
    found for a source keep their axes and their order. *)
Lemma coordInputs_typeInto (i j : nat) (ax text : string) (p : Panel) :
  coordInputs i (typeInto j ax text p)
  = map (fun inp =>
           if (Nat.eqb (dataSourceId inp) j && String.eqb (axis inp) ax)%bool
           then mkCoordInput (dataSourceId inp) (axis inp) text (disabled inp)
           else inp)
        (coordInputs i p).
Proof.
  unfold coordInputs, typeInto. simpl.
  induction (sourceListEl p) as [|inp rest IH]; simpl; [reflexivity|].
  destruct (Nat.eqb (dataSourceId inp) j && String.eqb (axis inp) ax)%bool
    eqn:Hedit; simpl;
    destruct (Nat.eqb (dataSourceId inp) i); simpl; rewrite ?Hedit, IH;
    reflexivity.
Qed.

(** C9.  For a source of the scene whose fields in the panel are the three
    for x, y and z: if all three texts parse, the engine receives one
    [setSourcePosition] call with the three parsed values and nothing is
    shown; if any of them does not parse, the engine is left untouched and
    the rejection message is shown. *)
Theorem updateSourcePosition_all_or_nothing (p : Panel) (e : Engine)
    (i : nat) (s : Source) (tx ty tz : string) (dx dy dz : bool) :
  getSource i e = Some s ->
  coordInputs i p
  = [ mkCoordInput i "x" tx dx; mkCoordInput i "y" ty dy;
      mkCoordInput i "z" tz dz ] ->
  updateSourcePosition parseFloat i (p, e)
  = match parseFloat tx, parseFloat ty, parseFloat tz with
    | Some a, Some b, Some c =>
        Some (p, setSourcePosition i (mkVec3 a b c) e)
    | _, _, _ => Some (alert invalidMessage p, e)
    end.
Proof.
  intros Hget Hinputs. unfold updateSourcePosition. simpl.
  rewrite Hget, Hinputs. unfold readInput. simpl.
  destruct (parseFloat tx); destruct (parseFloat ty);
    destruct (parseFloat tz); reflexivity.
Qed.

End CoordinateEntry.

Section CoordinateEntryExample.

Import SpatialAudioEngine SourceManager.

(** The statement of C9 at that panel: the entry is rejected with the
    message and the scene is untouched. *)
Lemma updateSourcePosition_all_or_nothing_witness :
  updateSourcePosition parseUnsigned 1 (typedPanel, oneSource)
  = Some (alert invalidMessage typedPanel, oneSource).
Proof.
  exact (updateSourcePosition_all_or_nothing parseUnsigned typedPanel
           oneSource 1
           (mkSource 1 "track.mp3" 0%nat (mkVec3 5 0 0) 1 false
              None None None false)
           "7" "up" "9" false false false eq_refl eq_refl).
Defined.

(** With 8 for the height instead, the three values are written at once. *)
Lemma coordinate_entry_accepted :
  updateSourcePosition parseUnsigned 1
    (typeInto 1 "y" "8" typedPanel, oneSource)
  = Some (typeInto 1 "y" "8" typedPanel,
          setSourcePosition 1 (mkVec3 (INR 7) (INR 8) (INR 9)) oneSource).
Proof. reflexivity. Qed.

End CoordinateEntryExample.

(** ** Playback routes and volumes *)

Section Routes.

Import SpatialAudioEngine.

Lemma route_ok_clear_route (s : Source) : route_ok (clear_route s).
Proof. left. now repeat split. Qed.

Lemma volume_ok_clear_route (s : Source) :
  volume_ok s -> volume_ok (clear_route s).
Proof. intros [H _]. split; [exact H|]. intros g Hg. discriminate. Qed.

Lemma clamp_unit (v : R) : 0 <= Math_max 0 (Math_min 1 v) <= 1.
Proof.
  unfold Math_max, Math_min, Rmax, Rmin.
  destruct (Rle_dec 1 v); destruct (Rle_dec 0 _); lra.
Qed.

Lemma entries_ok_update (k : nat) (f : Source -> Source) (e : Engine) :
  (forall s, route_ok s /\ volume_ok s -> route_ok (f s) /\ volume_ok (f s)) ->
  entries_ok e -> entries_ok (with_sources (map_update k f (sources e)) e).
Proof.
  intros Hf H. unfold entries_ok. simpl.
  apply map_update_Forall; [|exact H]. intros s. apply Hf.
Qed.

Lemma entries_ok_stopSource (i : nat) (e : Engine) :
  entries_ok e -> entries_ok (stopSource i e).
Proof.
  intros H. unfold stopSource.
  destruct (map_get i (sources e)) as [s|]; [|assumption].
  destruct (node s); [|assumption].
  apply (entries_ok_update i clear_route e); [|assumption].
  intros s' [_ Hv].
  split; [apply route_ok_clear_route|now apply volume_ok_clear_route].
Qed.

Lemma entries_ok_startSource (i : nat) (e : Engine) :
  entries_ok e -> entries_ok (startSource i e).
Proof.
  intros H. unfold startSource.
  destruct (map_get i (sources e)) as [s|]; [|assumption].
  destruct (audioContext e) as [ctx|]; [|assumption].
  unfold entries_ok. simpl. apply map_update_Forall; [|exact H].
  intros s' [_ [Hv _]]. simpl. split.
  - right. simpl. repeat split; discriminate.
  - split; simpl; [exact Hv|]. intros g Hg. now injection Hg as <-.
Qed.

Lemma entries_ok_step (o : Op) (e : Engine) :
  entries_ok e -> entries_ok (snd (step o e)).
Proof.
  intros H. destruct o; simpl.
  - unfold init. destruct (initialized e); [assumption|].
    destruct ok; exact H.
  - unfold entries_ok. simpl. apply map_set_Forall; [|exact H]. simpl.
    split; [left; now repeat split|].
    split; simpl; [lra|]. intros g Hg. discriminate.
  - unfold removeSource.
    destruct (map_get sourceId (sources e)); [|assumption].
    apply entries_ok_stopSource with (i := sourceId) in H.
    unfold entries_ok in *. simpl. now apply map_delete_Forall.
  - now apply entries_ok_startSource.
  - now apply entries_ok_stopSource.
  - apply (entries_ok_update sourceId clear_route e); [|assumption].
    intros s' [_ Hv].
    split; [apply route_ok_clear_route|now apply volume_ok_clear_route].
  - unfold playAll. destruct (audioContext e); [|assumption].
    apply (forEach_id_preserves entries_ok startSource
             entries_ok_startSource) in H.
    exact H.
  - apply (forEach_id_preserves entries_ok stopSource entries_ok_stopSource)
      in H.
    exact H.
  - unfold setSourceVolume.
    destruct (map_get sourceId (sources e)); [|assumption].
    apply entries_ok_update; [|assumption].
    intros s' [Hr _]. simpl.
    destruct (gainNode s') eqn:Hg; simpl.
    + split.
      * destruct Hr as [[_ [_ [Hnone _]]]|Hsome]; [congruence|].
        right. simpl. destruct Hsome as [H1 [H2 [_ H4]]].
        repeat split; try assumption. discriminate.
      * split; simpl; [apply clamp_unit|].
        intros g Hg'. now injection Hg' as <-.
    + split.
      * destruct Hr as [Hnone|[_ [_ [Hsome _]]]]; [|congruence].
        left. exact Hnone.
      * split; simpl; [apply clamp_unit|]. rewrite Hg. discriminate.
  - unfold setSourcePosition.
    destruct (map_get sourceId (sources e)); [|assumption].
    apply entries_ok_update; [|assumption].
    intros s' [Hr Hv]. simpl.
    destruct (panner s') eqn:Hp; simpl.
    + split; [|exact Hv].
      destruct Hr as [[_ [Hnone _]]|Hsome]; [congruence|].
      right. simpl. destruct Hsome as [H1 [_ [H3 H4]]].
      repeat split; try assumption. discriminate.
    + split; [|exact Hv].
      destruct Hr as [Hnone|[_ [Hsome _]]]; [|congruence].
      left. simpl. destruct Hnone as [H1 [_ [H3 H4]]].
      repeat split; assumption.
  - unfold entries_ok, updateListenerPosition. simpl.
    rewrite Forall_map. eapply Forall_impl; [|exact H].
    intros [k s'] [Hr Hv]. simpl in *.
    destruct (panner s') eqn:Hp; simpl; [|now split].
    split; [|exact Hv].
    destruct Hr as [[_ [Hnone _]]|Hsome]; [congruence|].
    right. simpl. destruct Hsome as [H1 [_ [H3 H4]]].
    repeat split; try assumption. discriminate.
  - unfold updateListenerOrientation. destruct (audioContext e); exact H.
  - unfold toggleSourceLock.
    destruct (map_get sourceId (sources e)); [|assumption].
    apply (entries_ok_update sourceId
             (fun s => set_locked (negb (locked s)) s)); [|assumption].
    intros s' Hs'. exact Hs'.
  - unfold setSourceLocked.
    destruct (map_get sourceId (sources e)); [|assumption].
    apply (entries_ok_update sourceId (set_locked b)); [|assumption].
    intros s' Hs'. exact Hs'.
Qed.

Lemma entries_ok_run (ops : list Op) (e : Engine) :
  entries_ok e -> entries_ok (snd (run ops e)).
Proof.
  revert e. induction ops as [|o rest IH]; simpl; intros e H; [assumption|].
  apply IH, entries_ok_step, H.
Qed.

Lemma entries_ok_constructor : entries_ok constructor.
Proof. constructor. Qed.

Lemma getSources_In (e : Engine) (s : Source) :
  In s (getSources e) -> exists k, In (k, s) (sources e).
Proof.
  unfold getSources. intros H. apply in_map_iff in H as [[k s'] [Heq Hin]].
  simpl in Heq. subst. now exists k.
Qed.

(** X1.  Whatever calls the engine has received since it was constructed,
    every source has a whole playback route or none: node, gain node and
    panner are all present and the source is flagged as playing, or all are
    absent and it is not. *)
Theorem route_is_all_or_nothing (ops : list Op) (s : Source) :
  In s (getSources (snd (run ops constructor))) ->
  (node s = None /\ panner s = None /\ gainNode s = None
   /\ isPlaying s = false)
  \/ (node s <> None /\ panner s <> None /\ gainNode s <> None
      /\ isPlaying s = true).
Proof.
  intros Hin. apply getSources_In in Hin as [k Hin].
  pose proof (entries_ok_run ops constructor entries_ok_constructor) as H.
  unfold entries_ok in H. rewrite Forall_forall in H.
  now destruct (H _ Hin) as [Hr _].
Qed.

(** X2.  Whatever calls the engine has received since it was constructed,
    the volume of every source is within [0, 1], and the gain node of a
    playing source holds exactly that volume. *)
Theorem volume_stays_in_unit_interval (ops : list Op) (s : Source) :
  In s (getSources (snd (run ops constructor))) ->
  0 <= volume s <= 1 /\ forall g, gainNode s = Some g -> g = volume s.
Proof.
  intros Hin. apply getSources_In in Hin as [k Hin].
  pose proof (entries_ok_run ops constructor entries_ok_constructor) as H.
  unfold entries_ok in H. rewrite Forall_forall in H.
  now destruct (H _ Hin) as [_ Hv].
Qed.

(** The statements of X1 and X2 at the source of [playingScene]. *)
Lemma route_is_all_or_nothing_witness :
  (node playingSource = None /\ panner playingSource = None
   /\ gainNode playingSource = None /\ isPlaying playingSource = false)
  \/ (node playingSource <> None /\ panner playingSource <> None
      /\ gainNode playingSource <> None /\ isPlaying playingSource = true).
Proof.
  apply (route_is_all_or_nothing playingOps). simpl. left. reflexivity.
Defined.

Lemma volume_stays_in_unit_interval_witness :
  0 <= volume playingSource <= 1
  /\ forall g, gainNode playingSource = Some g -> g = volume playingSource.
Proof.
  apply (volume_stays_in_unit_interval playingOps). simpl. left. reflexivity.
Defined.

End Routes.

(** ** The trace of node calls *)

Section Trace.

Import SpatialAudioEngine.

Lemma map_get_split (k : nat) (m : list (nat * Source)) (s : Source) :
  map_get k m = Some s ->
  exists pre post, m = pre ++ (k, s) :: post /\ ~ In k (map fst pre).
Proof.
  induction m as [|[k' s'] rest IH]; simpl; [discriminate|].
  destruct (Nat.eqb_spec k k') as [->|Hne]; intros H.
  - injection H as ->. exists [], rest. split; [reflexivity|]. simpl. tauto.
  - destruct (IH H) as [pre [post [-> Hnotin]]].
    exists ((k', s') :: pre), post. split; [reflexivity|].
    simpl. intuition congruence.
Qed.

Lemma map_update_split (k : nat) (f : Source -> Source) (s : Source)
    (pre post : list (nat * Source)) :
  ~ In k (map fst pre) ->
  map_update k f (pre ++ (k, s) :: post) = pre ++ (k, f s) :: post.
Proof.
  induction pre as [|[k' s'] pre IH]; simpl; intros Hnotin.
  - now rewrite Nat.eqb_refl.
  - destruct (Nat.eqb_spec k k') as [->|Hne]; [tauto|].
    rewrite IH; [reflexivity|tauto].
Qed.

Lemma map_delete_split (k : nat) (s : Source) (pre post : list (nat * Source)) :
  ~ In k (map fst pre) ->
  map_delete k (pre ++ (k, s) :: post) = pre ++ post.
Proof.
  induction pre as [|[k' s'] pre IH]; simpl; intros Hnotin.
  - now rewrite Nat.eqb_refl.
  - destruct (Nat.eqb_spec k k') as [->|Hne]; [tauto|].
    rewrite IH; [reflexivity|tauto].
Qed.

Lemma live_of_app (a b : list (nat * Source)) :
  live_of (a ++ b) = live_of a ++ live_of b.
Proof. apply flat_map_app. Qed.

Lemma live_of_update_same (k : nat) (f : Source -> Source)
    (m : list (nat * Source)) :
  (forall s, node (f s) = node s) ->
  live_of (map_update k f m) = live_of m.
Proof.
  intros Hf. induction m as [|[k' s'] rest IH]; simpl; [reflexivity|].
  destruct (Nat.eqb k k'); simpl; [now rewrite Hf|now rewrite IH].
Qed.

Lemma started_app (a b : list NodeCall) :
  started (a ++ b) = started a ++ started b.
Proof.
  induction a as [|[n|n] a IH]; simpl; [reflexivity| |assumption].
  now rewrite IH.
Qed.

Lemma stopped_app (a b : list NodeCall) :
  stopped (a ++ b) = stopped a ++ stopped b.
Proof.
  induction a as [|[n|n] a IH]; simpl; [reflexivity|assumption|].
  now rewrite IH.
Qed.

Lemma In_started (n : nat) (c : list NodeCall) :
  In n (started c) <-> In (NodeStart n) c.
Proof.
  induction c as [|[k|k] c IH]; simpl; [tauto| |].
  - rewrite IH. split; intros [H|H]; auto; left; congruence.
  - rewrite IH. split; [auto|]. intros [H|H]; [discriminate|assumption].
Qed.

Lemma stops_follow_starts_snoc (c : list NodeCall) (call : NodeCall) :
  stops_follow_starts c ->
  (forall n, call = NodeStop n -> In (NodeStart n) c) ->
  stops_follow_starts (c ++ [call]).
Proof.
  intros Hc Hcall before n after.
  destruct after as [|a after'] using rev_ind; intros Heq.
  - apply app_inj_tail in Heq as [-> ->]. now apply Hcall.
  - clear IHafter'.
    change (before ++ NodeStop n :: after' ++ [a])
      with (before ++ (NodeStop n :: after') ++ [a]) in Heq.
    rewrite app_assoc in Heq. apply app_inj_tail in Heq as [Heq _].
    exact (Hc _ _ _ Heq).
Qed.

Lemma NoDup_insert (a b : list nat) (n : nat) :
  NoDup (a ++ b) -> ~ In n (a ++ b) -> NoDup (a ++ n :: b).
Proof.
  induction a as [|h a IH]; simpl; intros Hnd Hnotin.
  - now constructor.
  - inversion Hnd as [|? ? Hh Hrest]; subst. constructor.
    + rewrite in_app_iff in *. simpl. intuition congruence.
    + apply IH; [assumption|tauto].
Qed.

Lemma trace_parts_live (cr : nat) (c : list NodeCall)
    (m m' : list (nat * Source)) :
  trace_parts cr c m -> live_of m' = live_of m -> trace_parts cr c m'.
Proof. unfold trace_parts. intros H ->. exact H. Qed.

Lemma trace_parts_drop (cr : nat) (c : list NodeCall)
    (m m' : list (nat * Source)) (a b : list nat) (n : nat) :
  trace_parts cr c m ->
  live_of m = a ++ n :: b -> live_of m' = a ++ b ->
  trace_parts cr c m'.
Proof.
  unfold trace_parts. intros [H1 [H2 [H3 [H4 [H5 H6]]]]] Hm ->.
  rewrite Hm in H5, H6. repeat split; try assumption.
  - now apply NoDup_remove_1 in H5.
  - rewrite Forall_app in *. destruct H6 as [Ha Hb].
    inversion Hb; subst. now split.
Qed.

Lemma trace_parts_stop (cr : nat) (c : list NodeCall)
    (m m' : list (nat * Source)) (a b : list nat) (n : nat) :
  trace_parts cr c m ->
  live_of m = a ++ n :: b -> live_of m' = a ++ b ->
  trace_parts cr (c ++ [NodeStop n]) m'.
Proof.
  unfold trace_parts. intros [H1 [H2 [H3 [H4 [H5 H6]]]]] Hm ->.
  rewrite Hm in H5, H6.
  assert (Hn : (n < cr)%nat /\ ~ In n (stopped c)).
  { rewrite Forall_app in H6. destruct H6 as [_ Hb]. now inversion Hb. }
  destruct Hn as [Hlt Hfresh].
  rewrite started_app, stopped_app. cbn [started stopped].
  rewrite app_nil_r.
  split; [assumption|]. split.
  { apply NoDup_app; [assumption|constructor; [tauto|constructor]|].
    intros x Hx [<-|[]]. contradiction. }
  split.
  { rewrite Forall_app. split; [assumption|]. now constructor. }
  split.
  { apply stops_follow_starts_snoc; [assumption|].
    intros k Hk. injection Hk as <-. apply In_started. rewrite H1.
    apply in_seq. lia. }
  split; [now apply NoDup_remove_1 in H5|].
  pose proof (NoDup_remove_2 _ _ _ H5) as Hnotin.
  assert (Hall : Forall (fun x => (x < cr)%nat /\ ~ In x (stopped c)) (a ++ b)).
  { rewrite Forall_app in *. destruct H6 as [Ha Hb].
    inversion Hb; subst. now split. }
  rewrite Forall_forall in *. intros x Hx. destruct (Hall x Hx) as [Hx1 Hx2].
  split; [assumption|]. rewrite in_app_iff. simpl.
  intros [H|[<-|[]]]; contradiction.
Qed.

Lemma trace_parts_start (cr : nat) (c : list NodeCall)
    (m m' : list (nat * Source)) (a b : list nat) :
  trace_parts cr c m ->
  live_of m = a ++ b -> live_of m' = a ++ cr :: b ->
  trace_parts (S cr) (c ++ [NodeStart cr]) m'.
Proof.
  unfold trace_parts. intros [H1 [H2 [H3 [H4 [H5 H6]]]]] Hm ->.
  rewrite Hm in H5, H6.
  rewrite started_app, stopped_app. cbn [started stopped].
  rewrite app_nil_r.
  split; [rewrite seq_S, H1; reflexivity|].
  split; [assumption|].
  split; [eapply Forall_impl; [|exact H3]; simpl; intros; lia|].
  split; [apply stops_follow_starts_snoc; [assumption|discriminate]|].
  assert (Hnew : ~ In cr (a ++ b)).
  { intros Hin. rewrite Forall_forall in H6. apply H6 in Hin. lia. }
  split; [now apply NoDup_insert|].
  rewrite Forall_app in *. destruct H6 as [Ha Hb]. split.
  - eapply Forall_impl; [|exact Ha]. simpl. intros x [Hx1 Hx2]. split; [lia|assumption].
  - constructor.
    + split; [lia|]. intros Hin. rewrite Forall_forall in H3.
      apply H3 in Hin. lia.
    + eapply Forall_impl; [|exact Hb]. simpl. intros x [Hx1 Hx2].
      split; [lia|assumption].
Qed.

Lemma trace_inv_stopSource (i : nat) (e : Engine) :
  trace_inv e -> trace_inv (stopSource i e).
Proof.
  intros [Hctx Hparts]. unfold stopSource.
  destruct (map_get i (sources e)) as [s|] eqn:Hget; [|now split].
  destruct (node s) as [n|] eqn:Hnode; [|now split].
  destruct (map_get_split _ _ _ Hget) as [pre [post [Hm Hnotin]]].
  split; [exact Hctx|]. unfold created_so_far. simpl. fold (created_so_far e).
  rewrite Hm, map_update_split by assumption.
  apply (trace_parts_stop _ _ (sources e) _ (live_of pre) (live_of post) n);
    [assumption| |].
  - rewrite Hm, live_of_app. simpl. now rewrite Hnode.
  - rewrite live_of_app. reflexivity.
Qed.

Lemma trace_inv_startSource (i : nat) (e : Engine) :
  trace_inv e -> trace_inv (startSource i e).
Proof.
  intros [Hctx Hparts]. unfold startSource.
  destruct (map_get i (sources e)) as [s|] eqn:Hget; [|now split].
  destruct (audioContext e) as [ctx|] eqn:Hcontext;
    [|split; [intros _; exact Hcontext|exact Hparts]].
  destruct (map_get_split _ _ _ Hget) as [pre [post [Hm Hnotin]]].
  split; [intros Hinit; apply Hctx in Hinit; discriminate|].
  unfold created_so_far in *. simpl. rewrite Hcontext in Hparts.
  rewrite Hm, map_update_split by assumption.
  destruct (node s) as [n|] eqn:Hnode.
  - apply (trace_parts_start _ _ (pre ++ (i, clear_route s) :: post) _
             (live_of pre) (live_of post)).
    + apply (trace_parts_stop _ _ (sources e) _ (live_of pre) (live_of post) n);
        [assumption| |].
      * rewrite Hm, live_of_app. simpl. now rewrite Hnode.
      * rewrite live_of_app. reflexivity.
    + rewrite live_of_app. reflexivity.
    + rewrite live_of_app. reflexivity.
  - apply (trace_parts_start _ _ (sources e) _ (live_of pre) (live_of post)).
    + assumption.
    + rewrite Hm, live_of_app. simpl. now rewrite Hnode.
    + rewrite live_of_app. reflexivity.
Qed.

Lemma trace_inv_update_same (k : nat) (f : Source -> Source) (e : Engine) :
  (forall s, node (f s) = node s) ->
  trace_inv e -> trace_inv (with_sources (map_update k f (sources e)) e).
Proof.
  intros Hf [Hctx Hparts]. split; [exact Hctx|].
  unfold created_so_far. simpl. fold (created_so_far e).
  eapply trace_parts_live; [exact Hparts|]. now apply live_of_update_same.
Qed.

Lemma trace_inv_clear (k : nat) (e : Engine) :
  trace_inv e -> trace_inv (with_sources (map_update k clear_route (sources e)) e).
Proof.
  intros [Hctx Hparts]. split; [exact Hctx|].
  unfold created_so_far. simpl. fold (created_so_far e).
  destruct (map_get k (sources e)) as [s|] eqn:Hget.
  - destruct (map_get_split _ _ _ Hget) as [pre [post [Hm Hnotin]]].
    rewrite Hm, map_update_split by assumption.
    destruct (node s) as [n|] eqn:Hnode.
    + apply (trace_parts_drop _ _ (sources e) _ (live_of pre) (live_of post) n);
        [assumption| |].
      * rewrite Hm, live_of_app. simpl. now rewrite Hnode.
      * rewrite live_of_app. reflexivity.
    + eapply trace_parts_live; [exact Hparts|].
      rewrite Hm, !live_of_app. simpl. now rewrite Hnode.
  - now rewrite map_update_absent.
Qed.

Lemma trace_inv_removeSource (i : nat) (e : Engine) :
  trace_inv e -> trace_inv (removeSource i e).
Proof.
  intros H. unfold removeSource.
  destruct (map_get i (sources e)) as [s|] eqn:Hget; [|assumption].
  pose proof (trace_inv_stopSource i e H) as [Hctx Hparts].
  split; [exact Hctx|].
  unfold created_so_far in *. simpl.
  assert (Hget' : exists s', map_get i (sources (stopSource i e)) = Some s'
                             /\ node s' = None).
  { unfold stopSource. rewrite Hget. destruct (node s) eqn:Hnode; simpl.
    - rewrite map_get_update_same, Hget. simpl. now exists (clear_route s).
    - now exists s. }
  destruct Hget' as [s' [Hget' Hnode']].
  destruct (map_get_split _ _ _ Hget') as [pre [post [Hm Hnotin]]].
  eapply trace_parts_live; [exact Hparts|].
  rewrite Hm, map_delete_split by assumption.
  rewrite !live_of_app. simpl. now rewrite Hnode'.
Qed.

Lemma trace_inv_step (o : Op) (e : Engine) :
  wf e -> trace_inv e -> trace_inv (snd (step o e)).
Proof.
  intros Hwf H. destruct o; simpl.
  - destruct H as [Hctx Hparts]. unfold init.
    destruct (initialized e) eqn:Hinit.
    + split; [intros Hfalse; congruence|exact Hparts].
    + pose proof (Hctx eq_refl) as Hnone.
      unfold created_so_far in Hparts. rewrite Hnone in Hparts.
      destruct ok; split; try discriminate; try exact Hparts.
      * intros _. exact Hnone.
      * unfold created_so_far. simpl. now rewrite Hnone.
  - destruct H as [Hctx Hparts]. split; [exact Hctx|].
    unfold created_so_far. simpl. fold (created_so_far e).
    eapply trace_parts_live; [exact Hparts|].
    rewrite map_set_keys_fresh.
    + rewrite live_of_app. simpl. apply app_nil_r.
    + destruct Hwf as [_ Hall]. intros Hin.
      apply in_map_iff in Hin as [[k s] [Hk Hin]]. simpl in Hk.
      rewrite Forall_forall in Hall. apply Hall in Hin as [_ Hlt].
      simpl in Hlt. lia.
  - now apply trace_inv_removeSource.
  - now apply trace_inv_startSource.
  - now apply trace_inv_stopSource.
  - now apply trace_inv_clear.
  - unfold playAll. destruct (audioContext e) eqn:Hcontext; [|assumption].
    apply (forEach_id_preserves trace_inv startSource trace_inv_startSource)
      in H.
    exact H.
  - apply (forEach_id_preserves trace_inv stopSource trace_inv_stopSource)
      in H.
    exact H.
  - unfold setSourceVolume.
    destruct (map_get sourceId (sources e)); [|assumption].
    apply trace_inv_update_same; [|assumption].
    intros s'. simpl. now destruct (gainNode s').
  - unfold setSourcePosition.
    destruct (map_get sourceId (sources e)); [|assumption].
    apply trace_inv_update_same; [|assumption].
    intros s'. simpl. now destruct (panner s').
  - destruct H as [Hctx Hparts]. split; [exact Hctx|].
    unfold created_so_far, updateListenerPosition. simpl.
    fold (created_so_far e).
    eapply trace_parts_live; [exact Hparts|].
    unfold live_of. rewrite flat_map_concat_map, map_map.
    rewrite flat_map_concat_map. f_equal. apply map_ext.
    intros [k s']. simpl. now destruct (panner s').
  - destruct H as [Hctx Hparts]. unfold updateListenerOrientation.
    destruct (audioContext e) as [ctx|] eqn:Hcontext;
      [|split; [intros _; exact Hcontext|exact Hparts]].
    split; [intros Hinit; apply Hctx in Hinit; discriminate|].
    unfold created_so_far in *. simpl. now rewrite Hcontext in Hparts.
  - unfold toggleSourceLock.
    destruct (map_get sourceId (sources e)); [|assumption].
    now apply (trace_inv_update_same sourceId
                 (fun s => set_locked (negb (locked s)) s)).
  - unfold setSourceLocked.
    destruct (map_get sourceId (sources e)); [|assumption].
    now apply (trace_inv_update_same sourceId (set_locked b)).
Qed.

Lemma trace_inv_run (ops : list Op) (e : Engine) :
  wf e -> trace_inv e -> trace_inv (snd (run ops e)).
Proof.
  revert e. induction ops as [|o rest IH]; simpl; intros e Hwf H;
    [assumption|].
  apply IH; [now apply wf_step|now apply trace_inv_step].
Qed.

Lemma trace_inv_constructor : trace_inv constructor.
Proof.
  split; [reflexivity|].
  unfold trace_parts. simpl. repeat split; try constructor.
  intros before n after Heq. destruct before; discriminate.
Qed.

(** X3.  Whatever calls the engine has received since it was constructed:
    the buffer-source nodes were started once each, in the order of their
    handles 0, 1, 2, ...; no node was stopped twice; every [stop] comes
    after the [start] of the same node; and the nodes the sources hold are
    distinct, started and not yet stopped. *)
Theorem node_calls_are_disciplined (ops : list Op) :
  let e := snd (run ops constructor) in
  started (calls e) = seq 0 (created_so_far e)
  /\ NoDup (stopped (calls e))
  /\ stops_follow_starts (calls e)
  /\ NoDup (live_of (sources e))
  /\ Forall (fun n => In (NodeStart n) (calls e)
                      /\ ~ In (NodeStop n) (calls e))
       (live_of (sources e)).
Proof.
  intros e.
  destruct (trace_inv_run ops constructor wf_constructor trace_inv_constructor)
    as [_ [H1 [H2 [H3 [H4 [H5 H6]]]]]].
  fold e in H1, H2, H3, H4, H5, H6.
  repeat split; try assumption.
  eapply Forall_impl; [|exact H6]. simpl. intros n [Hlt Hfresh]. split.
  - apply In_started. rewrite H1. apply in_seq. lia.
  - intros Hin. apply Hfresh. clear - Hin.
    induction (calls e) as [|[k|k] c IH]; simpl in *; [tauto| |].
    + destruct Hin as [Hin|Hin]; [discriminate|auto].
    + destruct Hin as [Hin|Hin]; [left; congruence|auto].
Qed.

End Trace.

(** ** Play all, pause all *)

Section PlayPause.

Import SpatialAudioEngine.

Lemma map_get_app_first (k : nat) (s : Source)
    (pre post : list (nat * Source)) :
  ~ In k (map fst pre) -> map_get k (pre ++ (k, s) :: post) = Some s.
Proof.
  induction pre as [|[k' s'] pre IH]; simpl; intros Hnotin.
  - now rewrite Nat.eqb_refl.
  - destruct (Nat.eqb_spec k k') as [->|Hne]; [tauto|]. apply IH. tauto.
Qed.

Lemma NoDup_keys_head (k : nat) (s : Source)
    (pre rest : list (nat * Source)) :
  NoDup (map fst (pre ++ (k, s) :: rest)) -> ~ In k (map fst pre).
Proof.
  rewrite map_app. simpl. intros H Hin.
  apply NoDup_remove_2 in H. apply H, in_or_app. now left.
Qed.

Lemma live_of_cons (k : nat) (s : Source) (rest : list (nat * Source)) :
  live_of ((k, s) :: rest)
  = match node s with Some n => [n] | None => [] end ++ live_of rest.
Proof. reflexivity. Qed.

Lemma fold_stopSource (l pre : list (nat * Source)) (e : Engine) :
  sources e = pre ++ l ->
  NoDup (map fst (pre ++ l)) ->
  let e' := fold_left (fun acc kv => stopSource (fst kv) acc) l e in
  sources e' = pre ++ map (fun kv => (fst kv, stop_entry (snd kv))) l
  /\ calls e' = calls e ++ map NodeStop (live_of l)
  /\ listener e' = listener e
  /\ audioContext e' = audioContext e
  /\ nextSourceId e' = nextSourceId e
  /\ initialized e' = initialized e.
Proof.
  revert pre e. induction l as [|[k s] rest IH]; intros pre e Hm Hnd; cbv zeta.
  - unfold live_of. simpl. rewrite !app_nil_r. rewrite app_nil_r in Hm.
    now repeat split.
  - pose proof (NoDup_keys_head _ _ _ _ Hnd) as Hnotin.
    assert (Hget : map_get k (sources e) = Some s)
      by (rewrite Hm; now apply map_get_app_first).
    assert (Hnd' : forall s', NoDup (map fst ((pre ++ [(k, s')]) ++ rest))).
    { intros s'. rewrite <- app_assoc. simpl. rewrite map_app in *. exact Hnd. }
    change (fold_left (fun acc kv => stopSource (fst kv) acc) ((k, s) :: rest) e)
      with (fold_left (fun acc kv => stopSource (fst kv) acc) rest
              (stopSource k e)).
    rewrite live_of_cons. cbn [map fst snd]. unfold stop_entry at 1.
    destruct (node s) as [n|] eqn:Hnode.
    + assert (Hm1 : sources (stopSource k e)
                    = (pre ++ [(k, clear_route s)]) ++ rest).
      { unfold stopSource. rewrite Hget, Hnode. simpl.
        rewrite Hm, map_update_split by assumption.
        now rewrite <- app_assoc. }
      assert (Hrest : calls (stopSource k e) = calls e ++ [NodeStop n]
                      /\ listener (stopSource k e) = listener e
                      /\ audioContext (stopSource k e) = audioContext e
                      /\ nextSourceId (stopSource k e) = nextSourceId e
                      /\ initialized (stopSource k e) = initialized e).
      { unfold stopSource. rewrite Hget, Hnode. now repeat split. }
      destruct Hrest as [G2 [G3 [G4 [G5 G6]]]].
      destruct (IH _ (stopSource k e) Hm1 (Hnd' _)) as [H1 [H2 [H3 [H4 [H5 H6]]]]].
      rewrite H1, H2, H3, H4, H5, H6, G2, G3, G4, G5, G6.
      rewrite <- !app_assoc. now repeat split.
    + assert (Hsame : stopSource k e = e).
      { unfold stopSource. now rewrite Hget, Hnode. }
      rewrite Hsame.
      assert (Hm1 : sources e = (pre ++ [(k, s)]) ++ rest)
        by (now rewrite <- app_assoc).
      destruct (IH _ e Hm1 (Hnd' _)) as [H1 [H2 [H3 [H4 [H5 H6]]]]].
      rewrite H1, H2, H3, H4, H5, H6.
      rewrite <- !app_assoc. now repeat split.
Qed.

(** X4.  On an engine whose Map has distinct keys, [pauseAll] ends the
    route of every source that has one and changes nothing else of any
    source: afterwards no source holds a node, the nodes that were held
    have been stopped once each in Map order, the engine is flagged as not
    playing, and the listener is where it was. *)
Theorem pauseAll_stops_every_route (e : Engine) :
  wf e ->
  getSources (pauseAll e) = map stop_entry (getSources e)
  /\ Forall (fun s => node s = None) (getSources (pauseAll e))
  /\ calls (pauseAll e) = calls e ++ map NodeStop (live_of (sources e))
  /\ playing (pauseAll e) = false
  /\ listener (pauseAll e) = listener e.
Proof.
  intros [Hnd _].
  destruct (fold_stopSource (sources e) [] e eq_refl Hnd)
    as [H1 [H2 [H3 _]]].
  unfold pauseAll, forEach_id, getSources. simpl. simpl in H1.
  rewrite H1, H2, H3, !map_map. simpl.
  repeat split.
  rewrite Forall_map. apply Forall_forall. intros [k s] _. simpl.
  unfold stop_entry. now destruct (node s) eqn:Hnode.
Qed.

(** The statement of X4 at [playingScene]. *)
Lemma pauseAll_stops_every_route_witness :
  calls (pauseAll playingScene) = [NodeStart 0; NodeStop 0]
  /\ Forall (fun s => node s = None) (getSources (pauseAll playingScene)).
Proof.
  destruct (pauseAll_stops_every_route playingScene wf_playingScene)
    as [_ [Hnone [Hcalls _]]].
  split; [exact Hcalls|exact Hnone].
Defined.

Lemma fold_startSource (l pre : list (nat * Source)) (e : Engine)
    (ctx : AudioContext) :
  sources e = pre ++ l ->
  NoDup (map fst (pre ++ l)) ->
  audioContext e = Some ctx ->
  let e' := fold_left (fun acc kv => startSource (fst kv) acc) l e in
  sources e' = pre ++ start_entries (listener e) (created ctx) l
  /\ calls e' = calls e ++ start_calls (created ctx) l
  /\ listener e' = listener e
  /\ audioContext e'
     = Some (mkAudioContext (listenerForward ctx) (listenerUp ctx)
               (created ctx + List.length l)).
Proof.
  revert pre e ctx.
  induction l as [|[k s] rest IH]; intros pre e ctx Hm Hnd Hctx; cbv zeta.
  - simpl. rewrite !app_nil_r, Nat.add_0_r. rewrite app_nil_r in Hm.
    repeat split; try reflexivity; try assumption.
    rewrite Hctx. now destruct ctx.
  - pose proof (NoDup_keys_head _ _ _ _ Hnd) as Hnotin.
    assert (Hget : map_get k (sources e) = Some s)
      by (rewrite Hm; now apply map_get_app_first).
    change (fold_left (fun acc kv => startSource (fst kv) acc)
              ((k, s) :: rest) e)
      with (fold_left (fun acc kv => startSource (fst kv) acc) rest
              (startSource k e)).
    set (e1 := startSource k e).
    assert (Hm1 : sources e1
                  = (pre ++ [(k, start_entry (listener e) (created ctx) s)])
                    ++ rest).
    { unfold e1, startSource. rewrite Hget, Hctx. simpl.
      rewrite Hm, map_update_split by assumption.
      now rewrite <- app_assoc. }
    assert (Hctx1 : audioContext e1
                    = Some (mkAudioContext (listenerForward ctx)
                              (listenerUp ctx) (S (created ctx)))).
    { unfold e1, startSource. now rewrite Hget, Hctx. }
    assert (Hcalls1 : calls e1
                      = calls e
                        ++ match node s with
                           | Some old => [NodeStop old]
                           | None => []
                           end ++ [NodeStart (created ctx)]).
    { unfold e1, startSource. rewrite Hget, Hctx. simpl.
      destruct (node s); [now rewrite <- app_assoc|reflexivity]. }
    assert (Hl1 : listener e1 = listener e).
    { unfold e1, startSource. now rewrite Hget, Hctx. }
    assert (Hnd1 : NoDup (map fst ((pre
                     ++ [(k, start_entry (listener e) (created ctx) s)])
                     ++ rest))).
    { rewrite <- app_assoc. simpl. rewrite map_app in *. exact Hnd. }
    destruct (IH _ e1 _ Hm1 Hnd1 Hctx1) as [H1 [H2 [H3 H4]]].
    rewrite H1, H2, H3, H4, Hcalls1, Hl1.
    cbn [start_entries start_calls created List.length].
    rewrite <- !app_assoc.
    repeat split; try reflexivity.
    do 2 f_equal. lia.
Qed.

Lemma start_entries_playing (l : Vec3) (n : nat) (m : list (nat * Source)) :
  Forall (fun kv =>
            isPlaying (snd kv) = true
            /\ panner (snd kv) = Some (relativeTo l (position (snd kv)))
            /\ gainNode (snd kv) = Some (volume (snd kv))
            /\ node (snd kv) <> None)
    (start_entries l n m).
Proof.
  revert n. induction m as [|[k s] rest IH]; intros n; simpl; constructor.
  - simpl. repeat split. discriminate.
  - apply IH.
Qed.

Lemma start_entries_frame (l : Vec3) (n : nat) (m : list (nat * Source)) :
  map (fun kv => (fst kv, position (snd kv), volume (snd kv),
                  locked (snd kv), name (snd kv)))
      (start_entries l n m)
  = map (fun kv => (fst kv, position (snd kv), volume (snd kv),
                    locked (snd kv), name (snd kv))) m.
Proof.
  revert n. induction m as [|[k s] rest IH]; intros n; simpl; [reflexivity|].
  now rewrite IH.
Qed.

(** X5.  On an engine with an audio context and a Map with distinct keys,
    [playAll] gives every source a fresh route, its node handles counting
    up from the number of nodes created before, in Map order: afterwards
    every source is playing, its panner holds its position relative to the
    listener and its gain node holds its volume; a source that was playing
    has had its old node stopped first; positions, volumes, locks and names
    are as before, and the engine is flagged as playing. *)
Theorem playAll_starts_every_source (e : Engine) (ctx : AudioContext) :
  wf e ->
  audioContext e = Some ctx ->
  sources (playAll e) = start_entries (listener e) (created ctx) (sources e)
  /\ calls (playAll e) = calls e ++ start_calls (created ctx) (sources e)
  /\ Forall (fun s =>
               isPlaying s = true
               /\ panner s = Some (relativeTo (listener e) (position s))
               /\ gainNode s = Some (volume s)
               /\ node s <> None)
       (getSources (playAll e))
  /\ map (fun s => (position s, volume s, locked s, name s))
       (getSources (playAll e))
     = map (fun s => (position s, volume s, locked s, name s)) (getSources e)
  /\ playing (playAll e) = true.
Proof.
  intros [Hnd _] Hctx.
  destruct (fold_startSource (sources e) [] e ctx eq_refl Hnd Hctx)
    as [H1 [H2 _]].
  simpl in H1.
  assert (Hs : sources (playAll e)
               = start_entries (listener e) (created ctx) (sources e)).
  { unfold playAll. rewrite Hctx. exact H1. }
  split; [exact Hs|].
  split; [unfold playAll; rewrite Hctx; exact H2|].
  unfold getSources. rewrite Hs. split.
  - rewrite Forall_map.
    exact (start_entries_playing (listener e) (created ctx) (sources e)).
  - split; [|unfold playAll; now rewrite Hctx].
    pose proof (start_entries_frame (listener e) (created ctx) (sources e))
      as Hframe.
    apply (f_equal (map (fun t : nat * Vec3 * R * bool * string =>
                           let '(_, p, v, b, nm) := t in (p, v, b, nm))))
      in Hframe.
    rewrite !map_map in Hframe. rewrite !map_map. exact Hframe.
Qed.

(** The statement of X5 at [playingScene], whose source is playing on node
    0: it is restarted on node 1. *)
Lemma playAll_starts_every_source_witness :
  calls (playAll playingScene) = [NodeStart 0; NodeStop 0; NodeStart 1].
Proof.
  destruct (playAll_starts_every_source playingScene
              (mkAudioContext (mkVec3 0 0 (-1)) (mkVec3 0 1 0) 1)
              wf_playingScene eq_refl) as [_ [Hcalls _]].
  exact Hcalls.
Defined.

End PlayPause.

(** ** Distances, angles and the listener's orientation *)

Section Queries.

Import SpatialAudioEngine.

Lemma panners_ok_step (o : Op) (e : Engine) :
  panners_ok e -> panners_ok (snd (step o e)).
Proof.
  intros H. destruct o; simpl.
  - unfold init. destruct (initialized e); [assumption|].
    destruct ok; exact H.
  - now apply panners_ok_createSource.
  - now apply panners_ok_removeSource.
  - now apply panners_ok_startSource.
  - now apply panners_ok_stopSource.
  - apply (panners_ok_update sourceId clear_route); [|assumption].
    intros s _. apply panner_ok_clear_route.
  - now apply panners_ok_playAll.
  - now apply panners_ok_pauseAll.
  - unfold setSourceVolume.
    destruct (map_get sourceId (sources e)); [|assumption].
    apply panners_ok_update; [|assumption].
    intros s' Hs' offset. simpl.
    destruct (gainNode s'); simpl; exact (Hs' offset).
  - now apply panners_ok_setSourcePosition.
  - apply panners_ok_updateListenerPosition.
  - now apply panners_ok_orientation.
  - unfold toggleSourceLock.
    destruct (map_get sourceId (sources e)); [|assumption].
    now apply (panners_ok_lock sourceId (fun s => negb (locked s))).
  - unfold setSourceLocked.
    destruct (map_get sourceId (sources e)); [|assumption].
    now apply (panners_ok_lock sourceId (fun _ => b)).
Qed.

Lemma panners_ok_run (ops : list Op) (e : Engine) :
  panners_ok e -> panners_ok (snd (run ops e)).
Proof.
  revert e. induction ops as [|o rest IH]; simpl; intros e H; [assumption|].
  apply IH, panners_ok_step, H.
Qed.

(** X6.  Whatever calls the engine has received since it was constructed,
    the panner of a playing source holds the position of the source
    relative to the listener, and [getDistanceToSource] is the length of
    that offset. *)
Theorem distance_is_length_of_panner_offset (ops : list Op) (i : nat)
    (s : Source) (offset : Vec3) :
  let e := snd (run ops constructor) in
  getSource i e = Some s ->
  panner s = Some offset ->
  offset = relativeTo (listener e) (position s)
  /\ getDistanceToSource i e = Some (magnitude offset).
Proof.
  intros e Hget Hpanner.
  assert (Hok : panners_ok e).
  { apply panners_ok_run. constructor. }
  assert (Hoff : offset = relativeTo (listener e) (position s)).
  { apply map_get_In in Hget. unfold panners_ok in Hok.
    rewrite Forall_forall in Hok. exact (Hok _ Hget offset Hpanner). }
  split; [exact Hoff|].
  unfold getDistanceToSource. unfold getSource in Hget. rewrite Hget, Hoff.
  reflexivity.
Qed.

(** The statement of X6 at [playingScene]. *)
Lemma distance_is_length_of_panner_offset_witness :
  getDistanceToSource 1 (snd (run playingOps constructor))
  = Some (magnitude (mkVec3 (5 - 0) (0 - 0) (0 - 0))).
Proof.
  exact (proj2 (distance_is_length_of_panner_offset playingOps 1
                  playingSource (mkVec3 (5 - 0) (0 - 0) (0 - 0))
                  eq_refl eq_refl)).
Defined.


(** X8.  With an audio context, [updateListenerOrientation] gives the
    listener a forward vector of length 1 and the up vector (0, 1, 0), and
    a yaw that differs by a full turn gives the same orientation: the
    unwrapped yaw of the gamepad path is heard like the wrapped one. *)
Theorem listener_forward_is_unit (yaw pitch : R) (e : Engine)
    (ctx : AudioContext) :
  audioContext e = Some ctx ->
  exists ctx',
    audioContext (updateListenerOrientation yaw pitch e) = Some ctx'
    /\ magnitude (listenerForward ctx') = 1
    /\ listenerUp ctx' = mkVec3 0 1 0
    /\ updateListenerOrientation (yaw + 360) pitch e
       = updateListenerOrientation yaw pitch e.
Proof.
  intros Hctx. unfold updateListenerOrientation. rewrite Hctx.
  eexists. split; [reflexivity|]. simpl. split; [|split; [reflexivity|]].
  - unfold magnitude. simpl.
    set (a := yaw * (PI / 180)). set (b := pitch * (PI / 180)).
    pose proof (sin2_cos2 a) as Ha. pose proof (sin2_cos2 b) as Hb.
    unfold Rsqr in Ha, Hb.
    replace (sin a * cos b * (sin a * cos b) + sin b * sin b
             + - cos a * cos b * (- cos a * cos b))
      with (cos b * cos b * (sin a * sin a + cos a * cos a) + sin b * sin b)
      by ring.
    rewrite Ha, Rmult_1_r, Rplus_comm, Hb. apply sqrt_1.
  - assert (Hturn : (yaw + 360) * (PI / 180)
                    = yaw * (PI / 180) + 2 * INR 1 * PI).
    { simpl. field. }
    rewrite Hturn, sin_period, cos_period. reflexivity.
Qed.

(** The statement of X8 at [playingScene], for a quarter turn to the
    right. *)
Lemma listener_forward_is_unit_witness :
  updateListenerOrientation (90 + 360) 0 playingScene
  = updateListenerOrientation 90 0 playingScene.
Proof.
  destruct (listener_forward_is_unit 90 0 playingScene
              (mkAudioContext (mkVec3 0 0 (-1)) (mkVec3 0 1 0) 1) eq_refl)
    as [ctx' [_ [_ [_ H]]]].
  exact H.
Defined.

(** X9.  On an engine whose ids are in order, [createSource] adds one
    source at the end of the scene and touches no other: the returned id
    leads to a silent, unlocked source at full volume with the given
    buffer, name and position (the origin when none is given), and every
    other id leads where it led before. *)
Theorem createSource_adds_one_source (b : AudioBuffer) (nm : string)
    (pos : option Vec3) (e : Engine) :
  wf e ->
  let r := createSource b nm pos e in
  let added :=
    mkSource (fst r) nm b
      (match pos with Some p => p | None => mkVec3 0 0 0 end)
      1 false None None None false in
  getSource (fst r) (snd r) = Some added
  /\ getSources (snd r) = getSources e ++ [added]
  /\ (forall j, j <> fst r -> getSource j (snd r) = getSource j e)
  /\ getSource (fst r) e = None.
Proof.
  intros Hwf r added.
  assert (Hfresh : ~ In (nextSourceId e) (map fst (sources e))).
  { destruct Hwf as [_ Hall]. intros Hin.
    apply in_map_iff in Hin as [[k s] [Hk Hin]]. simpl in Hk.
    rewrite Forall_forall in Hall. apply Hall in Hin as [_ Hlt].
    simpl in Hlt. lia. }
  assert (Heta : forall p : Vec3, mkVec3 (x p) (y p) (z p) = p)
    by (now intros []).
  unfold r, added, createSource, getSource, getSources. simpl.
  rewrite Heta. repeat split.
  - apply map_get_set_same.
  - rewrite map_set_keys_fresh by assumption. rewrite map_app. reflexivity.
  - intros j Hj. now apply map_get_set_other.
  - now apply map_get_None.
Qed.

(** The statement of X9 for a first source created without a position. *)
Lemma createSource_adds_one_source_witness :
  getSources (snd (createSource 0%nat "a.wav" None constructor))
  = [mkSource 1 "a.wav" 0%nat (mkVec3 0 0 0) 1 false None None None false].
Proof.
  destruct (createSource_adds_one_source 0%nat "a.wav" None constructor
              wf_constructor) as [_ [H _]].
  exact H.
Defined.

Lemma map_update_twice (k : nat) (f : Source -> Source)
    (m : list (nat * Source)) :
  (forall s, f (f s) = s) -> map_update k f (map_update k f m) = m.
Proof.
  intros Hf. induction m as [|[k' s'] rest IH]; simpl; [reflexivity|].
  destruct (Nat.eqb k k') eqn:Hk; simpl; rewrite Hk.
  - now rewrite Hf.
  - now rewrite IH.
Qed.

(** X10.  [toggleSourceLock] flips the lock of a known source and returns
    the new state; a second toggle brings the engine back exactly as it
    was.  For an unknown id it returns [false] and changes nothing. *)
Theorem toggleSourceLock_is_an_involution (i : nat) (e : Engine) :
  (forall s, getSource i e = Some s ->
     fst (toggleSourceLock i e) = negb (locked s)
     /\ getSource i (snd (toggleSourceLock i e))
        = Some (set_locked (negb (locked s)) s))
  /\ snd (toggleSourceLock i (snd (toggleSourceLock i e))) = e
  /\ (getSource i e = None -> toggleSourceLock i e = (false, e)).
Proof.
  unfold getSource, toggleSourceLock.
  destruct (map_get i (sources e)) as [s|] eqn:Hget.
  - split; [|split; [|discriminate]].
    + intros s' Hs'. injection Hs' as <-. split; [reflexivity|]. simpl.
      now rewrite map_get_update_same, Hget.
    + simpl. rewrite map_get_update_same, Hget. simpl.
      rewrite map_update_twice.
      * now destruct e.
      * intros [] . simpl. now rewrite negb_involutive.
  - split; [discriminate|]. split; [simpl; now rewrite Hget|reflexivity].
Qed.

(** The statement of X10 at [lockedScene]: the toggle unlocks its source. *)
Lemma toggleSourceLock_is_an_involution_witness :
  fst (toggleSourceLock 1 lockedScene) = false.
Proof.
  destruct (toggleSourceLock_is_an_involution 1 lockedScene) as [H _].
  exact (proj1 (H (set_locked true (sourceAt (mkVec3 5 0 0))) eq_refl)).
Defined.

End Queries.

(** ** Moving and looking *)

Section Moving.

Import SpatialAudioEngine MovementController.

(** X11.  [movePlayer] turns the view-relative step by the yaw and adds it:
    the horizontal length of the world step is that of the view-relative
    step, and the vertical step is taken as it is.  Facing 0, forward is
    +z and right is +x; facing 90, forward is +x and right is -z. *)
Theorem integrate_turns_the_step (dx dy dz : R) (m : Controller) :
  let pre := integrate dx dy dz m in
  (x pre - x (player m)) * (x pre - x (player m))
  + (z pre - z (player m)) * (z pre - z (player m))
  = dx * dx + dz * dz
  /\ y pre - y (player m) = dy
  /\ (playerFacing m = 0 ->
      pre = mkVec3 (x (player m) + dx) (y (player m) + dy)
                   (z (player m) + dz))
  /\ (playerFacing m = 90 ->
      pre = mkVec3 (x (player m) + dz) (y (player m) + dy)
                   (z (player m) - dx)).
Proof.
  unfold integrate. simpl.
  set (a := playerFacing m * (PI / 180)).
  pose proof (sin2_cos2 a) as Ha. unfold Rsqr in Ha.
  split.
  { replace ((x (player m) + (dz * sin a + dx * cos a) - x (player m))
             * (x (player m) + (dz * sin a + dx * cos a) - x (player m))
             + (z (player m) + (dz * cos a - dx * sin a) - z (player m))
               * (z (player m) + (dz * cos a - dx * sin a) - z (player m)))
      with ((dx * dx + dz * dz) * (sin a * sin a + cos a * cos a)) by ring.
    rewrite Ha. ring. }
  split; [ring|]. split.
  - intros Hfacing. unfold a. rewrite Hfacing, Rmult_0_l, sin_0, cos_0.
    f_equal; ring.
  - intros Hfacing. unfold a. rewrite Hfacing.
    replace (90 * (PI / 180)) with (PI / 2) by field.
    rewrite sin_PI2, cos_PI2. f_equal; ring.
Qed.

(** The statement of X11 for a step forward from the initial pose. *)
Lemma integrate_turns_the_step_witness :
  integrate 0 0 1 constructor = mkVec3 (0 + 0) (0 + 0) (0 + 1).
Proof.
  destruct (integrate_turns_the_step 0 0 1 constructor) as [_ [_ [H _]]].
  exact (H eq_refl).
Defined.






(** X13.  Mouse look.  Without pointer lock a mouse move changes nothing.
    With it, and the sensitivity of 0.2, any sequence of mouse moves of at
    most 1800 pixels sideways each keeps the yaw within [0, 360) and the
    pitch within [-90, 90]. *)
Theorem mouse_look_keeps_orientation_in_range
    (moves : list (R * R)) (me : Controller * Engine) :
  let after :=
    fold_left (fun acc d => handleMouseMove (fst d) (snd d) acc) moves me in
  (isLocked (mouseLook (fst me)) = false -> after = me)
  /\ (isLocked (mouseLook (fst me)) = true ->
      sensitivity (mouseLook (fst me)) = 0.2 ->
      0 <= playerFacing (fst me) < 360 ->
      -90 <= playerPitch (fst me) <= 90 ->
      Forall (fun d => -1800 <= fst d <= 1800) moves ->
      0 <= playerFacing (fst after) < 360
      /\ -90 <= playerPitch (fst after) <= 90).
Proof.
  cbv zeta. split.
  - intros Hunlocked. induction moves as [|d rest IH]; simpl; [reflexivity|].
    unfold handleMouseMove at 2. rewrite Hunlocked. simpl. exact IH.
  - revert me. induction moves as [|d rest IH];
      intros me Hlocked Hsens Hyaw Hpitch Hmoves; simpl; [now split|].
    inversion Hmoves as [|? ? Hd Hrest]; subst.
    apply IH; try assumption.
    + unfold handleMouseMove. now rewrite Hlocked.
    + unfold handleMouseMove. now rewrite Hlocked.
    + apply handleMouseMove_yaw; [assumption|]. cbv zeta. rewrite Hsens. lra.
    + now apply handleMouseMove_pitch.
Qed.

(** The statement of X13 for one move of 15 pixels to the left in
    mouse-look mode. *)
Lemma mouse_look_keeps_orientation_in_range_witness :
  0 <= playerFacing
         (fst (handleMouseMove (-15) 0
                 (mouseLooking, SpatialAudioEngine.constructor))) < 360.
Proof.
  destruct (mouse_look_keeps_orientation_in_range [(-15, 0)]
              (mouseLooking, SpatialAudioEngine.constructor)) as [_ H].
  simpl in H. apply H; try reflexivity; try lra.
  constructor; [simpl; lra|constructor].
Defined.

(** X14.  [resetPosition] puts the player and the listener of the engine
    at the origin, facing 0 with pitch 0, whatever the pose was; every
    panner then holds the world position of its source, and no source has
    moved. *)
Theorem resetPosition_restores_the_initial_pose (me : Controller * Engine) :
  let r := resetPosition me in
  player (fst r) = mkVec3 0 0 0
  /\ playerFacing (fst r) = 0
  /\ playerPitch (fst r) = 0
  /\ listener (snd r) = mkVec3 0 0 0
  /\ Forall (fun s => forall offset, panner s = Some offset ->
                                     offset = position s)
       (getSources (snd r))
  /\ map position (getSources (snd r)) = map position (getSources (snd me)).
Proof.
  cbv zeta. unfold resetPosition. simpl.
  repeat split.
  - now rewrite listener_orientation.
  - assert (Hok : panners_ok
                    (updateListenerOrientation 0 0
                       (updateListenerPosition (mkVec3 0 0 0) (snd me)))).
    { apply panners_ok_orientation, panners_ok_updateListenerPosition. }
    unfold panners_ok in Hok. rewrite listener_orientation in Hok.
    unfold getSources. rewrite Forall_map.
    eapply Forall_impl; [|exact Hok].
    intros [k s] Hs offset Hoff. simpl in *.
    rewrite (Hs offset Hoff). unfold relativeTo. simpl.
    destruct (position s). simpl. f_equal; ring.
  - unfold getSources, updateListenerOrientation.
    assert (Hpos : map position
                     (map snd (sources (updateListenerPosition
                                          (mkVec3 0 0 0) (snd me))))
                   = map position (map snd (sources (snd me)))).
    { unfold updateListenerPosition. simpl. rewrite !map_map.
      apply map_ext. intros [k s]. simpl. now destruct (panner s). }
    destruct (audioContext (updateListenerPosition (mkVec3 0 0 0) (snd me)));
      exact Hpos.
Qed.

(** X15.  A gamepad at rest changes nothing: when no gamepad is connected,
    or its slot is empty, or all four axes are within the dead zone of
    0.15 and neither bumper is pressed, [updateGamepad] leaves the
    controller and the engine as they are. *)
Theorem updateGamepad_ignores_a_resting_pad (pads : list (option Gamepad))
    (me : Controller * Engine) :
  (gamepadIndex (fst me) = None -> updateGamepad pads me = me)
  /\ (forall idx, gamepadIndex (fst me) = Some idx ->
        nth idx pads None = None -> updateGamepad pads me = me)
  /\ (forall idx gamepad,
        gamepadIndex (fst me) = Some idx ->
        nth idx pads None = Some gamepad ->
        (forall k, (k < 4)%nat -> Rabs (nth k (axes gamepad) 0) <= 0.15) ->
        nth 4 (buttons gamepad) false = false ->
        nth 5 (buttons gamepad) false = false ->
        updateGamepad pads me = me).
Proof.
  unfold updateGamepad. split; [now intros ->|]. split.
  - intros idx -> Hslot. now rewrite Hslot.
  - intros idx gamepad -> Hslot Haxes H4 H5. rewrite Hslot.
    rewrite !deadzoned_inside by (apply Haxes; lia).
    rewrite truthy_zero, H4, H5. simpl.
    now destruct (Nat.ltb 5 (List.length (buttons gamepad))).
Qed.

(** The statement of X15 for a standard gamepad with every axis at rest. *)
Lemma updateGamepad_ignores_a_resting_pad_witness :
  updateGamepad [Some (mkGamepad [0; 0; 0; 0] (repeat false 17))]
    (gamepadReady, SpatialAudioEngine.constructor)
  = (gamepadReady, SpatialAudioEngine.constructor).
Proof.
  destruct (updateGamepad_ignores_a_resting_pad
              [Some (mkGamepad [0; 0; 0; 0] (repeat false 17))]
              (gamepadReady, SpatialAudioEngine.constructor)) as [_ [_ H]].
  apply (H 0%nat (mkGamepad [0; 0; 0; 0] (repeat false 17)));
    try reflexivity.
  intros k Hk. simpl.
  destruct k as [|[|[|[|k]]]]; try lia; rewrite Rabs_R0; lra.
Defined.

End Moving.

(** ** Picking, hovering and drawing *)

Section Picking.

Import SpatialAudioEngine Visualization.

Lemma pick_None (deref : nat -> option Source) (v : Vis)
    (mouseX mouseY : R) (l : list nat) :
  pick deref v mouseX mouseY l = None
  <-> forall r, In r l -> ~ pickable deref v mouseX mouseY r.
Proof.
  unfold pickable. induction l as [|r' rest IH]; simpl.
  - split; [intros _ r []|reflexivity].
  - destruct (deref r') as [s|] eqn:Hderef.
    + destruct (locked s) eqn:Hlocked.
      * rewrite IH. split.
        -- intros H r [<-|Hin]; [|now apply H].
           intros [s' [Hs' [Hl _]]]. congruence.
        -- intros H r Hin. apply H. now right.
      * match goal with
        | |- context [Rlt_dec ?a ?b] => destruct (Rlt_dec a b) as [Hnear|Hfar]
        end.
        -- split; [discriminate|]. intros H. exfalso.
           apply (H r' (or_introl eq_refl)). now exists s.
        -- rewrite IH. split.
           ++ intros H r [<-|Hin]; [|now apply H].
              intros [s' [Hs' [_ Hd]]]. assert (s' = s) by congruence.
              subst s'. contradiction.
           ++ intros H r Hin. apply H. now right.
    + rewrite IH. split.
      * intros H r [<-|Hin]; [|now apply H].
        intros [s' [Hs' _]]. congruence.
      * intros H r Hin. apply H. now right.
Qed.

(** X16.  The hit test of [onMouseDown] and of the hover cursor picks the
    first source, in the order of the last render, that is unlocked and
    less than 30 pixels from the mouse: it finds none exactly when no
    source qualifies, and every source before the one it picks does not
    qualify. *)
Theorem pick_takes_the_first_unlocked_source_in_reach
    (deref : nat -> option Source) (v : Vis) (mouseX mouseY : R)
    (l : list nat) :
  (pick deref v mouseX mouseY l = None
   <-> forall r, In r l -> ~ pickable deref v mouseX mouseY r)
  /\ (forall r off,
        pick deref v mouseX mouseY l = Some (r, off) ->
        exists before after,
          l = before ++ r :: after
          /\ (forall r', In r' before -> ~ pickable deref v mouseX mouseY r')
          /\ pickable deref v mouseX mouseY r).
Proof.
  split; [apply pick_None|].
  induction l as [|r' rest IH]; simpl; intros r off; [discriminate|].
  assert (Hrest :
    ~ pickable deref v mouseX mouseY r' ->
    pick deref v mouseX mouseY rest = Some (r, off) ->
    exists before after,
      r' :: rest = before ++ r :: after
      /\ (forall r'', In r'' before -> ~ pickable deref v mouseX mouseY r'')
      /\ pickable deref v mouseX mouseY r).
  { intros Hnot Hpick.
    destruct (IH r off Hpick) as [before [after [-> [Hbefore Hr]]]].
    exists (r' :: before), after. split; [reflexivity|]. split; [|exact Hr].
    intros r'' [<-|Hin]; [exact Hnot|now apply Hbefore]. }
  unfold pickable in *.
  destruct (deref r') as [s|] eqn:Hderef.
  - destruct (locked s) eqn:Hlocked.
    + apply Hrest. intros [s' [Hs' [Hl _]]]. congruence.
    + match goal with
      | |- context [Rlt_dec ?a ?b] => destruct (Rlt_dec a b) as [Hnear|Hfar]
      end.
      * intros H. injection H as <- _.
        exists [], rest. split; [reflexivity|]. split; [intros r'' []|].
        exists s. now rewrite Hderef.
      * apply Hrest. intros [s' [Hs' [_ Hd]]].
        assert (s' = s) by congruence. subst s'. contradiction.
  - apply Hrest. intros [s' [Hs' _]]. congruence.
Qed.

(** The statement of X16 for a scene whose only reference leads to no
    source: nothing is picked. *)
Lemma pick_takes_the_first_unlocked_source_in_reach_witness :
  pick (fun _ => None) (constructor canvas800) 0 0 [1%nat] = None.
Proof.
  destruct (pick_takes_the_first_unlocked_source_in_reach (fun _ => None)
              (constructor canvas800) 0 0 [1%nat]) as [[_ H] _].
  apply H. intros r _ [s [Hs _]]. discriminate Hs.
Defined.



(** X18.  Once the mouse button is released, mouse moves write nothing:
    after [onMouseUp], no sequence of mouse moves, with or without pointer
    lock, changes the engine, and no drag is going on at the end. *)
Theorem no_position_writes_after_mouse_up (deref : nat -> option Source)
    (moves : list (bool * MouseEvent)) (v : Vis) (e : Engine) :
  let after :=
    fold_left (fun acc m => onMouseMove deref (fst m) (snd m) acc) moves
      (onMouseUp v, e) in
  snd after = e
  /\ isDragging (fst after) = false
  /\ draggedSource (fst after) = None.
Proof.
  cbv zeta.
  assert (H : forall ve : Vis * Engine,
             isDragging (fst ve) = false -> draggedSource (fst ve) = None ->
             let after :=
               fold_left (fun acc m => onMouseMove deref (fst m) (snd m) acc)
                 moves ve in
             snd after = snd ve /\ isDragging (fst after) = false
             /\ draggedSource (fst after) = None).
  { induction moves as [|[locked ev] rest IH]; intros ve Hd Hs; simpl;
      [now repeat split|].
    assert (Hstep :
      snd (onMouseMove deref locked ev ve) = snd ve
      /\ isDragging (fst (onMouseMove deref locked ev ve)) = false
      /\ draggedSource (fst (onMouseMove deref locked ev ve)) = None).
    { unfold onMouseMove. destruct locked; [now repeat split|].
      rewrite Hd. simpl. now repeat split. }
    destruct Hstep as [H1 [H2 H3]].
    destruct (IH _ H2 H3) as [G1 [G2 G3]].
    rewrite G1, H1. now repeat split. }
  exact (H (onMouseUp v, e) eq_refl eq_refl).
Qed.

(** The first steps of [drawSource], read back from a source that was
    drawn. *)
Lemma drawSource_Drawn (v : Vis) (source : Source) (playerPos : Vec3)
    (playerFacing : R) (sx sy radius distance : R) (dragged : bool) :
  drawSource v source playerPos playerFacing
  = Drawn sx sy radius distance dragged ->
  let relativeX := x (position source) - x playerPos in
  let relativeZ := z (position source) - z playerPos in
  sx = (if compositionMode v
        then centerX v + x (position source) * scale v
        else centerX v + relativeX * scale v)
  /\ sy = (if compositionMode v
           then centerY v - z (position source) * scale v
           else centerY v - relativeZ * scale v)
  /\ distance = sqrt (relativeX * relativeX + relativeZ * relativeZ)
  /\ radius = 8 + (25 - 8) * Math_max 0 (1 - distance / 20)
  /\ 0.001 <= distance
  /\ -50 <= sx <= width v + 50
  /\ -50 <= sy <= height v + 50.
Proof.
  intros Hdraw relativeX relativeZ. unfold drawSource in Hdraw.
  destruct (compositionMode v); cbv zeta in Hdraw; cbv beta iota in Hdraw;
    fold relativeX in Hdraw; fold relativeZ in Hdraw;
    (destruct (Rlt_dec (sqrt (relativeX * relativeX + relativeZ * relativeZ))
                 0.001) as [Hnear|Hfar]; [discriminate|]);
    (destruct (fovCulling v
               && (if Rlt_dec 90
                        (Rabs (viewAzimuth relativeX relativeZ playerFacing))
                   then true else false))%bool; [discriminate|]);
    repeat match type of Hdraw with
           | context [Rlt_dec ?a ?b] =>
               destruct (Rlt_dec a b); simpl in Hdraw; try discriminate
           end;
    injection Hdraw as <- <- <- <- _;
    repeat split; try reflexivity; lra.
Qed.


(** X20.  The hit test looks where the render drew: after [render], a
    source that was drawn has its circle centred exactly at the screen
    position that [onMouseDown] and the hover test compute for it, in
    either reference-frame mode. *)
Theorem hit_test_uses_the_drawn_position (player : Vec3)
    (srcs : list Source) (playerFacing : R) (v : Vis) (source : Source)
    (sx sy radius distance : R) (dragged : bool) :
  let rendered := render player srcs playerFacing v in
  In source srcs ->
  drawSource (fst rendered) source player playerFacing
  = Drawn sx sy radius distance dragged ->
  In (Drawn sx sy radius distance dragged) (drawings (snd rendered))
  /\ In (id source) (sources (fst rendered))
  /\ screenPosition (fst rendered) (position source) = mkVec2 sx sy.
Proof.
  intros rendered Hin Hdraw. split; [|split].
  - unfold rendered, render. simpl. apply in_map_iff.
    exists source. split; [exact Hdraw|exact Hin].
  - unfold rendered, render. simpl. now apply in_map.
  - destruct (drawSource_Drawn _ _ _ _ _ _ _ _ _ Hdraw) as [Hx [Hy _]].
    cbv zeta in Hx, Hy. unfold screenPosition.
    unfold rendered, render in *. simpl in *.
    destruct (compositionMode v); now rewrite Hx, Hy.
Qed.

(** The statement of X19 and X20 for a source at (10, 0, 0) seen from the
    origin on the 800 by 600 canvas: it is drawn at (600, 300). *)
Lemma scene_at_10_is_drawn :
  exists radius distance,
    drawSource (fst (render (mkVec3 0 0 0) [sourceAt (mkVec3 10 0 0)] 0
                       (constructor canvas800)))
      (sourceAt (mkVec3 10 0 0)) (mkVec3 0 0 0) 0
    = Drawn (800 / 2 + 10 * 20) (600 / 2 - 0 * 20) radius distance false.
Proof.
  do 2 eexists. unfold drawSource, render. simpl.
  replace ((10 - 0) * (10 - 0) + (0 - 0) * (0 - 0)) with (10 * 10) by ring.
  rewrite sqrt_square by lra.
  destruct (Rlt_dec 10 0.001); [lra|].
  repeat match goal with
         | |- context [Rlt_dec ?a ?b] => destruct (Rlt_dec a b); try lra
         end.
  simpl. reflexivity.
Qed.


Lemma hit_test_uses_the_drawn_position_witness :
  screenPosition
    (fst (render (mkVec3 0 0 0) [sourceAt (mkVec3 10 0 0)] 0
            (constructor canvas800)))
    (mkVec3 10 0 0)
  = mkVec2 (800 / 2 + 10 * 20) (600 / 2 - 0 * 20).
Proof.
  destruct scene_at_10_is_drawn as [radius [distance H]].
  destruct (hit_test_uses_the_drawn_position (mkVec3 0 0 0)
              [sourceAt (mkVec3 10 0 0)] 0 (constructor canvas800)
              (sourceAt (mkVec3 10 0 0)) _ _ _ _ _ (or_introl eq_refl) H)
    as [_ [_ Hpos]].
  exact Hpos.
Defined.

End Picking.

(** ** Dashed lines and drags *)

Section Dragged.

Import SpatialAudioEngine Visualization.

(** X21.  The dashed line that [render] draws to a source runs from the
    canvas centre by the source's offset from the listener.  In authoring
    mode that is the segment from the listener marker to the source's
    circle; in composition mode it is this segment moved back by the
    listener's own offset from the centre, so it leaves the marker and the
    circle as soon as the listener is away from the world origin. *)
Theorem angle_lines_start_at_the_canvas_centre (player : Vec3)
    (srcs : list Source) (playerFacing : R) (v : Vis) (k : nat)
    (source : Source) :
  let rendered := render player srcs playerFacing v in
  let lines := drawAngleLines (fst rendered) srcs player in
  let circle := screenPosition (fst rendered) (position source) in
  let listenerMarker := marker (snd rendered) in
  nth_error srcs k = Some source ->
  exists line,
    nth_error lines k = Some line
    /\ fst line = mkVec2 (centerX v) (centerY v)
    /\ x2 (snd line) - x2 (fst line) = x2 circle - x2 listenerMarker
    /\ y2 (snd line) - y2 (fst line) = y2 circle - y2 listenerMarker
    /\ (compositionMode v = false ->
        fst line = listenerMarker /\ snd line = circle)
    /\ (compositionMode v = true ->
        fst line = mkVec2 (x2 listenerMarker - x player * scale v)
                          (y2 listenerMarker + z player * scale v)
        /\ snd line = mkVec2 (x2 circle - x player * scale v)
                             (y2 circle + z player * scale v)).
Proof.
  intros rendered lines circle listenerMarker Hnth.
  unfold lines, drawAngleLines. rewrite nth_error_map, Hnth. simpl.
  eexists. split; [reflexivity|].
  unfold circle, listenerMarker, rendered, render, screenPosition, drawPlayer.
  simpl.
  destruct (compositionMode v); simpl;
    (split; [reflexivity|]); (split; [ring|]); (split; [ring|]);
    (split; [intros H|intros H]); try discriminate H;
    split; f_equal; ring.
Qed.

(** The statement of X21 for the source at (10, 0, 0) seen from the
    origin. *)
Lemma angle_lines_start_at_the_canvas_centre_witness :
  exists line,
    nth_error
      (drawAngleLines
         (fst (render (mkVec3 0 0 0) [sourceAt (mkVec3 10 0 0)] 0
                 (constructor canvas800)))
         [sourceAt (mkVec3 10 0 0)] (mkVec3 0 0 0)) 0 = Some line
    /\ fst line = mkVec2 (800 / 2) (600 / 2).
Proof.
  destruct (angle_lines_start_at_the_canvas_centre (mkVec3 0 0 0)
              [sourceAt (mkVec3 10 0 0)] 0 (constructor canvas800) 0
              (sourceAt (mkVec3 10 0 0)) eq_refl)
    as [line [Hline [Hstart _]]].
  exists line. split; [exact Hline|exact Hstart].
Defined.

Lemma dragTarget_shifted (v : Vis) (p : Vec3) (mouseX mouseY a b : R) :
  scale v <> 0 ->
  dragOffset v = mkVec2 (mouseX - x2 (screenPosition v p))
                        (mouseY - y2 (screenPosition v p)) ->
  dragTarget v (mouseX + a) (mouseY + b) (y p)
  = mkVec3 (x p + a / scale v) (y p) (z p - b / scale v).
Proof.
  intros Hscale Hoff. unfold dragTarget. rewrite Hoff.
  unfold screenPosition.
  destruct (compositionMode v); simpl; f_equal; field; assumption.
Qed.

(** X22.  A drag moves the source with the mouse.  With a scale that is
    not zero, after a press that picks a source, a move of the mouse by
    [(a, b)] pixels from where it was pressed writes to the engine the
    position of that source moved by [a / scale] along x and by
    [- b / scale] along z, at the same height, in either reference-frame
    mode; the source is not locked. *)
Theorem drag_moves_the_source_with_the_mouse (deref : nat -> option Source)
    (v : Vis) (e : Engine) (ev : MouseEvent) (a b : R) (r : nat)
    (off : Vec2) :
  scale v <> 0 ->
  pick deref v (clientX ev - rectLeft (canvas v))
    (clientY ev - rectTop (canvas v)) (sources v) = Some (r, off) ->
  exists s,
    deref r = Some s
    /\ locked s = false
    /\ onMouseMove deref false
         (mkMouseEvent (clientX ev + a) (clientY ev + b))
         (onMouseDown deref false ev v, e)
       = (onMouseDown deref false ev v,
          setSourcePosition (id s)
            (mkVec3 (x (position s) + a / scale v) (y (position s))
               (z (position s) - b / scale v)) e).
Proof.
  intros Hscale Hpick.
  destruct (pick_offset _ _ _ _ _ _ _ Hpick) as [s [Hderef [Hlocked Hoff]]].
  exists s. split; [assumption|]. split; [assumption|].
  unfold onMouseDown, onMouseMove. rewrite Hpick.
  simpl. rewrite Hderef. f_equal. f_equal.
  replace (clientX ev + a - rectLeft (canvas v))
    with (clientX ev - rectLeft (canvas v) + a) by ring.
  replace (clientY ev + b - rectTop (canvas v))
    with (clientY ev - rectTop (canvas v) + b) by ring.
  apply (dragTarget_shifted
           (with_cursor "grabbing"%string (with_drag true (Some r) off v))
           (position s));
    [exact Hscale|exact Hoff].
Qed.

Lemma pick_at_500_300 :
  exists off,
    pick (fun r => if Nat.eqb r 1 then Some (sourceAt (mkVec3 5 0 0)) else None)
      (fst (render (mkVec3 0 0 0) [sourceAt (mkVec3 5 0 0)] 0
              (constructor canvas800)))
      (500 - 0) (300 - 0) [1%nat] = Some (1%nat, off).
Proof.
  eexists. unfold render. simpl.
  match goal with
  | |- context [Rlt_dec ?d 30] => destruct (Rlt_dec d 30) as [Hnear|Hfar]
  end; [reflexivity|].
  exfalso. apply Hfar.
  match goal with
  | |- sqrt ?t < 30 => replace t with 0 by (unfold Rdiv; field)
  end.
  rewrite sqrt_0. lra.
Qed.

(** The statement of X22 for a press on a source at (5, 0, 0), drawn at
    (500, 300), and a move by 40 pixels to the right: the source is asked
    to go to x = 5 + 40 / 20. *)
Lemma drag_moves_the_source_with_the_mouse_witness :
  exists s,
    (if Nat.eqb 1 1 then Some (sourceAt (mkVec3 5 0 0)) else None) = Some s
    /\ locked s = false.
Proof.
  destruct pick_at_500_300 as [off Hpick].
  destruct (drag_moves_the_source_with_the_mouse
              (fun r => if Nat.eqb r 1 then Some (sourceAt (mkVec3 5 0 0))
                        else None)
              (fst (render (mkVec3 0 0 0) [sourceAt (mkVec3 5 0 0)] 0
                      (constructor canvas800)))
              SpatialAudioEngine.constructor (mkMouseEvent 500 300) 40 0
              1%nat off)
    as [s [Hs [Hl _]]].
  - simpl. lra.
  - exact Hpick.
  - exists s. split; [exact Hs|exact Hl].
Defined.

End Dragged.

(** ** Truncated names *)

Section Names.

Import Visualization.








(** Without room for the dots the bound of X23 is lost. *)
Lemma truncateName_short_limit :
  truncateName "take.one.wav" 2 = "..."%string.
Proof. reflexivity. Qed.

End Names.

(** ** Loading files *)

Section Loading.

Import SpatialAudioEngine.












End Loading.

(** ** The panel after rendering and typing *)

Section RenderedPanel.

Import SpatialAudioEngine SourceManager.

Variable parseFloat : string -> option R.
Variable toFixed1 : R -> string.

Lemma coordInputs_typeAll_none (edits : list (nat * string * string))
    (i : nat) :
  forall p, coordInputs i p = [] -> coordInputs i (typeAll edits p) = [].
Proof.
  induction edits as [|[[j ax] text] rest IH]; intros p Hp; [exact Hp|].
  apply IH. rewrite coordInputs_typeInto, Hp. reflexivity.
Qed.

Lemma coordInputs_typeAll_three (edits : list (nat * string * string))
    (i : nat) (d : bool) :
  forall p tx ty tz,
    coordInputs i p = threeFields i tx ty tz d ->
    exists tx' ty' tz',
      coordInputs i (typeAll edits p) = threeFields i tx' ty' tz' d.
Proof.
  induction edits as [|[[j ax] text] rest IH]; intros p tx ty tz Hp.
  - now exists tx, ty, tz.
  - pose proof (coordInputs_typeInto i j ax text p) as Hstep.
    rewrite Hp in Hstep. unfold threeFields in Hstep.
    cbn [map dataSourceId axis disabled] in Hstep.
    destruct (Nat.eqb i j && String.eqb "x" ax)%bool;
      destruct (Nat.eqb i j && String.eqb "y" ax)%bool;
      destruct (Nat.eqb i j && String.eqb "z" ax)%bool;
      exact (IH _ _ _ _ Hstep).
Qed.

Lemma coordInputs_rendered_absent (e : Engine) (p : Panel) (i : nat) :
  wf e -> getSource i e = None ->
  coordInputs i (updateSourceList toFixed1 e p) = [].
Proof.
  intros [_ Hall] Hget. unfold coordInputs, updateSourceList, getSources.
  simpl. apply filter_rendered_absent.
  - eapply Forall_impl; [|exact Hall]. now intros kv [H _].
  - intros Hin. apply in_map_iff in Hin as [[k s] [Hk Hin]]. simpl in Hk.
    subst k. unfold getSource in Hget.
    clear Hall. induction (sources e) as [|[k' s'] m IH];
      simpl in *; [contradiction|].
    destruct (Nat.eqb_spec i k') as [->|Hne]; [discriminate|].
    destruct Hin as [Heq|Hin]; [congruence|now apply IH].
Qed.

Lemma update_three_fields (p : Panel) (e : Engine) (i : nat) (s : Source)
    (tx ty tz : string) (d : bool) :
  getSource i e = Some s ->
  coordInputs i p = threeFields i tx ty tz d ->
  updateSourcePosition parseFloat i (p, e)
  = match parseFloat tx, parseFloat ty, parseFloat tz with
    | Some a, Some b, Some c =>
        Some (p, setSourcePosition i (mkVec3 a b c) e)
    | _, _, _ => Some (alert invalidMessage p, e)
    end.
Proof.
  intros Hget Hinputs. unfold updateSourcePosition. simpl.
  rewrite Hget, Hinputs. unfold threeFields, readInput. simpl.
  destruct (parseFloat tx); destruct (parseFloat ty);
    destruct (parseFloat tz); reflexivity.
Qed.

(** X26.  The panel follows the scene.  After [updateSourceList] on an
    engine whose ids are in order, and whatever is typed afterwards, the
    fields found for a source of the scene are exactly three, for x, y and
    z in this order, disabled when the source is locked, and showing the
    stored coordinates through [toFixed(1)] as long as nothing was typed;
    an id that is not in the scene has no field. *)
Theorem panel_has_three_fields_per_source (e : Engine) (p : Panel)
    (edits : list (nat * string * string)) (i : nat) :
  wf e ->
  let panel := typeAll edits (updateSourceList toFixed1 e p) in
  (forall s,
     getSource i e = Some s ->
     exists tx ty tz,
       coordInputs i panel = threeFields i tx ty tz (locked s)
       /\ (edits = [] ->
           tx = toFixed1 (x (position s))
           /\ ty = toFixed1 (y (position s))
           /\ tz = toFixed1 (z (position s))))
  /\ (getSource i e = None -> coordInputs i panel = []).
Proof.
  intros Hwf panel. split.
  - intros s Hget.
    pose proof (coordInputs_rendered toFixed1 e p i s Hwf Hget) as Hr.
    unfold renderSource in Hr. rewrite (wf_getSource_id e i s Hwf Hget) in Hr.
    destruct edits as [|ed rest].
    + do 3 eexists. split; [exact Hr|]. intros _. now repeat split.
    + destruct (coordInputs_typeAll_three (ed :: rest) i (locked s) _ _ _ _ Hr)
        as [tx [ty [tz H]]].
      exists tx, ty, tz. split; [exact H|discriminate].
  - intros Hget. apply coordInputs_typeAll_none.
    now apply coordInputs_rendered_absent.
Qed.

(** X27.  From rendering to the engine.  On a panel rendered from the
    scene, after any typing, [updateSourcePosition] for a source of the
    scene always has three coordinates to hand over: the engine gets the
    three parsed texts in one [setSourcePosition] call, or, when a text
    does not parse, the message is shown and the engine is untouched.
    Without typing, the texts are the displayed ones, so an update writes
    back the coordinates as rounded by [toFixed(1)] and read by
    [parseFloat]. *)
Theorem update_from_a_rendered_panel (e : Engine) (p : Panel)
    (edits : list (nat * string * string)) (i : nat) (s : Source) :
  wf e ->
  getSource i e = Some s ->
  let panel := typeAll edits (updateSourceList toFixed1 e p) in
  (exists tx ty tz,
     coordInputs i panel = threeFields i tx ty tz (locked s)
     /\ updateSourcePosition parseFloat i (panel, e)
        = match parseFloat tx, parseFloat ty, parseFloat tz with
          | Some a, Some b, Some c =>
              Some (panel, setSourcePosition i (mkVec3 a b c) e)
          | _, _, _ => Some (alert invalidMessage panel, e)
          end)
  /\ (edits = [] ->
      updateSourcePosition parseFloat i (panel, e)
      = match parseFloat (toFixed1 (x (position s))),
              parseFloat (toFixed1 (y (position s))),
              parseFloat (toFixed1 (z (position s))) with
        | Some a, Some b, Some c =>
            Some (panel, setSourcePosition i (mkVec3 a b c) e)
        | _, _, _ => Some (alert invalidMessage panel, e)
        end).
Proof.
  intros Hwf Hget panel.
  pose proof (coordInputs_rendered toFixed1 e p i s Hwf Hget) as Hr.
  unfold renderSource in Hr. rewrite (wf_getSource_id e i s Hwf Hget) in Hr.
  split.
  - destruct (coordInputs_typeAll_three edits i (locked s) _ _ _ _ Hr)
      as [tx [ty [tz H]]].
    exists tx, ty, tz. split; [exact H|].
    now apply (update_three_fields panel e i s tx ty tz (locked s)).
  - intros ->.
    now apply (update_three_fields _ e i s _ _ _ (locked s)).
Qed.

Lemma getSource_stopSource_other (i j : nat) (e : Engine) :
  j <> i -> getSource j (stopSource i e) = getSource j e.
Proof.
  intros Hne. unfold stopSource, getSource.
  destruct (map_get i (sources e)) as [s|]; [|reflexivity].
  destruct (node s); [|reflexivity].
  simpl. now apply map_get_update_other.
Qed.

Lemma getSource_removeSource_other (i j : nat) (e : Engine) :
  j <> i ->
  getSource j (SpatialAudioEngine.removeSource i e) = getSource j e.
Proof.
  intros Hne. unfold SpatialAudioEngine.removeSource.
  destruct (map_get i (sources e)) as [s|]; [|reflexivity].
  unfold getSource at 1. simpl.
  rewrite map_get_delete_other by assumption.
  now apply getSource_stopSource_other.
Qed.

Lemma getSource_removeSource_same (i : nat) (e : Engine) :
  wf e -> getSource i (SpatialAudioEngine.removeSource i e) = None.
Proof.
  intros Hwf. unfold SpatialAudioEngine.removeSource.
  destruct (map_get i (sources e)) as [s|] eqn:Hget; [|exact Hget].
  unfold getSource. simpl. apply map_get_None.
  apply map_delete_gone. now destruct (wf_stopSource i e Hwf).
Qed.

(** X28.  The buttons of the panel render it again.  On an engine whose
    ids are in order: after a click on the lock button of a source, its
    three fields are disabled exactly when it was not locked before, and
    they show the stored coordinates again, so a text that was typed and
    not sent is gone; after a click on its remove button, the source has no
    field and is not in the scene any more, and every other source keeps
    its three fields, showing its stored coordinates. *)
Theorem panel_buttons_render_again (e : Engine) (p : Panel)
    (edits : list (nat * string * string)) (i : nat) (s : Source) :
  wf e ->
  getSource i e = Some s ->
  let panel := typeAll edits (updateSourceList toFixed1 e p) in
  let locking := lockClick toFixed1 i (panel, e) in
  let removing := SourceManager.removeSource toFixed1 i (panel, e) in
  getSource i (snd locking) = Some (set_locked (negb (locked s)) s)
  /\ coordInputs i (fst locking)
     = threeFields i (toFixed1 (x (position s))) (toFixed1 (y (position s)))
         (toFixed1 (z (position s))) (negb (locked s))
  /\ getSource i (snd removing) = None
  /\ coordInputs i (fst removing) = []
  /\ (forall j s',
        j <> i -> getSource j e = Some s' ->
        getSource j (snd removing) = Some s'
        /\ coordInputs j (fst removing)
           = threeFields j (toFixed1 (x (position s')))
               (toFixed1 (y (position s'))) (toFixed1 (z (position s')))
               (locked s')).
Proof.
  intros Hwf Hget panel locking removing.
  assert (Hlocked :
    getSource i (snd (toggleSourceLock i e))
    = Some (set_locked (negb (locked s)) s)).
  { unfold toggleSourceLock, getSource in *. rewrite Hget. simpl.
    now rewrite map_get_update_same, Hget. }
  assert (Hwfl : wf (snd (toggleSourceLock i e))).
  { unfold toggleSourceLock. unfold getSource in Hget. rewrite Hget. simpl.
    now apply wf_update. }
  assert (Hwfr : wf (SpatialAudioEngine.removeSource i e))
    by now apply wf_removeSource.
  split; [exact Hlocked|]. split.
  { unfold locking, lockClick. simpl.
    rewrite (coordInputs_rendered toFixed1 _ panel i _ Hwfl Hlocked).
    unfold renderSource, threeFields. simpl.
    now rewrite (wf_getSource_id e i s Hwf Hget). }
  split; [now apply getSource_removeSource_same|]. split.
  { unfold removing, SourceManager.removeSource. simpl.
    apply coordInputs_rendered_absent; [exact Hwfr|].
    now apply getSource_removeSource_same. }
  intros j s' Hne Hj.
  assert (Hkept : getSource j (SpatialAudioEngine.removeSource i e) = Some s')
    by (now rewrite getSource_removeSource_other).
  split; [exact Hkept|].
  unfold removing, SourceManager.removeSource. simpl.
  rewrite (coordInputs_rendered toFixed1 _ panel j s' Hwfr Hkept).
  unfold renderSource, threeFields.
  now rewrite (wf_getSource_id e j s' Hwf Hj).
Qed.

End RenderedPanel.

Section RenderedPanelExample.

Import SpatialAudioEngine SourceManager.

Lemma wf_oneSource : wf oneSource.
Proof. apply wf_createSource, wf_constructor. Qed.

(** The statement of X26 for the panel of [oneSource] after typing 8 into
    the height field. *)
Lemma panel_has_three_fields_per_source_witness :
  exists tx ty tz,
    coordInputs 1
      (typeAll [(1%nat, "y"%string, "8"%string)]
         (updateSourceList (fun _ => "5.0"%string) oneSource
            SourceManager.constructor))
    = threeFields 1 tx ty tz false.
Proof.
  destruct (panel_has_three_fields_per_source (fun _ => "5.0"%string)
              oneSource SourceManager.constructor [(1%nat, "y"%string, "8"%string)] 1
              wf_oneSource) as [H _].
  destruct (H (sourceAt (mkVec3 5 0 0)) eq_refl) as [tx [ty [tz [Hf _]]]].
  now exists tx, ty, tz.
Defined.

(** The statement of X27 for the same panel. *)
Lemma update_from_a_rendered_panel_witness :
  exists tx ty tz,
    coordInputs 1
      (typeAll [(1%nat, "y"%string, "8"%string)]
         (updateSourceList (fun _ => "5.0"%string) oneSource
            SourceManager.constructor))
    = threeFields 1 tx ty tz false.
Proof.
  destruct (update_from_a_rendered_panel parseUnsigned
              (fun _ => "5.0"%string) oneSource SourceManager.constructor
              [(1%nat, "y"%string, "8"%string)] 1 (sourceAt (mkVec3 5 0 0))
              wf_oneSource eq_refl) as [[tx [ty [tz [Hf _]]]] _].
  now exists tx, ty, tz.
Defined.

(** The statement of X28 for the same panel: after a click on the lock
    button the source is locked. *)
Lemma panel_buttons_render_again_witness :
  getSource 1
    (snd (lockClick (fun _ => "5.0"%string) 1
            (typeAll [(1%nat, "y"%string, "8"%string)]
               (updateSourceList (fun _ => "5.0"%string) oneSource
                  SourceManager.constructor),
             oneSource)))
  = Some (set_locked true (sourceAt (mkVec3 5 0 0))).
Proof.
  destruct (panel_buttons_render_again (fun _ => "5.0"%string) oneSource
              SourceManager.constructor [(1%nat, "y"%string, "8"%string)] 1
              (sourceAt (mkVec3 5 0 0)) wf_oneSource eq_refl) as [H _].
  exact H.
Defined.

End RenderedPanelExample.

(** ** The application drives the engine through its methods *)

Section Driven.

Import SpatialAudioEngine.

Lemma run_app (ops1 ops2 : list Op) (e : Engine) :
  snd (run (ops1 ++ ops2) e) = snd (run ops2 (snd (run ops1 e))).
Proof.
  revert e. induction ops1 as [|o rest IH]; intros e; simpl; [reflexivity|].
  apply IH.
Qed.

Lemma reaches_refl (e : Engine) : reaches e e.
Proof. now exists []. Qed.

Lemma reaches_trans (e1 e2 e3 : Engine) :
  reaches e1 e2 -> reaches e2 e3 -> reaches e1 e3.
Proof.
  intros [ops1 ->] [ops2 ->]. exists (ops1 ++ ops2). now rewrite run_app.
Qed.

Lemma reaches_step (o : Op) (e : Engine) : reaches e (snd (step o e)).
Proof. now exists [o]. Qed.

Lemma reaches_movePlayer (dx dy dz : R)
    (me : MovementController.Controller * Engine) :
  reaches (snd me) (snd (MovementController.movePlayer dx dy dz me)).
Proof.
  unfold MovementController.movePlayer. cbn [snd].
  apply (reaches_step (OpUpdateListenerPosition _)).
Qed.

Ltac reach :=
  lazymatch goal with
  | |- reaches ?e ?e => apply reaches_refl
  | |- reaches _ (snd (if ?c then _ else _)) => destruct c; reach
  | |- reaches _ (snd (MovementController.movePlayer _ _ _ ?me)) =>
      apply reaches_trans with (snd me); [reach|apply reaches_movePlayer]
  | |- reaches _ (snd (_, ?e')) => cbn [snd]; reach
  | |- reaches _ (updateListenerOrientation ?a ?b ?e') =>
      apply reaches_trans with e';
      [reach|apply (reaches_step (OpUpdateListenerOrientation a b))]
  | |- reaches _ (updateListenerPosition ?p ?e') =>
      apply reaches_trans with e';
      [reach|apply (reaches_step (OpUpdateListenerPosition p))]
  end.

Lemma reaches_controller (i : MovementController.Input)
    (me : MovementController.Controller * Engine) :
  reaches (snd me) (snd (MovementController.handle i me)).
Proof.
  destruct i; cbn [MovementController.handle].
  - unfold MovementController.handleKeyDown. cbv zeta. reach.
  - reach.
  - reach.
  - unfold MovementController.handleMouseMove. cbv zeta. reach.
  - reach.
  - reach.
  - unfold MovementController.updateGamepad.
    destruct (MovementController.gamepadIndex (fst me)); [|reach].
    destruct (nth _ pads None); [|reach].
    cbv zeta. reach.
  - unfold MovementController.resetPosition. cbv zeta. reach.
Qed.

Lemma reaches_handle (ev : App.Event) (a : App.App) :
  reaches (App.audioEngine a) (App.audioEngine (App.handle ev a)).
Proof.
  destruct ev;
    cbn [App.handle App.with_engine App.with_visualization App.audioEngine];
    try apply reaches_refl.
  - apply (reaches_controller i (App.movement a, App.audioEngine a)).
  - apply (reaches_step (OpCreateSource _ _ _)).
  - apply (reaches_step OpPlayAll).
  - apply (reaches_step OpPauseAll).
  - apply (reaches_step (OpOnended _)).
  - apply (reaches_step (OpRemoveSource _)).
  - apply (reaches_step (OpToggleSourceLock _)).
  - apply (reaches_step (OpSetSourcePosition _ _)).
  - destruct (onMouseMove_engine (App.deref a) pointerLocked e
                (App.visualization a) (App.audioEngine a)) as [->|[i [p ->]]];
      [apply reaches_refl|apply (reaches_step (OpSetSourcePosition _ _))].
Qed.

Lemma reaches_handle_all (evs : list App.Event) (a : App.App) :
  reaches (App.audioEngine a) (App.audioEngine (App.handle_all evs a)).
Proof.
  revert a. induction evs as [|ev rest IH]; intros a; [apply reaches_refl|].
  apply reaches_trans with (App.audioEngine (App.handle ev a));
    [apply reaches_handle|apply IH].
Qed.

(** X29.  Whatever the user does, the application changes the engine only
    through calls of its methods: the engine of the running application is
    the result of a sequence of method calls on a fresh engine.  So what
    holds after every such sequence holds in the application: ids are
    distinct and below the counter, every source has a whole playback
    route or none and a volume within [0, 1], and the node calls are
    disciplined. *)
Theorem app_drives_the_engine_through_its_methods (ok : bool)
    (c : Visualization.Canvas) (evs : list App.Event) :
  let e := App.audioEngine (App.handle_all evs (App.start ok c)) in
  reaches constructor e
  /\ wf e
  /\ Forall (fun s => route_ok s /\ volume_ok s) (getSources e)
  /\ trace_inv e.
Proof.
  intros e.
  assert (Hreach : reaches constructor e).
  { apply reaches_trans with (init ok constructor).
    - apply (reaches_step (OpInit ok)).
    - apply (reaches_handle_all evs (App.start ok c)). }
  split; [exact Hreach|]. destruct Hreach as [ops ->].
  split; [apply wf_run, wf_constructor|]. split.
  - pose proof (entries_ok_run ops constructor entries_ok_constructor) as H.
    unfold entries_ok in H. unfold getSources. now rewrite Forall_map.
  - apply trace_inv_run; [apply wf_constructor|apply trace_inv_constructor].
Qed.

Lemma absent_stopSource (i j : nat) (e : Engine) :
  Forall (fun kv => fst kv <> i) (sources e) ->
  Forall (fun kv => fst kv <> i) (sources (stopSource j e)).
Proof.
  intros H. unfold stopSource.
  destruct (map_get j (sources e)) as [s|]; [|exact H].
  destruct (node s); [|exact H].
  simpl. now apply map_update_Forall.
Qed.

Lemma absent_startSource (i j : nat) (e : Engine) :
  Forall (fun kv => fst kv <> i) (sources e) ->
  Forall (fun kv => fst kv <> i) (sources (startSource j e)).
Proof.
  intros H. unfold startSource.
  destruct (map_get j (sources e)) as [s|]; [|exact H].
  destruct (audioContext e); [|exact H].
  simpl. now apply map_update_Forall.
Qed.

Lemma absent_step (o : Op) (i : nat) (e : Engine) :
  (i < nextSourceId e)%nat ->
  Forall (fun kv => fst kv <> i) (sources e) ->
  Forall (fun kv => fst kv <> i) (sources (snd (step o e))).
Proof.
  intros Hlt H. destruct o; simpl.
  - unfold init. destruct (initialized e); [exact H|]. now destruct ok.
  - apply map_set_Forall; [simpl; lia|exact H].
  - unfold removeSource.
    destruct (map_get sourceId (sources e)); [|exact H].
    simpl. now apply map_delete_Forall, absent_stopSource.
  - now apply absent_startSource.
  - now apply absent_stopSource.
  - now apply map_update_Forall.
  - unfold playAll. destruct (audioContext e); [|exact H]. simpl.
    apply (forEach_id_preserves
             (fun e' => Forall (fun kv => fst kv <> i) (sources e')));
      [|exact H].
    intros j e'. apply absent_startSource.
  - apply (forEach_id_preserves
             (fun e' => Forall (fun kv => fst kv <> i) (sources e')));
      [|exact H].
    intros j e'. apply absent_stopSource.
  - unfold setSourceVolume.
    destruct (map_get sourceId (sources e)); [|exact H].
    simpl. now apply map_update_Forall.
  - unfold setSourcePosition.
    destruct (map_get sourceId (sources e)); [|exact H].
    simpl. now apply map_update_Forall.
  - unfold updateListenerPosition. simpl. rewrite Forall_map.
    eapply Forall_impl; [|exact H].
    intros [k s] Hk. simpl in *. now destruct (panner s).
  - unfold updateListenerOrientation. now destruct (audioContext e).
  - unfold toggleSourceLock.
    destruct (map_get sourceId (sources e)); [|exact H].
    simpl. now apply map_update_Forall.
  - unfold setSourceLocked.
    destruct (map_get sourceId (sources e)); [|exact H].
    simpl. now apply map_update_Forall.
Qed.

Lemma nextSourceId_step_le (o : Op) (e : Engine) :
  (nextSourceId e <= nextSourceId (snd (step o e)))%nat.
Proof.
  pose proof (nextSourceId_step o e) as H.
  destruct (fst (step o e)); [destruct H as [-> ->]|rewrite H]; lia.
Qed.

Lemma absent_run (ops : list Op) (i : nat) :
  forall e,
    (i < nextSourceId e)%nat ->
    Forall (fun kv => fst kv <> i) (sources e) ->
    Forall (fun kv => fst kv <> i) (sources (snd (run ops e))).
Proof.
  induction ops as [|o rest IH]; intros e Hlt H; [exact H|].
  simpl. apply IH.
  - pose proof (nextSourceId_step_le o e). lia.
  - now apply absent_step.
Qed.

Lemma absent_getSource (i : nat) (e : Engine) :
  getSource i e = None <-> Forall (fun kv => fst kv <> i) (sources e).
Proof.
  unfold getSource. rewrite map_get_None, Forall_forall. split.
  - intros H kv Hin Heq. apply H. subst i. now apply in_map.
  - intros H Hin. apply in_map_iff in Hin as [kv [Heq Hin]].
    exact (H kv Hin Heq).
Qed.

(** X30.  Ids are not used again.  An id below the counter that leads to
    no source, such as the id of a source that was removed, leads to no
    source after any further calls of the engine's methods, none of which
    returns it for a new source; the same holds in the running application
    after any further events. *)
Theorem removed_ids_are_never_reused (evs : list App.Event) (a : App.App)
    (ops : list Op) (i : nat) :
  (i < nextSourceId (App.audioEngine a))%nat ->
  getSource i (App.audioEngine a) = None ->
  getSource i (snd (run ops (App.audioEngine a))) = None
  /\ ~ In i (fst (run ops (App.audioEngine a)))
  /\ getSource i (App.audioEngine (App.handle_all evs a)) = None.
Proof.
  intros Hlt Hnone. apply absent_getSource in Hnone.
  split; [apply absent_getSource; now apply absent_run|]. split.
  - intros Hin.
    destruct (run_ids_sorted ops (App.audioEngine a)) as [Hge _].
    rewrite Forall_forall in Hge. apply Hge in Hin. lia.
  - destruct (reaches_handle_all evs a) as [ops' ->].
    apply absent_getSource. now apply absent_run.
Qed.

(** The statement of X30 for one file loaded and removed again: a second
    file does not get the id 1 back. *)
Lemma removed_ids_are_never_reused_witness :
  getSource 1
    (App.audioEngine
       (App.handle_all [App.Loaded 0%nat "other.mp3" 1] loadedAndRemoved))
  = None.
Proof.
  destruct (removed_ids_are_never_reused
              [App.Loaded 0%nat "other.mp3" 1] loadedAndRemoved [] 1)
    as [_ [_ H]].
  - simpl. lia.
  - reflexivity.
  - exact H.
Defined.

End Driven.
